(** * Feed model of [meetings/feedparser.js]

  A shallow embedding of the feed item parser, the dual-indexed [Feed]
  collection and its [update] reconciliation, followed by the properties
  the specification states about them.

  Conventions of the embedding
  - JavaScript objects that are compared by reference ([Date] keys of a
    [Map], items searched with [indexOf]) carry the number of the
    allocation that created them; Leibniz equality of the record is object
    identity.
  - A JavaScript number that may be [NaN] is an [option Z] ([None] is
    [NaN]); a value that may be [undefined] or [null] is an [option].
  - [Map] and [Set] keep insertion order, so they are association lists and
    lists.
  - An array with holes is a [list (option _)]: [None] is a hole, which
    iteration reads as [undefined].
  - A method that mutates [this] or allocates is a function from the state
    to an outcome and the state it leaves behind, also when it throws.
  - A string is the sequence of its code units; the feeds at hand are
    ASCII. A time value is an integer number of milliseconds.
  - [Date.parse] is the engine's and depends on its time zone: it is a
    parameter of everything that parses. *)

From Stdlib Require Import ZArith List String Ascii Lia.
From stdpp Require Import base option list sorting strings pretty.

Local Open Scope string_scope.
Local Open Scope Z_scope.

(** ** Outcomes and the state-and-exception monad *)

(** What the source throws: [new Error(message)], or the [TypeError] the
    engine raises when a property of [null] or [undefined] is read. *)
Inductive Exn : Type :=
| TypeError
| Error (message : string).

Inductive Outcome (A : Type) : Type :=
| Return (a : A)
| Throw (e : Exn).
Arguments Return {A} a.
Arguments Throw {A} e.

Definition Eff (S A : Type) : Type := S -> Outcome A * S.

Definition ret {S A} (a : A) : Eff S A := fun s => (Return a, s).
Definition throw {S A} (e : Exn) : Eff S A := fun s => (Throw e, s).
Definition bind {S A B} (c : Eff S A) (k : A -> Eff S B) : Eff S B :=
  fun s => match c s with
           | (Return a, s') => k a s'
           | (Throw e, s') => (Throw e, s')
           end.
Definition get_state {S} : Eff S S := fun s => (Return s, s).
Definition modify {S} (f : S -> S) : Eff S unit := fun s => (Return tt, f s).
(** A value computed without state that may throw. *)
Definition liftO {S A} (o : Outcome A) : Eff S A := fun s => (o, s).

Notation "'let*' x ':=' c 'in' k" := (bind c (fun x => k))
  (at level 10, x pattern, c at level 100, k at level 200).

(** ** JavaScript strings *)

Module JsString.

Definition quote : string := String (ascii_of_nat 34) EmptyString.

(** [s.startsWith(p)] *)
Definition startsWith (s p : string) : bool := String.prefix p s.

(** [s.indexOf(sub)]; [None] is [-1]. *)
Definition indexOf (s sub : string) : option nat := String.index 0 sub s.

(** [s.split(sep)] for a separator that is not empty: the pieces between
    the occurrences of [sep], found from left to right without overlap.
    [skip] counts the characters of a matched separator still to pass;
    [acc] is the current piece, reversed. *)
Fixpoint split_go (sep : string) (skip : nat) (acc : list ascii) (s : string)
  : list string :=
  match s with
  | EmptyString => [string_of_list_ascii (rev acc)]
  | String c s' =>
      match skip with
      | S k => split_go sep k acc s'
      | O =>
          if String.prefix sep s
          then string_of_list_ascii (rev acc)
                 :: split_go sep (String.length sep - 1) [] s'
          else split_go sep 0 (c :: acc) s'
      end
  end.
Definition split (s sep : string) : list string := split_go sep 0 [] s.

(** White space of [trim]: the code units below 128 that ECMAScript lists
    as WhiteSpace or LineTerminator (TAB, LF, VT, FF, CR, SP). *)
Definition is_space (c : ascii) : bool :=
  let n := nat_of_ascii c in
  ((9 <=? n) && (n <=? 13) || (n =? 32))%nat.

Fixpoint trimStart (s : string) : string :=
  match s with
  | EmptyString => EmptyString
  | String c s' => if is_space c then trimStart s' else s
  end.
Fixpoint trimEnd (s : string) : string :=
  match s with
  | EmptyString => EmptyString
  | String c s' =>
      match trimEnd s' with
      | EmptyString => if is_space c then EmptyString else String c EmptyString
      | t => String c t
      end
  end.
Definition trim (s : string) : string := trimEnd (trimStart s).

(** [[a, b].join(' ')]: an element that is [undefined] joins as the empty
    string. *)
Definition join2 (sep : string) (a b : option string) : string :=
  default "" a +:+ sep +:+ default "" b.

(** Conversion of a number to a string inside a template literal. *)
Definition of_number (v : option Z) : string :=
  match v with
  | None => "NaN"
  | Some z => pretty z
  end.

End JsString.

(** ** The part of the DOM the parser reads *)

Module Dom.

(** Text nodes and elements; comments and processing instructions take no
    part in [textContent], [children] or selector matching. [tagName] of
    an element of an XML document is its qualified name. *)
#[warnings="-register-all"]
Inductive Node : Type :=
| Text (data : string)
| Element (tagName : string) (childNodes : list Node).

Definition tagName_of (n : Node) : string :=
  match n with
  | Text _ => "#text"
  | Element t _ => t
  end.

Definition childNodes_of (n : Node) : list Node :=
  match n with
  | Text _ => []
  | Element _ ks => ks
  end.

Definition is_element (n : Node) : bool :=
  match n with
  | Text _ => false
  | Element _ _ => true
  end.

(** [el.textContent]: the text of all descendants, in document order. *)
Fixpoint textContent (n : Node) : string :=
  match n with
  | Text s => s
  | Element _ ks => String.concat "" (map textContent ks)
  end.

(** [el.children]: the child nodes that are elements. *)
Definition children (n : Node) : list Node :=
  filter (fun k => is_element k = true) (childNodes_of n).

(** All element descendants in document order, the node itself excluded. *)
Fixpoint descendants (n : Node) : list Node :=
  match n with
  | Text _ => []
  | Element _ ks =>
      flat_map (fun k => match k with
                         | Text _ => []
                         | Element _ _ => k :: descendants k
                         end) ks
  end.

(** The local name of a qualified name: what follows the prefix. *)
Definition localName (qname : string) : string :=
  match String.index 0 ":" qname with
  | Some i => String.substring (S i) (String.length qname - S i) qname
  | None => qname
  end.

(** The selectors of this program are type selectors ([title], [item],
    [channel], ...). Without a namespace declaration a type selector
    matches the local name of an element in any namespace, and in an XML
    document the comparison is case sensitive. *)
Definition matches (selector : string) (n : Node) : bool :=
  bool_decide (localName (tagName_of n) = selector).

Definition querySelectorAll (n : Node) (selector : string) : list Node :=
  filter (fun e => matches selector e = true) (descendants n).

(** [None] is [null]. *)
Definition querySelector (n : Node) (selector : string) : option Node :=
  head (querySelectorAll n selector).

(** A document is the node whose descendants are all its elements. *)
Definition document (root : Node) : Node := Element "#document" [root].

End Dom.

(** ** [Date] objects *)

Record Date : Type := mkDate {
  date_ref : nat;       (* allocation number: the identity of the object *)
  getTime : option Z;   (* time value in ms since the epoch; NaN if invalid *)
}.

Global Instance Date_eq_dec : EqDecision Date.
Proof. solve_decision. Defined.

(** [new Date(t)] for a time value already computed. *)
Definition new_Date (t : option Z) : Eff nat Date :=
  fun n => (Return (mkDate n t), S n).

(** [d.toString() == 'Invalid Date'] *)
Definition is_invalid_date (d : Date) : bool :=
  match getTime d with
  | None => true
  | Some _ => false
  end.

(** [a > b] on dates compares the time values; a comparison with NaN is
    false. *)
Definition date_gt (a b : Date) : bool :=
  match getTime a, getTime b with
  | Some x, Some y => bool_decide (y < x)
  | _, _ => false
  end.

(** ** Module-level functions of feedparser.js *)

Section Parsing.

(** [Date.parse]: what the engine makes of a date string, in its own time
    zone; [None] is NaN. The format of the feed's dates is not an ISO
    format, so the result is the engine's own. *)
Variable Date_parse : string -> option Z.

Definition parsePubDate (dtStr : string) : Eff nat Date :=
  new_Date (Date_parse dtStr).

(** The time value [new Date(dtStr)] gets, for a [dtStr] that is a string
    or [undefined]. *)
Definition time_value_of (dtStr : option string) : option Z :=
  match dtStr with
  | Some s => Date_parse s
  | None => None
  end.

Definition new_Date_of (dtStr : option string) : Eff nat Date :=
  new_Date (time_value_of dtStr).

Definition calendarEventDate_text (dateStr timeStr : option string)
  : option string :=
  match timeStr with
  | Some _ => Some (JsString.join2 " " dateStr timeStr)
  | None => dateStr
  end.

Definition parseCalendarEventDate (dateStr timeStr : option string)
  : Eff nat Date :=
  new_Date_of (calendarEventDate_text dateStr timeStr).

Definition getCalendarEventTag (srcEl : Dom.Node) (tagName : string)
  : option Dom.Node :=
  head (filter (fun el => Dom.tagName_of el = tagName) (Dom.children srcEl)).

(** [srcEl] is [None] when the caller passes [null]. *)
Definition getElemText (srcEl : option Dom.Node) (selector : option string)
  : Outcome string :=
  let el :=
    match selector with
    | None => Return srcEl
    | Some sel =>
        match srcEl with
        | None => Throw TypeError
        | Some src =>
            if JsString.startsWith sel "calendarEvent:"
            then Return (getCalendarEventTag src sel)
            else Return (Dom.querySelector src sel)
        end
    end in
  match el with
  | Throw e => Throw e
  | Return None => Throw TypeError
  | Return (Some e) => Return (Dom.textContent e)
  end.

End Parsing.

(** ** [class FeedItem] *)

Module FeedItem.

Record t : Type := mk {
  ref : nat;            (* allocation number: the identity of the object *)
  title : string;
  pubDate : Date;
  description : string;
  startTime : Date;
  endTime : Date;
}.

Global Instance eq_dec : EqDecision t.
Proof. solve_decision. Defined.

(** [get timeStamp()] *)
Definition timeStamp (this : t) : option Z := getTime (startTime this).

(** [get id()] *)
Definition id (this : t) : string :=
  title this +:+ " || " +:+ JsString.of_number (timeStamp this).

(** [new cls(title, pubDate, description, startTime, endTime)] *)
Definition new (title : string) (pubDate : Date) (description : string)
    (startTime endTime : Date) : Eff nat t :=
  fun n => (Return (mk n title pubDate description startTime endTime), S n).

(** The array [eventDates] of [parse]. *)
Definition eventDates_of (eventDateStr : string) : list string :=
  match JsString.indexOf eventDateStr " - " with
  | Some _ => JsString.split eventDateStr " - "
  | None => [eventDateStr; eventDateStr]
  end.

Section Parse.

Variable Date_parse : string -> option Z.

(** [static parse(elem)] *)
Definition parse (elem : Dom.Node) : Eff nat t :=
  let* title := liftO (getElemText (Some elem) (Some "title")) in
  let* pubText := liftO (getElemText (Some elem) (Some "pubDate")) in
  let* pubDate := parsePubDate Date_parse pubText in
  let* desc := liftO (getElemText (Some elem) (Some "description")) in
  let* timesText :=
    liftO (getElemText (Some elem) (Some "calendarEvent:EventTimes")) in
  let eventTimes := JsString.split timesText " - " in
  let* datesText :=
    liftO (getElemText (Some elem) (Some "calendarEvent:EventDates")) in
  let eventDateStr := JsString.trim datesText in
  let eventDates := eventDates_of eventDateStr in
  let* startTime :=
    parseCalendarEventDate Date_parse (eventDates !! 0%nat) (eventTimes !! 0%nat) in
  if is_invalid_date startTime
  then throw (Error "invalid date")
  else
    let* endTime :=
      parseCalendarEventDate Date_parse (eventDates !! 1%nat) (eventTimes !! 1%nat) in
    new title pubDate desc startTime endTime.

End Parse.

End FeedItem.

(** ** [Map] objects *)

Module JsMap.

(** The entries in insertion order; the keys are pairwise different. Keys
    are compared as [Map] does (SameValueZero): strings by value, objects
    by identity. *)
Definition t (K V : Type) : Type := list (K * V).

Section Ops.

Context {K V : Type} `{EqDecision K}.

Definition empty : t K V := [].

(** [m.get(k)]; [None] is [undefined]. *)
Fixpoint get (m : t K V) (k : K) : option V :=
  match m with
  | [] => None
  | (k', v) :: m' => if decide (k = k') then Some v else get m' k
  end.

(** [m.has(k)] *)
Definition has (m : t K V) (k : K) : bool :=
  match get m k with
  | Some _ => true
  | None => false
  end.

(** [m.set(k, v)]: an existing key keeps its place, a new one goes last. *)
Fixpoint set (m : t K V) (k : K) (v : V) : t K V :=
  match m with
  | [] => [(k, v)]
  | (k', v') :: m' =>
      if decide (k = k') then (k', v) :: m' else (k', v') :: set m' k v
  end.

(** [m.delete(k)] *)
Fixpoint delete (m : t K V) (k : K) : t K V :=
  match m with
  | [] => []
  | (k', v') :: m' =>
      if decide (k = k') then m' else (k', v') :: delete m' k
  end.

(** [[...m.keys()]] *)
Definition keys (m : t K V) : list K := map fst m.

End Ops.

End JsMap.

(** ** Arrays *)

Module JsArray.

Section Ops.

Context {A : Type} `{EqDecision A}.

(** [arr.indexOf(x)] for an [x] that is not [undefined]: the first index
    holding [x]; holes are passed over. [None] is [-1]. *)
Fixpoint indexOf (arr : list (option A)) (x : A) : option nat :=
  match arr with
  | [] => None
  | y :: arr' =>
      if decide (y = Some x) then Some 0%nat else S <$> indexOf arr' x
  end.

(** [delete arr[i]]: the element becomes a hole, the length stays. *)
Definition delete_at (arr : list (option A)) (i : nat) : list (option A) :=
  <[i := None]> arr.

(** [arr.push(x)] *)
Definition push (arr : list (option A)) (x : A) : list (option A) :=
  arr ++ [Some x].

End Ops.

(** [arr.sort(comparefn)]. The sort is stable; [comparefn a b] above zero
    puts [a] after [b], and a result of NaN ([None]) counts as zero. For a
    consistent comparator the result is the one every engine produces. *)
Section Sort.

Context {A : Type} (comparefn : A -> A -> option Z).

Definition sorts_after (a b : A) : bool :=
  match comparefn a b with
  | Some v => bool_decide (0 < v)
  | None => false
  end.

Fixpoint sort_insert (x : A) (l : list A) : list A :=
  match l with
  | [] => [x]
  | y :: l' => if sorts_after x y then y :: sort_insert x l' else x :: l
  end.

Fixpoint sort (l : list A) : list A :=
  match l with
  | [] => []
  | x :: l' => sort_insert x (sort l')
  end.

End Sort.

(** [`${arr}`] of an array of plain objects: [[object Object]] for each
    element, nothing for a hole, joined by commas. *)
Definition toString {A : Type} (arr : list (option A)) : string :=
  String.concat ","
    (map (fun o => match o with
                   | Some _ => "[object Object]"
                   | None => ""
                   end) arr).

End JsArray.

(** ** Generators *)

(** The result of one call of [next()] on a generator. *)
Inductive GenStep (A : Type) : Type :=
| Yield (value : A)
| Done
| Throws (e : Exn).
Arguments Yield {A} value.
Arguments Done {A}.
Arguments Throws {A} e.

(** [[...gen]]: [next()] is called until the generator is done. [fuel]
    bounds the number of calls; [None] says the bound was too small. *)
Fixpoint spread {G A : Type} (next : G -> GenStep A * G) (fuel : nat) (g : G)
  : option (Outcome (list A)) :=
  match fuel with
  | O => None
  | S n =>
      match next g with
      | (Yield v, g') =>
          match spread next n g' with
          | Some (Return l) => Some (Return (v :: l))
          | r => r
          end
      | (Done, _) => Some (Return [])
      | (Throws e, _) => Some (Throw e)
      end
  end.

(** [l.forEach(f)] and [for (const x of l) f(x)] *)
Fixpoint forEach {S A : Type} (f : A -> Eff S unit) (l : list A) : Eff S unit :=
  match l with
  | [] => ret tt
  | x :: l' => let* _ := f x in forEach f l'
  end.

(** ** [class Feed] *)

Module Feed.

Record t : Type := mk {
  title : string;
  link : string;
  buildDate : Date;
  description : string;
  itemsByStartTime : JsMap.t Date (list (option FeedItem.t));
  itemsById : JsMap.t string FeedItem.t;
}.

(** [constructor(title, link, buildDate, description)] *)
Definition new (title link : string) (buildDate : Date) (description : string)
  : t :=
  mk title link buildDate description JsMap.empty JsMap.empty.

Definition set_itemsByStartTime
    (m : JsMap.t Date (list (option FeedItem.t))) (this : t) : t :=
  mk (title this) (link this) (buildDate this) (description this)
     m (itemsById this).

Definition set_itemsById (m : JsMap.t string FeedItem.t) (this : t) : t :=
  mk (title this) (link this) (buildDate this) (description this)
     (itemsByStartTime this) m.

(** [addChild(feedItem)]. The bucket array is an object held by the map:
    [push] changes the value stored under the key. *)
Definition addChild (feedItem : FeedItem.t) : Eff t unit :=
  let itemDt := FeedItem.startTime feedItem in
  let* _ := modify (fun this =>
    set_itemsById
      (JsMap.set (itemsById this) (FeedItem.id feedItem) feedItem) this) in
  let* this := get_state in
  let* _ :=
    if negb (JsMap.has (itemsByStartTime this) itemDt)
    then modify (fun this =>
           set_itemsByStartTime
             (JsMap.set (itemsByStartTime this) itemDt []) this)
    else ret tt in
  let* this := get_state in
  match JsMap.get (itemsByStartTime this) itemDt with
  | None => throw TypeError               (* [push] of [undefined] *)
  | Some subArr =>
      modify (set_itemsByStartTime
                (JsMap.set (itemsByStartTime this) itemDt
                   (JsArray.push subArr feedItem)))
  end.

Definition not_in_feed (itemId : string) : Exn :=
  Error ("item " +:+ JsString.quote +:+ itemId +:+ JsString.quote
         +:+ " not in feed").

Definition not_in_subArray (subArr : list (option FeedItem.t)) : Exn :=
  Error ("item not in subArray: " +:+ JsArray.toString subArr).

(** [removeChild(itemId)] *)
Definition removeChild (itemId : string) : Eff t unit :=
  let* this := get_state in
  if negb (JsMap.has (itemsById this) itemId)
  then throw (not_in_feed itemId)
  else
    match JsMap.get (itemsById this) itemId with
    | None => throw TypeError             (* [startTime] of [undefined] *)
    | Some item =>
        match JsMap.get (itemsByStartTime this) (FeedItem.startTime item) with
        | None => throw TypeError         (* [indexOf] of [undefined] *)
        | Some subArr =>
            match JsArray.indexOf subArr item with
            | None => throw (not_in_subArray subArr)
            | Some subIndex =>
                let subArr' := JsArray.delete_at subArr subIndex in
                let* _ := modify (fun this =>
                  set_itemsByStartTime
                    (JsMap.set (itemsByStartTime this)
                       (FeedItem.startTime item) subArr') this) in
                let* _ :=
                  if (length subArr' =? 0)%nat
                  then modify (fun this =>
                         set_itemsByStartTime
                           (JsMap.delete (itemsByStartTime this)
                              (FeedItem.startTime item)) this)
                  else ret tt in
                modify (fun this =>
                  set_itemsById (JsMap.delete (itemsById this) itemId) this)
            end
        end
    end.

(** The comparator of [sortedStartTimes]: [a.getTime() - b.getTime()]. *)
Definition by_getTime (a b : Date) : option Z :=
  match getTime a, getTime b with
  | Some x, Some y => Some (x - y)
  | _, _ => None
  end.

(** The array [dts] that [sortedStartTimes] computes when its body starts. *)
Definition sorted_keys (this : t) : list Date :=
  JsArray.sort by_getTime (JsMap.keys (itemsByStartTime this)).

(** [* sortedStartTimes()]: the generator object. Its body has not run
    before the first [next()]; then [dts] is computed from the feed as it is
    at that moment, and [yield* dts] hands out that private array. *)
Inductive StartTimesGen : Type :=
| StartTimes_new
| StartTimes_yielding (dts : list Date)
| StartTimes_done.

Definition sortedStartTimes : StartTimesGen := StartTimes_new.

Definition sortedStartTimes_next (this : t) (g : StartTimesGen)
  : GenStep Date * StartTimesGen :=
  let yield_from dts :=
    match dts with
    | [] => (Done, StartTimes_done)
    | dt :: rest => (Yield dt, StartTimes_yielding rest)
    end in
  match g with
  | StartTimes_new => yield_from (sorted_keys this)
  | StartTimes_yielding dts => yield_from dts
  | StartTimes_done => (Done, StartTimes_done)
  end.

(** [* sortedItems()]: the generator object. [outer] is the generator of
    the [for ... of] loop; [inner] is the position of [yield* items] in the
    bucket array being handed out, named by its key: the array is read from
    the feed as it is at each [next()]. *)
Inductive ItemsGen : Type :=
| Items_new
| Items_running (outer : StartTimesGen) (inner : option (Date * nat))
| Items_done.

Definition sortedItems : ItemsGen := Items_new.

(** The loop from the point where it asks [sortedStartTimes] for the next
    start time; [dts] is what that generator still has to yield. A bucket
    without a first element is passed over. *)
Fixpoint sortedItems_loop (this : t) (dts : list Date)
  : GenStep (option FeedItem.t) * ItemsGen :=
  match dts with
  | [] => (Done, Items_done)
  | dt :: rest =>
      match JsMap.get (itemsByStartTime this) dt with
      | None => (Throws TypeError, Items_done)   (* [yield* undefined] *)
      | Some items =>
          match items !! 0%nat with
          | Some v =>
              (Yield v, Items_running (StartTimes_yielding rest) (Some (dt, 1%nat)))
          | None => sortedItems_loop this rest
          end
      end
  end.

Definition pending (this : t) (outer : StartTimesGen) : list Date :=
  match outer with
  | StartTimes_new => sorted_keys this
  | StartTimes_yielding dts => dts
  | StartTimes_done => []
  end.

Definition sortedItems_next (this : t) (g : ItemsGen)
  : GenStep (option FeedItem.t) * ItemsGen :=
  match g with
  | Items_new => sortedItems_loop this (pending this StartTimes_new)
  | Items_running outer None => sortedItems_loop this (pending this outer)
  | Items_running outer (Some (dt, i)) =>
      match default [] (JsMap.get (itemsByStartTime this) dt) !! i with
      | Some v => (Yield v, Items_running outer (Some (dt, S i)))
      | None => sortedItems_loop this (pending this outer)
      end
  | Items_done => (Done, Items_done)
  end.

(** [nextItem()]: the first value of a new [sortedItems()], or [undefined]
    when there is none. The outer [None] is [undefined] by exhaustion, the
    inner one an element read from a hole. *)
Definition nextItem (this : t) : Outcome (option (option FeedItem.t)) :=
  match sortedItems_next this sortedItems with
  | (Yield v, _) => Return (Some v)
  | (Done, _) => Return None
  | (Throws e, _) => Throw e
  end.

(** The state of the methods that parse: the feed [this] and the number of
    the next allocation. *)
Record World : Type := mkWorld {
  next_ref : nat;
  this_feed : t;
}.

Definition on_feed {A} (c : Eff t A) : Eff World A :=
  fun w => let (o, f) := c (this_feed w) in (o, mkWorld (next_ref w) f).

Definition on_heap {A} (c : Eff nat A) : Eff World A :=
  fun w => let (o, n) := c (next_ref w) in (o, mkWorld n (this_feed w)).

Section Parse.

Variable Date_parse : string -> option Z.

(** [parseChild(itemEl)]; [itemClass] inherits [FeedItem.parse]. The second
    component is what [itemsById.get] returns. *)
Definition parseChild (itemEl : Dom.Node)
  : Eff World (bool * option FeedItem.t) :=
  let* child := on_heap (FeedItem.parse Date_parse itemEl) in
  let* w := get_state in
  if JsMap.has (itemsById (this_feed w)) (FeedItem.id child)
  then ret (false, JsMap.get (itemsById (this_feed w)) (FeedItem.id child))
  else
    let* _ := on_feed (addChild child) in
    ret (true, Some child).

(** [static parse(doc)] *)
Definition parse (doc : Dom.Node) : Eff nat t :=
  let elem := Dom.querySelector doc "channel" in
  let* title := liftO (getElemText elem (Some "title")) in
  let* link := liftO (getElemText elem (Some "link")) in
  let* buildText := liftO (getElemText elem (Some "lastBuildDate")) in
  let* buildDate := parsePubDate Date_parse buildText in
  let* desc := liftO (getElemText elem (Some "description")) in
  let feed := new title link buildDate desc in
  match elem with
  | None => throw TypeError
  | Some channel =>
      fun n =>
        let (o, w) :=
          forEach (fun item => let* _ := parseChild item in ret tt)
            (Dom.querySelectorAll channel "item") (mkWorld n feed) in
        (match o with
         | Return _ => Return (this_feed w)
         | Throw e => Throw e
         end, next_ref w)
  end.

(** The [for ... of] loop of [update] over the item elements. *)
Fixpoint update_loop (childElems : list Dom.Node) (changed : bool)
  : Eff World bool :=
  match childElems with
  | [] => ret changed
  | childElem :: rest =>
      let* (created, child) := parseChild childElem in
      update_loop rest (if created then true else changed)
  end.

(** [update(doc)]. The returned [Set] is the list of its elements in
    insertion order. *)
Definition update (doc : Dom.Node) : Eff World (bool * list string) :=
  let elem := Dom.querySelector doc "channel" in
  let* buildText := liftO (getElemText elem (Some "lastBuildDate")) in
  let* buildDate := on_heap (parsePubDate Date_parse buildText) in
  let changed := false in
  let* w := get_state in
  if date_gt buildDate (Feed.buildDate (this_feed w))
  then ret (changed, [])
  else
    let itemsToRemove := JsMap.keys (itemsById (this_feed w)) in
    match elem with
    | None => throw TypeError
    | Some channel =>
        let* changed :=
          update_loop (Dom.querySelectorAll channel "item") changed in
        let changed :=
          if (0 <? length itemsToRemove)%nat then true else changed in
        let* _ :=
          forEach (fun itemId => on_feed (removeChild itemId)) itemsToRemove in
        ret (changed, itemsToRemove)
    end.

End Parse.

End Feed.

(** ** Sample inputs *)

Module Sample.

(** What [Date.parse] returns, in an engine whose time zone is UTC, for the
    date strings of the sample feeds; every other string of the samples is
    one no engine can read as a date. *)
Definition Date_parse (s : string) : option Z :=
  if decide (s = "Fri, 05 Jan 2024 08:00:00 GMT") then Some 1704441600000
  else if decide (s = "Fri, 05 Jan 2024 08:30:00 GMT") then Some 1704443400000
  else if decide (s = "Jan 5 2024 09:00 AM") then Some 1704445200000
  else if decide (s = "Jan 5 2024 10:00 AM") then Some 1704448800000
  else if decide (s = "Jan 5 2024 11:00 AM") then Some 1704452400000
  else if decide (s = "Jan 5 2024 12:00 PM") then Some 1704456000000
  else None.

Definition field (tag text : string) : Dom.Node :=
  Dom.Element tag [Dom.Text text].

(** An [<item>] of the calendar feed. *)
Definition entry (title dates times : string) : Dom.Node :=
  Dom.Element "item"
    [ field "title" title;
      field "pubDate" "Fri, 05 Jan 2024 08:00:00 GMT";
      field "description" "Agenda";
      field "calendarEvent:EventDates" dates;
      field "calendarEvent:EventTimes" times ].

Definition rss (lastBuildDate : string) (entries : list Dom.Node) : Dom.Node :=
  Dom.document
    (Dom.Element "rss"
       [ Dom.Element "channel"
           ([ field "title" "Meetings";
              field "link" "https://example.org/calendar";
              field "lastBuildDate" lastBuildDate;
              field "description" "Public meetings" ] ++ entries) ]).

Definition entry_A := entry "A" "Jan 5 2024" "09:00 AM - 10:00 AM".
Definition entry_B := entry "B" "Jan 5 2024" "10:00 AM - 11:00 AM".
Definition entry_C := entry "C" "Jan 5 2024" "11:00 AM - 12:00 PM".

(** A second meeting at the time of [entry_B]. *)
Definition entry_B2 := entry "B2" "Jan 5 2024" "10:00 AM - 11:00 AM".

(** An entry whose end is not a time, one whose date is not a date, and one
    without an [EventDates] element. *)
Definition entry_open_end := entry "D" "Jan 5 2024" "11:00 AM - TBD".
Definition entry_no_date := entry "E" "TBD" "TBD".
Definition entry_no_dates_field : Dom.Node :=
  Dom.Element "item"
    [ field "title" "F";
      field "pubDate" "Fri, 05 Jan 2024 08:00:00 GMT";
      field "description" "Agenda";
      field "calendarEvent:EventTimes" "11:00 AM - 12:00 PM" ].

Definition build_0800 := "Fri, 05 Jan 2024 08:00:00 GMT".
Definition build_0830 := "Fri, 05 Jan 2024 08:30:00 GMT".

(** An empty feed built at 08:00, and the world in which it is the feed. *)
Definition empty_feed : Feed.t :=
  Feed.new "Meetings" "https://example.org/calendar"
    (mkDate 0 (Date_parse build_0800)) "Public meetings".
Definition empty_world : Feed.World := Feed.mkWorld 1 empty_feed.

(** Items as [parse] makes them when [ref] is the next allocation: the
    dates take [ref], [ref + 1] and [ref + 2], the item [ref + 3]. *)
Definition item (ref : nat) (title : string) (start : Z) (stop : option Z)
  : FeedItem.t :=
  FeedItem.mk (ref + 3) title (mkDate ref (Date_parse build_0800)) "Agenda"
    (mkDate (ref + 1) (Some start)) (mkDate (ref + 2) stop).

Definition item_A := item 1 "A" 1704445200000 (Some 1704448800000).
Definition item_B := item 5 "B" 1704448800000 (Some 1704452400000).
(** [entry_C] parsed by the [update] that follows the parse of A and B. *)
Definition item_C := item 14 "C" 1704452400000 (Some 1704456000000).
(** [entry_B] and [entry_B2] parsed into a new feed. *)
Definition item_B_first := item 1 "B" 1704448800000 (Some 1704452400000).
Definition item_B2 := item 5 "B2" 1704448800000 (Some 1704452400000).
(** Entries parsed first into [empty_world]. *)
Definition item_C_first := item 2 "C" 1704452400000 (Some 1704456000000).
Definition item_D := item 0 "D" 1704452400000 None.

(** The feed that holds A and B. *)
Definition feed_AB : Feed.t :=
  Feed.mk "Meetings" "https://example.org/calendar"
    (mkDate 0 (Date_parse build_0800)) "Public meetings"
    [ (FeedItem.startTime item_A, [Some item_A]);
      (FeedItem.startTime item_B, [Some item_B]) ]
    [ (FeedItem.id item_A, item_A); (FeedItem.id item_B, item_B) ].

End Sample.

(** ** The fields of a raw entry *)

(** One of the five elements [FeedItem.parse] reads is not there. *)
Definition missing_field (elem : Dom.Node) : Prop :=
  Dom.querySelector elem "title" = None ∨
  Dom.querySelector elem "pubDate" = None ∨
  Dom.querySelector elem "description" = None ∨
  getCalendarEventTag elem "calendarEvent:EventTimes" = None ∨
  getCalendarEventTag elem "calendarEvent:EventDates" = None.

(** The text [parse] hands to [new Date] for the start and for the end, from
    the text of the [EventDates] and of the [EventTimes] element. *)
Definition start_text (datesText timesText : string) : option string :=
  calendarEventDate_text
    (FeedItem.eventDates_of (JsString.trim datesText) !! 0%nat)
    (JsString.split timesText " - " !! 0%nat).

Definition end_text (datesText timesText : string) : option string :=
  calendarEventDate_text
    (FeedItem.eventDates_of (JsString.trim datesText) !! 1%nat)
    (JsString.split timesText " - " !! 1%nat).

(** The text of the [EventDates] and of the [EventTimes] element. *)
Definition event_texts (elem : Dom.Node) : option (string * string) :=
  match getCalendarEventTag elem "calendarEvent:EventDates",
        getCalendarEventTag elem "calendarEvent:EventTimes" with
  | Some datesEl, Some timesEl =>
      Some (Dom.textContent datesEl, Dom.textContent timesEl)
  | _, _ => None
  end.

(** The time values the entry's start and end text resolve to; [None] when
    they resolve to no point in time. *)
Definition computed_start (Date_parse : string → option Z) (elem : Dom.Node)
  : option Z :=
  match event_texts elem with
  | Some (datesText, timesText) =>
      time_value_of Date_parse (start_text datesText timesText)
  | None => None
  end.

Definition computed_end (Date_parse : string → option Z) (elem : Dom.Node)
  : option Z :=
  match event_texts elem with
  | Some (datesText, timesText) =>
      time_value_of Date_parse (end_text datesText timesText)
  | None => None
  end.

(** [parse] throws on the entry, whatever has been allocated before. *)
Definition parse_fails (Date_parse : string → option Z) (elem : Dom.Node)
  : Prop :=
  ∀ n, ∃ e, fst (FeedItem.parse Date_parse elem n) = Throw e.

(** ** Sequences of operations on a feed *)

Inductive Op : Type :=
| Insert (item : FeedItem.t)
| Remove (itemId : string).

Definition step (op : Op) : Eff Feed.t unit :=
  match op with
  | Insert item => Feed.addChild item
  | Remove itemId => Feed.removeChild itemId
  end.

(** The feed after the operations, performed from left to right; an
    operation that throws leaves the feed as it was when it threw, and the
    next operation goes on from there. *)
Fixpoint run (ops : list Op) (this : Feed.t) : Feed.t :=
  match ops with
  | [] => this
  | op :: rest => run rest (snd (step op this))
  end.

(** The caller's part of [addChild]: no item is inserted while its id is a
    key of [itemsById]. *)
Fixpoint dedup_respected (ops : list Op) (this : Feed.t) : bool :=
  match ops with
  | [] => true
  | op :: rest =>
      match op with
      | Insert item => negb (JsMap.has (Feed.itemsById this) (FeedItem.id item))
      | Remove _ => true
      end && dedup_respected rest (snd (step op this))
  end.

(** Every inserted item has a start time that is a point in time. *)
Definition valid_starts (ops : list Op) : bool :=
  forallb (fun op => match op with
                     | Insert item =>
                         negb (is_invalid_date (FeedItem.startTime item))
                     | Remove _ => true
                     end) ops.

(** How often an item occurs in a bucket array. *)
Definition occurrences (item : FeedItem.t) (bucket : list (option FeedItem.t))
  : nat :=
  length (filter (fun o => o = Some item) bucket).

Definition addChild_result (item : FeedItem.t) (this : Feed.t) : Feed.t :=
  let itemDt := FeedItem.startTime item in
  Feed.mk (Feed.title this) (Feed.link this) (Feed.buildDate this)
    (Feed.description this)
    (JsMap.set (Feed.itemsByStartTime this) itemDt
       (JsArray.push
          (default [] (JsMap.get (Feed.itemsByStartTime this) itemDt)) item))
    (JsMap.set (Feed.itemsById this) (FeedItem.id item) item).

Definition removeChild_result (itemId : string) (item : FeedItem.t)
    (subArr : list (option FeedItem.t)) (subIndex : nat) (this : Feed.t)
  : Feed.t :=
  Feed.mk (Feed.title this) (Feed.link this) (Feed.buildDate this)
    (Feed.description this)
    (JsMap.set (Feed.itemsByStartTime this) (FeedItem.startTime item)
       (JsArray.delete_at subArr subIndex))
    (JsMap.delete (Feed.itemsById this) itemId).

(** The two indices agree: an item filed under an id sits exactly once in
    the bucket of its start time, and an item in a bucket is filed under its
    id. *)
Definition index_agree (this : Feed.t) : Prop :=
  (∀ itemId item,
     JsMap.get (Feed.itemsById this) itemId = Some item →
     ∃ bucket,
       JsMap.get (Feed.itemsByStartTime this) (FeedItem.startTime item)
         = Some bucket ∧
       occurrences item bucket = 1%nat) ∧
  (∀ dt bucket item,
     JsMap.get (Feed.itemsByStartTime this) dt = Some bucket →
     Some item ∈ bucket →
     JsMap.get (Feed.itemsById this) (FeedItem.id item) = Some item).

(** What the operations keep, beyond [index_agree]: keys are not repeated,
    an item is filed under its own id, and a bucket holds items of its own
    key only. *)
Definition well_keyed (this : Feed.t) : Prop :=
  NoDup (JsMap.keys (Feed.itemsById this)) ∧
  NoDup (JsMap.keys (Feed.itemsByStartTime this)) ∧
  (∀ itemId item,
     JsMap.get (Feed.itemsById this) itemId = Some item →
     itemId = FeedItem.id item) ∧
  (∀ dt bucket item,
     JsMap.get (Feed.itemsByStartTime this) dt = Some bucket →
     Some item ∈ bucket → dt = FeedItem.startTime item).

(** ** Traversals in start-time order *)

(** The bucket array held for a key; no array for a key that is absent. *)
Definition bucket_of (this : Feed.t) (dt : Date) : list (option FeedItem.t) :=
  default [] (JsMap.get (Feed.itemsByStartTime this) dt).

(** The buckets of the sorted keys, one after the other. *)
Definition items_in_order (this : Feed.t) : list (option FeedItem.t) :=
  flat_map (bucket_of this) (Feed.sorted_keys this).

(** What a [sortedItems] generator still has to yield while the feed stays
    as it is. *)
Definition rest_of (this : Feed.t) (g : Feed.ItemsGen)
  : list (option FeedItem.t) :=
  match g with
  | Feed.Items_new => items_in_order this
  | Feed.Items_running outer None =>
      flat_map (bucket_of this) (Feed.pending this outer)
  | Feed.Items_running outer (Some (dt, i)) =>
      (drop i (bucket_of this dt)
       ++ flat_map (bucket_of this) (Feed.pending this outer))%list
  | Feed.Items_done => []
  end.

(** The start times a generator still holds are keys of the feed. *)
Definition holds_keys (this : Feed.t) (g : Feed.ItemsGen) : Prop :=
  match g with
  | Feed.Items_running (Feed.StartTimes_yielding dts) _ =>
      ∀ dt, dt ∈ dts → dt ∈ JsMap.keys (Feed.itemsByStartTime this)
  | _ => True
  end.

(** Both dates are points in time, and the first is not after the second. *)
Definition le_time (a b : Date) : Prop :=
  ∃ x y, getTime a = Some x ∧ getTime b = Some y ∧ x ≤ y.

(** Of two values a traversal yields, the earlier one does not start later;
    a value read from a hole is [undefined] and has no start time. *)
Definition starts_in_order (o1 o2 : option FeedItem.t) : Prop :=
  ∀ a b, o1 = Some a → o2 = Some b →
         le_time (FeedItem.startTime a) (FeedItem.startTime b).

Definition nondecreasing_starts (l : list (option FeedItem.t)) : Prop :=
  ∀ i j o1 o2, (i < j)%nat → l !! i = Some o1 → l !! j = Some o2 →
               starts_in_order o1 o2.

(** The specification's words for a traversal: the sequence is
    non-decreasing in [startTime]. Every value of the sequence has to be an
    item for that: [undefined] has no [startTime] to compare. *)
Definition nondecreasing_in_startTime (l : list (option FeedItem.t)) : Prop :=
  ∀ i j o1 o2, (i ≤ j)%nat → l !! i = Some o1 → l !! j = Some o2 →
    ∃ a b, o1 = Some a ∧ o2 = Some b ∧
           le_time (FeedItem.startTime a) (FeedItem.startTime b).

(** Every key of [itemsByStartTime] is a point in time. *)
Definition keys_valid (this : Feed.t) : Prop :=
  ∀ dt, dt ∈ JsMap.keys (Feed.itemsByStartTime this) →
        is_invalid_date dt = false.

(** ** Feeds that have only grown *)

(** Between two states of a feed nothing was taken out: the attributes are
    the same, every id is still filed with its item, and every bucket array
    begins with what it held. *)
Definition only_grown (before after : Feed.t) : Prop :=
  Feed.title after = Feed.title before ∧
  Feed.link after = Feed.link before ∧
  Feed.buildDate after = Feed.buildDate before ∧
  Feed.description after = Feed.description before ∧
  (∀ itemId item,
     JsMap.get (Feed.itemsById before) itemId = Some item →
     JsMap.get (Feed.itemsById after) itemId = Some item) ∧
  (∀ dt, bucket_of before dt `prefix_of` bucket_of after dt).

(** ** [fetchAndUpdate] and the page of main.js *)

Module MeetingFeed.

(** The value [fetchAndUpdate] resolves to: [false] when the response had
    no content, else the pair that [update] returns. *)
Inductive UpdateResult : Type :=
| NoContent
| Updated (changed : bool) (itemsToRemove : list string).

Section Poll.

Variable Date_parse : string -> option Z.

(** [fetchAndUpdate(feedUrl)] from the point where [fetchFeed] has resolved
    to [xmlDoc]; [None] is [null]. *)
Definition fetchAndUpdate (xmlDoc : option Dom.Node)
  : Eff Feed.World UpdateResult :=
  match xmlDoc with
  | None => ret NoContent
  | Some doc =>
      let* (changed, itemsToRemove) := Feed.update Date_parse doc in
      ret (Updated changed itemsToRemove)
  end.

(** What [item.buildHtml()] returns for an item, or what it throws: the
    element is made from the fields of the item and kept in the item, so it
    is the same at every call. *)
Variable Html : Type.
Variable buildHtml : FeedItem.t -> Outcome Html.

(** [maxItems]: [null] without the parameter, else what [parseInt] made of
    it, a number or NaN. *)
Variable maxItems : option (option Z).

(** [maxItems !== null && i >= maxItems] *)
Definition limit_reached (i : nat) : bool :=
  match maxItems with
  | Some (Some m) => bool_decide (m <= Z.of_nat i)
  | Some None => false
  | None => false
  end.

(** [* sortedHtmlElems()]: the generator object, with the generator of its
    [for ... of] loop and the counter [i]. *)
Inductive HtmlGen : Type :=
| Html_running (items : Feed.ItemsGen) (i : nat)
| Html_done.

Definition sortedHtmlElems : HtmlGen := Html_running Feed.sortedItems 0.

Definition sortedHtmlElems_next (this : Feed.t) (g : HtmlGen)
  : GenStep Html * HtmlGen :=
  match g with
  | Html_done => (Done, Html_done)
  | Html_running items i =>
      match Feed.sortedItems_next this items with
      | (Done, _) => (Done, Html_done)
      | (Throws e, _) => (Throws e, Html_done)
      | (Yield item, items') =>
          if limit_reached i then (Done, Html_done)
          else
            match item with
            | None => (Throws TypeError, Html_done) (* [buildHtml] of [undefined] *)
            | Some it =>
                match buildHtml it with
                | Return html => (Yield html, Html_running items' (S i))
                | Throw e => (Throws e, Html_done)
                end
            end
      end
  end.

(** The page: the feed object with the allocator, and the children of the
    list element. *)
Record Page : Type := mkPage {
  world : Feed.World;
  listEl : list Html;
}.

(** [updateFeed(feedObj)] from the point where the fetch has resolved.
    [fuel] bounds the calls of [next()] that the spread makes. *)
Definition updateFeed (fuel : nat) (xmlDoc : option Dom.Node) (page : Page)
  : option (Outcome unit * Page) :=
  match fetchAndUpdate xmlDoc (world page) with
  | (Throw e, w) => Some (Throw e, mkPage w (listEl page))
  | (Return NoContent, w) =>
      (* [[changed, itemsToRemove] = false]: [false] is not iterable *)
      Some (Throw TypeError, mkPage w (listEl page))
  | (Return (Updated changed _), w) =>
      if negb changed then Some (Return tt, mkPage w (listEl page))
      else
        match spread (sortedHtmlElems_next (Feed.this_feed w)) fuel
                sortedHtmlElems with
        | None => None
        | Some (Throw e) => Some (Throw e, mkPage w [])
        | Some (Return elems) => Some (Return tt, mkPage w elems)
        end
  end.

(** The elements for a list of slots, built from left to right; building
    stops at the first [undefined] slot or the first item whose
    [buildHtml] throws. *)
Fixpoint build_all (slots : list (option FeedItem.t)) : Outcome (list Html) :=
  match slots with
  | [] => Return []
  | None :: _ => Throw TypeError
  | Some it :: rest =>
      match buildHtml it with
      | Throw e => Throw e
      | Return html =>
          match build_all rest with
          | Return htmls => Return (html :: htmls)
          | Throw e => Throw e
          end
      end
  end.

(** The slots that [i] elements after the start are still within the
    limit. *)
Definition within_limit (i : nat) (slots : list (option FeedItem.t))
  : list (option FeedItem.t) :=
  match maxItems with
  | Some (Some m) => take (Z.to_nat m - i) slots
  | Some None => slots
  | None => slots
  end.

End Poll.

Arguments sortedHtmlElems_next {Html} buildHtml maxItems this g.
Arguments build_all {Html} buildHtml slots.
Arguments mkPage {Html} world listEl.
Arguments world {Html} p.
Arguments listEl {Html} p.
Arguments updateFeed Date_parse {Html} buildHtml maxItems fuel xmlDoc page.

End MeetingFeed.

(** ** More vocabulary *)

(** The entry has its five fields and a start text that resolves to a point
    in time. *)
Definition parses (Date_parse : string → option Z) (elem : Dom.Node) : Prop :=
  ¬ missing_field elem ∧ computed_start Date_parse elem ≠ None.

(** No bucket has a hole. *)
Definition no_holes (this : Feed.t) : Prop :=
  ∀ dt bucket,
    JsMap.get (Feed.itemsByStartTime this) dt = Some bucket → None ∉ bucket.

(** Every bucket is an array of one item. *)
Definition single_buckets (this : Feed.t) : Prop :=
  ∀ dt bucket,
    JsMap.get (Feed.itemsByStartTime this) dt = Some bucket →
    ∃ item, bucket = [Some item].

(** The [Date] keys of the feed were allocated before allocation [n]. *)
Definition keys_below (n : nat) (this : Feed.t) : Prop :=
  ∀ dt, dt ∈ JsMap.keys (Feed.itemsByStartTime this) → (date_ref dt < n)%nat.

Definition same_attributes (before after : Feed.t) : Prop :=
  Feed.title after = Feed.title before ∧
  Feed.link after = Feed.link before ∧
  Feed.buildDate after = Feed.buildDate before ∧
  Feed.description after = Feed.description before.

(** A world as the parsing of entries into a new feed makes it: the
    indices agree, every key is a point in time and was allocated before
    the next allocation, and every bucket holds one item. *)
Definition fresh_world (w : Feed.World) : Prop :=
  well_keyed (Feed.this_feed w) ∧
  index_agree (Feed.this_feed w) ∧
  keys_valid (Feed.this_feed w) ∧
  single_buckets (Feed.this_feed w) ∧
  keys_below (Feed.next_ref w) (Feed.this_feed w).

(** More samples: the channel element of [Sample.rss], and a page in which
    the element of an item stands for its id. *)
Module SamplePage.

Definition channel (lastBuildDate : string) (entries : list Dom.Node)
  : Dom.Node :=
  Dom.Element "channel"
    ([ Sample.field "title" "Meetings";
       Sample.field "link" "https://example.org/calendar";
       Sample.field "lastBuildDate" lastBuildDate;
       Sample.field "description" "Public meetings" ] ++ entries).

(** A document whose channel has no build date. *)
Definition rss_without_build_date : Dom.Node :=
  Dom.document
    (Dom.Element "rss"
       [Dom.Element "channel" [Sample.field "title" "Meetings"]]).

(** The world of the feed of A and B after its parse, and the document
    of the next poll: B again and a new C, with the same build date. *)
Definition world_AB : Feed.World := Feed.mkWorld 9 Sample.feed_AB.
Definition doc_BC : Dom.Node :=
  Sample.rss Sample.build_0800 [Sample.entry_B; Sample.entry_C].

(** [Sample.entry_C] as [parseChild] parses it into the feed of A and B. *)
Definition item_C_next : FeedItem.t :=
  Sample.item 9 "C" 1704452400000 (Some 1704456000000).

Definition Html : Type := string.

Definition buildHtml (item : FeedItem.t) : Outcome Html :=
  Return (FeedItem.id item).

Definition page_AB : MeetingFeed.Page Html :=
  MeetingFeed.mkPage world_AB
    [FeedItem.id Sample.item_A; FeedItem.id Sample.item_B].

End SamplePage.

(** The character occurs in the string. *)
Fixpoint contains_char (x : ascii) (s : string) : bool :=
  match s with
  | EmptyString => false
  | String c s' => if Ascii.eqb c x then true else contains_char x s'
  end.

(** What follows the last space of a string; the string itself when it has
    no space. *)
Fixpoint after_last_space (s : string) : string :=
  match s with
  | EmptyString => EmptyString
  | String c s' =>
      if contains_char " " s' then after_last_space s'
      else if Ascii.eqb c " " then s' else s
  end.

(** * Properties *)

(** ** Maps as association lists *)

Section JsMapFacts.

Context {K V : Type} `{EqDecision K}.
Implicit Types (m : JsMap.t K V) (k : K) (v : V).

Lemma JsMap_get_set_eq m k v : JsMap.get (JsMap.set m k v) k = Some v.
Proof.
  induction m as [|[k' v'] m IH]; simpl.
  - by rewrite decide_True.
  - destruct (decide (k = k')) as [->|Hne]; simpl.
    + by rewrite decide_True.
    + by rewrite decide_False.
Qed.

Lemma JsMap_get_set_ne m k k' v :
  k ≠ k' → JsMap.get (JsMap.set m k v) k' = JsMap.get m k'.
Proof.
  intros Hne. induction m as [|[k0 v0] m IH]; simpl.
  - by rewrite decide_False.
  - destruct (decide (k = k0)) as [->|Hk]; simpl.
    + by rewrite !decide_False.
    + destruct (decide (k' = k0)); auto.
Qed.

Lemma JsMap_get_None m k : JsMap.get m k = None ↔ k ∉ JsMap.keys m.
Proof.
  unfold JsMap.keys. induction m as [|[k0 v0] m IH]; simpl.
  - split; [intros _; apply not_elem_of_nil | done].
  - rewrite not_elem_of_cons. destruct (decide (k = k0)) as [->|Hne].
    + split; [done|]. by intros [? _].
    + rewrite IH. split; [by intros ?|by intros [_ ?]].
Qed.

Lemma JsMap_get_Some_key m k v : JsMap.get m k = Some v → k ∈ JsMap.keys m.
Proof.
  intros Hg. destruct (decide (k ∈ JsMap.keys m)) as [|Hn]; [done|].
  apply JsMap_get_None in Hn. congruence.
Qed.

Lemma JsMap_key_get m k : k ∈ JsMap.keys m → ∃ v, JsMap.get m k = Some v.
Proof.
  intros Hin. destruct (JsMap.get m k) as [v|] eqn:Hg; [eauto|].
  by apply JsMap_get_None in Hg.
Qed.

Lemma JsMap_has_true m k : JsMap.has m k = true ↔ ∃ v, JsMap.get m k = Some v.
Proof.
  unfold JsMap.has. destruct (JsMap.get m k) as [v|].
  - split; [eauto|done].
  - split; [done|]. by intros [v ?].
Qed.

Lemma JsMap_has_false m k : JsMap.has m k = false ↔ JsMap.get m k = None.
Proof. unfold JsMap.has. by destruct (JsMap.get m k). Qed.

Lemma JsMap_keys_set_old m k v v0 :
  JsMap.get m k = Some v0 → JsMap.keys (JsMap.set m k v) = JsMap.keys m.
Proof.
  unfold JsMap.keys. induction m as [|[k1 v1] m IH]; simpl; [done|].
  destruct (decide (k = k1)) as [->|Hne]; simpl; [done|].
  intros Hg. by rewrite IH.
Qed.

Lemma JsMap_keys_set_new m k v :
  JsMap.get m k = None →
  JsMap.keys (JsMap.set m k v) = (JsMap.keys m ++ [k])%list.
Proof.
  unfold JsMap.keys. induction m as [|[k1 v1] m IH]; simpl; [done|].
  destruct (decide (k = k1)) as [->|Hne]; simpl; [done|].
  intros Hg. by rewrite IH.
Qed.

Lemma JsMap_NoDup_set m k v :
  NoDup (JsMap.keys m) → NoDup (JsMap.keys (JsMap.set m k v)).
Proof.
  intros Hnd. destruct (JsMap.get m k) as [v0|] eqn:Hg.
  - by rewrite (JsMap_keys_set_old _ _ _ _ Hg).
  - rewrite (JsMap_keys_set_new _ _ _ Hg).
    apply NoDup_app. split_and!; [done| |apply NoDup_singleton].
    intros x Hx ->%list_elem_of_singleton. by apply JsMap_get_None in Hg.
Qed.

Lemma JsMap_get_delete_ne m k k' :
  k ≠ k' → JsMap.get (JsMap.delete m k) k' = JsMap.get m k'.
Proof.
  intros Hne. induction m as [|[k0 v0] m IH]; simpl; [done|].
  destruct (decide (k = k0)) as [->|Hk]; simpl.
  - by rewrite decide_False.
  - destruct (decide (k' = k0)); auto.
Qed.

Lemma JsMap_get_delete_eq m k :
  NoDup (JsMap.keys m) → JsMap.get (JsMap.delete m k) k = None.
Proof.
  unfold JsMap.keys. induction m as [|[k0 v0] m IH]; simpl; [done|].
  intros [Hnotin Hnd]%NoDup_cons.
  destruct (decide (k = k0)) as [->|Hk]; simpl.
  - by apply JsMap_get_None.
  - rewrite decide_False by done. auto.
Qed.

Lemma JsMap_keys_delete_subseteq m k :
  JsMap.keys (JsMap.delete m k) ⊆ JsMap.keys m.
Proof.
  unfold JsMap.keys. induction m as [|[k0 v0] m IH]; simpl; [done|].
  destruct (decide (k = k0)) as [->|Hk]; simpl.
  - intros x Hx. by right.
  - intros x [->|Hx]%elem_of_cons; [left|right; by apply IH].
Qed.

Lemma JsMap_NoDup_delete m k :
  NoDup (JsMap.keys m) → NoDup (JsMap.keys (JsMap.delete m k)).
Proof.
  unfold JsMap.keys. induction m as [|[k0 v0] m IH]; simpl; [done|].
  intros [Hnotin Hnd]%NoDup_cons.
  destruct (decide (k = k0)) as [->|Hk]; simpl; [done|].
  apply NoDup_cons. split; [|auto].
  intros Hin. apply Hnotin. by apply (JsMap_keys_delete_subseteq m k).
Qed.

End JsMapFacts.

Section JsMapSetSet.

Context {K V : Type} `{EqDecision K}.

Lemma JsMap_set_set (m : JsMap.t K V) k v v' :
  JsMap.set (JsMap.set m k v) k v' = JsMap.set m k v'.
Proof.
  induction m as [|[k0 v0] m IH]; simpl.
  - by rewrite decide_True.
  - destruct (decide (k = k0)) as [->|Hne]; simpl.
    + by rewrite decide_True.
    + rewrite decide_False by done. by rewrite IH.
Qed.

End JsMapSetSet.

Lemma JsMap_has_set {K V : Type} `{EqDecision K} (m : JsMap.t K V) k v k' :
  JsMap.has (JsMap.set m k v) k' = true ↔ k = k' ∨ JsMap.has m k' = true.
Proof.
  unfold JsMap.has. destruct (decide (k = k')) as [->|Hne].
  - rewrite JsMap_get_set_eq. split; [by left|done].
  - rewrite JsMap_get_set_ne by done. split; [by right|]. by intros [?|?].
Qed.

Lemma JsMap_has_app {K V : Type} `{EqDecision K} (m1 m2 : JsMap.t K V) k :
  JsMap.has (m1 ++ m2)%list k = true ↔
  JsMap.has m1 k = true ∨ JsMap.has m2 k = true.
Proof.
  unfold JsMap.has. induction m1 as [|[k0 v0] m1 IH]; simpl.
  - split; [by right|]. by intros [?|?].
  - destruct (decide (k = k0)); [|done]. split; [by left|done].
Qed.

(** ** Arrays with holes *)

Section JsArrayFacts.

Context {A : Type} `{EqDecision A}.
Implicit Types (arr : list (option A)) (x : A).

Lemma indexOf_Some arr x i :
  JsArray.indexOf arr x = Some i → arr !! i = Some (Some x).
Proof.
  revert i. induction arr as [|y arr IH]; intros i; simpl; [done|].
  destruct (decide (y = Some x)) as [->|Hne].
  - by intros [= <-].
  - destruct (JsArray.indexOf arr x) as [j|]; simpl; [|done].
    intros [= <-]. simpl. by apply IH.
Qed.

Lemma indexOf_None arr x : JsArray.indexOf arr x = None ↔ Some x ∉ arr.
Proof.
  induction arr as [|y arr IH]; simpl.
  - split; [intros _; apply not_elem_of_nil|done].
  - rewrite not_elem_of_cons. destruct (decide (y = Some x)) as [->|Hne].
    + split; [done|]. intros [? _]. done.
    + destruct (JsArray.indexOf arr x) as [j|]; simpl.
      * split; [done|]. intros [_ Hn]. by apply IH in Hn.
      * split; [|done]. intros _. split; [congruence|]. by apply IH.
Qed.

Lemma indexOf_first arr x i j :
  JsArray.indexOf arr x = Some i → (j < i)%nat → arr !! j ≠ Some (Some x).
Proof.
  revert i j. induction arr as [|y arr IH]; intros i j; simpl; [done|].
  destruct (decide (y = Some x)) as [->|Hne].
  - intros [= <-]. lia.
  - destruct (JsArray.indexOf arr x) as [i'|] eqn:Hi; simpl; [|done].
    intros [= <-] Hlt. destruct j as [|j]; simpl.
    + congruence.
    + apply (IH i'); [done|lia].
Qed.

Lemma delete_at_length arr i :
  length (JsArray.delete_at arr i) = length arr.
Proof. apply length_insert. Qed.

End JsArrayFacts.

(** ** What [addChild] and [removeChild] compute *)

Lemma addChild_eq item this :
  Feed.addChild item this = (Return tt, addChild_result item this).
Proof.
  unfold Feed.addChild, addChild_result, bind, modify, get_state, ret, throw.
  unfold JsMap.has. simpl.
  destruct (JsMap.get (Feed.itemsByStartTime this) (FeedItem.startTime item))
    as [subArr|] eqn:Hg; simpl.
  - rewrite Hg. done.
  - rewrite JsMap_get_set_eq. unfold Feed.set_itemsByStartTime. simpl.
    by rewrite JsMap_set_set.
Qed.

Lemma removeChild_absent itemId this :
  JsMap.has (Feed.itemsById this) itemId = false →
  Feed.removeChild itemId this = (Throw (Feed.not_in_feed itemId), this).
Proof.
  intros Hhas. unfold Feed.removeChild, bind, get_state, throw.
  by rewrite Hhas.
Qed.

Lemma removeChild_found itemId item subArr subIndex this :
  JsMap.get (Feed.itemsById this) itemId = Some item →
  JsMap.get (Feed.itemsByStartTime this) (FeedItem.startTime item)
    = Some subArr →
  JsArray.indexOf subArr item = Some subIndex →
  Feed.removeChild itemId this
    = (Return tt, removeChild_result itemId item subArr subIndex this).
Proof.
  intros Hid Hst Hidx.
  unfold Feed.removeChild, bind, get_state, throw, modify, ret.
  unfold JsMap.has. rewrite Hid. simpl. rewrite Hst, Hidx.
  rewrite delete_at_length.
  destruct subArr as [|y subArr]; [done|]. simpl. done.
Qed.

(** Either [removeChild] throws before it has changed anything, or it has
    found the item and leaves a hole in its bucket. *)
Lemma removeChild_cases itemId this :
  (∃ e, Feed.removeChild itemId this = (Throw e, this)) ∨
  (∃ item subArr subIndex,
     JsMap.get (Feed.itemsById this) itemId = Some item ∧
     JsMap.get (Feed.itemsByStartTime this) (FeedItem.startTime item)
       = Some subArr ∧
     JsArray.indexOf subArr item = Some subIndex ∧
     Feed.removeChild itemId this
       = (Return tt, removeChild_result itemId item subArr subIndex this)).
Proof.
  destruct (JsMap.get (Feed.itemsById this) itemId) as [item|] eqn:Hid.
  - destruct (JsMap.get (Feed.itemsByStartTime this) (FeedItem.startTime item))
      as [subArr|] eqn:Hst.
    + destruct (JsArray.indexOf subArr item) as [subIndex|] eqn:Hidx.
      * right. exists item, subArr, subIndex.
        split_and!; try done. by apply removeChild_found.
      * left. eexists.
        unfold Feed.removeChild, bind, get_state, throw, JsMap.has.
        rewrite Hid. simpl. by rewrite Hst, Hidx.
    + left. eexists.
      unfold Feed.removeChild, bind, get_state, throw, JsMap.has.
      rewrite Hid. simpl. by rewrite Hst.
  - left. eexists. apply removeChild_absent. by apply JsMap_has_false.
Qed.

(** ** Counting an item in a bucket *)

Lemma occurrences_push item bucket item' :
  occurrences item (JsArray.push bucket item')
  = (occurrences item bucket + (if decide (item' = item) then 1 else 0))%nat.
Proof.
  unfold occurrences, JsArray.push. rewrite filter_app, length_app.
  f_equal. rewrite filter_cons, filter_nil.
  destruct (decide (item' = item)) as [->|Hne].
  - by rewrite decide_True.
  - rewrite decide_False; [done|]. congruence.
Qed.

Lemma occurrences_zero item bucket :
  occurrences item bucket = 0%nat ↔ Some item ∉ bucket.
Proof.
  unfold occurrences. induction bucket as [|o bucket IH].
  - split; [intros _; apply not_elem_of_nil|done].
  - rewrite filter_cons, not_elem_of_cons.
    destruct (decide (o = Some item)) as [->|Hne]; simpl.
    + split; [done|]. intros [? _]. done.
    + rewrite IH. split; [|tauto]. intros Hn. split; [congruence|done].
Qed.

Lemma occurrences_delete_at item bucket i item' :
  bucket !! i = Some (Some item') →
  (occurrences item (JsArray.delete_at bucket i)
   + (if decide (item' = item) then 1 else 0))%nat
  = occurrences item bucket.
Proof.
  unfold occurrences, JsArray.delete_at.
  revert i. induction bucket as [|o bucket IH]; intros i; [done|].
  destruct i as [|i]; simpl.
  - intros [= ->]. rewrite !filter_cons.
    rewrite (decide_False (P := None = Some item)) by done.
    destruct (decide (item' = item)) as [->|Hne].
    + rewrite decide_True by done. simpl. lia.
    + rewrite decide_False by congruence. lia.
  - intros Hi. rewrite !filter_cons.
    destruct (decide (o = Some item)); simpl; rewrite <- (IH i Hi); lia.
Qed.

Lemma elem_of_delete_at (bucket : list (option FeedItem.t)) i item :
  Some item ∈ JsArray.delete_at bucket i → Some item ∈ bucket.
Proof.
  unfold JsArray.delete_at. revert i.
  induction bucket as [|o bucket IH]; intros i; [done|].
  destruct i as [|i]; simpl.
  - intros [?|?]%elem_of_cons; [done|by right].
  - intros [->|?]%elem_of_cons; [left|right; eauto].
Qed.

Lemma occurrences_indexOf item bucket :
  occurrences item bucket = 1%nat →
  ∃ subIndex, JsArray.indexOf bucket item = Some subIndex.
Proof.
  intros Hocc. destruct (JsArray.indexOf bucket item) as [i|] eqn:Hi; [eauto|].
  apply indexOf_None, occurrences_zero in Hi. lia.
Qed.

(** ** The indices under [addChild] and [removeChild] *)

Lemma well_keyed_new title link buildDate description :
  well_keyed (Feed.new title link buildDate description).
Proof.
  unfold well_keyed, Feed.new. simpl.
  split_and!; try apply NoDup_nil_2; intros; done.
Qed.

Lemma index_agree_new title link buildDate description :
  index_agree (Feed.new title link buildDate description).
Proof. split; intros; done. Qed.

Lemma well_keyed_addChild item this :
  well_keyed this → well_keyed (addChild_result item this).
Proof.
  intros (Hnd1 & Hnd2 & Hid & Hkey). unfold well_keyed, addChild_result.
  simpl. split_and!.
  - by apply JsMap_NoDup_set.
  - by apply JsMap_NoDup_set.
  - intros itemId item'.
    destruct (decide (FeedItem.id item = itemId)) as [<-|Hne].
    + rewrite JsMap_get_set_eq. by intros [= <-].
    + rewrite JsMap_get_set_ne by done. apply Hid.
  - intros dt bucket item'.
    destruct (decide (FeedItem.startTime item = dt)) as [<-|Hne].
    + rewrite JsMap_get_set_eq. intros [= <-].
      unfold JsArray.push. rewrite elem_of_app, list_elem_of_singleton.
      intros [Hin|[= ->]]; [|done].
      destruct (JsMap.get _ _) as [b|] eqn:Hb; simpl in Hin.
      * by apply (Hkey _ _ _ Hb).
      * by apply elem_of_nil in Hin.
    + rewrite JsMap_get_set_ne by done. apply Hkey.
Qed.

Lemma well_keyed_removeChild itemId item subArr subIndex this :
  JsMap.get (Feed.itemsByStartTime this) (FeedItem.startTime item)
    = Some subArr →
  well_keyed this →
  well_keyed (removeChild_result itemId item subArr subIndex this).
Proof.
  intros Hst (Hnd1 & Hnd2 & Hid & Hkey).
  unfold well_keyed, removeChild_result. simpl. split_and!.
  - by apply JsMap_NoDup_delete.
  - by apply JsMap_NoDup_set.
  - intros itemId' item'.
    destruct (decide (itemId = itemId')) as [<-|Hne].
    + by rewrite JsMap_get_delete_eq.
    + rewrite JsMap_get_delete_ne by done. apply Hid.
  - intros dt bucket item'.
    destruct (decide (FeedItem.startTime item = dt)) as [<-|Hne].
    + rewrite JsMap_get_set_eq. intros [= <-] Hin%elem_of_delete_at.
      by apply (Hkey _ _ _ Hst).
    + rewrite JsMap_get_set_ne by done. apply Hkey.
Qed.

Lemma index_agree_addChild item this :
  JsMap.has (Feed.itemsById this) (FeedItem.id item) = false →
  well_keyed this → index_agree this →
  index_agree (addChild_result item this).
Proof.
  intros Hfresh%JsMap_has_false (Hnd1 & Hnd2 & Hid & Hkey) [Hfiled Hbucket].
  assert (Hnew : ∀ bucket,
    JsMap.get (Feed.itemsByStartTime this) (FeedItem.startTime item)
      = Some bucket → Some item ∉ bucket).
  { intros bucket Hb Hin. specialize (Hbucket _ _ _ Hb Hin). congruence. }
  unfold index_agree, addChild_result. simpl. split.
  - intros itemId item'.
    destruct (decide (FeedItem.id item = itemId)) as [<-|Hne].
    + rewrite JsMap_get_set_eq. intros [= <-].
      eexists. split; [apply JsMap_get_set_eq|].
      rewrite occurrences_push, decide_True by done.
      destruct (JsMap.get (Feed.itemsByStartTime this) _) as [b|] eqn:Hb;
        simpl; [|reflexivity].
      specialize (Hnew _ eq_refl). apply occurrences_zero in Hnew. lia.
    + rewrite JsMap_get_set_ne by done. intros Hget.
      assert (item ≠ item') as Hitem.
      { intros ->. apply Hid in Hget. congruence. }
      destruct (Hfiled _ _ Hget) as (bucket & Hb & Hocc).
      destruct (decide (FeedItem.startTime item = FeedItem.startTime item'))
        as [Heq|Hdt].
      * rewrite <- Heq in *. rewrite Hb. simpl.
        eexists. split; [apply JsMap_get_set_eq|].
        rewrite occurrences_push, decide_False by done. lia.
      * exists bucket. by rewrite JsMap_get_set_ne.
  - intros dt bucket item'.
    destruct (decide (FeedItem.startTime item = dt)) as [<-|Hne].
    + rewrite JsMap_get_set_eq. intros [= <-].
      unfold JsArray.push. rewrite elem_of_app, list_elem_of_singleton.
      intros [Hin|[= ->]]; [|apply JsMap_get_set_eq].
      destruct (JsMap.get (Feed.itemsByStartTime this) _) as [b|] eqn:Hb;
        simpl in Hin; [|by apply elem_of_nil in Hin].
      pose proof (Hbucket _ _ _ Hb Hin) as Hget.
      rewrite JsMap_get_set_ne; [done|]. congruence.
    + rewrite JsMap_get_set_ne by done. intros Hb Hin.
      pose proof (Hbucket _ _ _ Hb Hin) as Hget.
      rewrite JsMap_get_set_ne; [done|]. congruence.
Qed.

Lemma index_agree_removeChild itemId item subArr subIndex this :
  JsMap.get (Feed.itemsById this) itemId = Some item →
  JsMap.get (Feed.itemsByStartTime this) (FeedItem.startTime item)
    = Some subArr →
  JsArray.indexOf subArr item = Some subIndex →
  well_keyed this → index_agree this →
  index_agree (removeChild_result itemId item subArr subIndex this).
Proof.
  intros Hitem Hst Hidx%indexOf_Some (Hnd1 & Hnd2 & Hid & Hkey)
    [Hfiled Hbucket].
  assert (Honce : occurrences item subArr = 1%nat).
  { destruct (Hfiled _ _ Hitem) as (b & Hb & Hocc). congruence. }
  unfold index_agree, removeChild_result. simpl. split.
  - intros itemId' item'.
    destruct (decide (itemId = itemId')) as [<-|Hne].
    { by rewrite JsMap_get_delete_eq. }
    rewrite JsMap_get_delete_ne by done. intros Hget.
    assert (item ≠ item') as Hdiff.
    { intros ->. apply Hid in Hget, Hitem. congruence. }
    destruct (Hfiled _ _ Hget) as (bucket & Hb & Hocc).
    destruct (decide (FeedItem.startTime item = FeedItem.startTime item'))
      as [Heq|Hdt].
    + rewrite <- Heq in *. eexists. split; [apply JsMap_get_set_eq|].
      pose proof (occurrences_delete_at item' subArr subIndex item Hidx) as Hd.
      rewrite decide_False in Hd by done. simplify_eq. lia.
    + exists bucket. by rewrite JsMap_get_set_ne.
  - intros dt bucket item'.
    destruct (decide (FeedItem.startTime item = dt)) as [<-|Hne].
    + rewrite JsMap_get_set_eq. intros [= <-] Hin.
      assert (item' ≠ item) as Hdiff.
      { intros ->.
        pose proof (occurrences_delete_at item subArr subIndex item Hidx) as Hd.
        rewrite decide_True in Hd by done.
        assert (occurrences item (JsArray.delete_at subArr subIndex) = 0%nat)
          as Hz by lia.
        by apply occurrences_zero in Hz. }
      apply elem_of_delete_at in Hin.
      pose proof (Hbucket _ _ _ Hst Hin) as Hget.
      rewrite JsMap_get_delete_ne; [done|]. intros ->. congruence.
    + rewrite JsMap_get_set_ne by done. intros Hb Hin.
      pose proof (Hbucket _ _ _ Hb Hin) as Hget.
      assert (item' ≠ item) as Hdiff.
      { intros ->. apply Hne. symmetry. by apply (Hkey _ _ _ Hb). }
      rewrite JsMap_get_delete_ne; [done|]. intros ->. congruence.
Qed.

Lemma run_keeps_well_keyed ops this :
  well_keyed this → well_keyed (run ops this).
Proof.
  revert this. induction ops as [|op ops IH]; intros this Hwk; [done|].
  simpl. apply IH. destruct op as [item|itemId]; simpl.
  - rewrite addChild_eq. by apply well_keyed_addChild.
  - destruct (removeChild_cases itemId this)
      as [[e ->]|(item & subArr & subIndex & ? & ? & ? & ->)]; simpl; [done|].
    by apply well_keyed_removeChild.
Qed.

Lemma run_keeps_index_agree ops this :
  dedup_respected ops this = true →
  well_keyed this → index_agree this →
  well_keyed (run ops this) ∧ index_agree (run ops this).
Proof.
  revert this. induction ops as [|op ops IH]; intros this Hok Hwk Hag;
    [done|].
  simpl in Hok. apply andb_true_iff in Hok as [Hop Hrest].
  simpl. destruct op as [item|itemId]; simpl in *.
  - rewrite addChild_eq in *. simpl in *.
    apply negb_true_iff in Hop.
    apply IH; [done|by apply well_keyed_addChild|
               by apply index_agree_addChild].
  - destruct (removeChild_cases itemId this)
      as [[e Heq]|(item & subArr & subIndex & ? & ? & ? & Heq)];
      rewrite Heq in *; simpl in *.
    + by apply IH.
    + apply IH; [done|by apply well_keyed_removeChild|
                 by apply index_agree_removeChild].
Qed.

(** C3. In a feed made from an empty one by any sequence of [addChild] and
    [removeChild] calls in which no item is added while its id is a key of
    [itemsById], every item filed in [itemsById] occurs exactly once in the
    bucket that [itemsByStartTime] holds for its start time, and every item
    in a bucket is filed in [itemsById] under its id. *)
Theorem indices_in_lock_step title link buildDate description ops :
  dedup_respected ops (Feed.new title link buildDate description) = true →
  index_agree (run ops (Feed.new title link buildDate description)).
Proof.
  intros Hok.
  apply (run_keeps_index_agree ops _ Hok);
    [apply well_keyed_new|apply index_agree_new].
Qed.

(** ** Generators run to the end *)

Lemma spread_S {G A} (next : G → GenStep A * G) fuel g :
  spread next (S fuel) g
  = match next g with
    | (Yield v, g') =>
        match spread next fuel g' with
        | Some (Return l) => Some (Return (v :: l))
        | r => r
        end
    | (Done, _) => Some (Return [])
    | (Throws e, _) => Some (Throw e)
    end.
Proof. reflexivity. Qed.

Lemma spread_more {G A} (next : G → GenStep A * G) fuel fuel' g r :
  spread next fuel g = Some r → (fuel ≤ fuel')%nat →
  spread next fuel' g = Some r.
Proof.
  revert fuel' g r. induction fuel as [|fuel IH]; intros fuel' g r; [done|].
  destruct fuel' as [|fuel']; [lia|]. simpl.
  destruct (next g) as [[v| |e] g']; try done.
  destruct (spread next fuel g') as [r'|] eqn:Hs; [|done].
  intros Hr Hle. rewrite (IH fuel' g' r' Hs) by lia. done.
Qed.

Lemma spread_deterministic {G A} (next : G → GenStep A * G) fuel1 fuel2 g r1 r2 :
  spread next fuel1 g = Some r1 → spread next fuel2 g = Some r2 → r1 = r2.
Proof.
  intros H1 H2.
  apply (spread_more _ _ (fuel1 `max` fuel2)) in H1; [|lia].
  apply (spread_more _ _ (fuel1 `max` fuel2)) in H2; [|lia].
  congruence.
Qed.

Lemma bucket_of_key this dt :
  dt ∈ JsMap.keys (Feed.itemsByStartTime this) →
  JsMap.get (Feed.itemsByStartTime this) dt = Some (bucket_of this dt).
Proof.
  intros [b Hb]%JsMap_key_get. unfold bucket_of. by rewrite Hb.
Qed.

Lemma sortedItems_loop_step this dts :
  (∀ dt, dt ∈ dts → dt ∈ JsMap.keys (Feed.itemsByStartTime this)) →
  match Feed.sortedItems_loop this dts with
  | (Yield v, g') =>
      flat_map (bucket_of this) dts = v :: rest_of this g' ∧ holds_keys this g'
  | (Done, g') => flat_map (bucket_of this) dts = [] ∧ g' = Feed.Items_done
  | (Throws _, _) => False
  end.
Proof.
  induction dts as [|dt dts IH]; intros Hkeys; simpl; [done|].
  rewrite (bucket_of_key this dt) by (apply Hkeys; left).
  assert (Hrest : ∀ dt', dt' ∈ dts →
            dt' ∈ JsMap.keys (Feed.itemsByStartTime this)).
  { intros dt' Hin. apply Hkeys. by right. }
  destruct (bucket_of this dt) as [|v bucket] eqn:Hb; simpl.
  - by apply IH.
  - rewrite Hb. simpl. by rewrite drop_0.
Qed.

Lemma sorted_keys_are_keys this dt :
  dt ∈ Feed.sorted_keys this → dt ∈ JsMap.keys (Feed.itemsByStartTime this).
Proof.
  unfold Feed.sorted_keys.
  generalize (JsMap.keys (Feed.itemsByStartTime this)) as l.
  induction l as [|x l IH]; simpl; [done|].
  assert (Hins : ∀ l', dt ∈ JsArray.sort_insert Feed.by_getTime x l' →
                       dt = x ∨ dt ∈ l').
  { induction l' as [|y l' IH']; simpl.
    - intros ->%list_elem_of_singleton. by left.
    - destruct (JsArray.sorts_after Feed.by_getTime x y).
      + intros [->|Hin]%elem_of_cons; [right; left|].
        destruct (IH' Hin); [by left|right; by right].
      + intros [->|Hin]%elem_of_cons; [by left|by right]. }
  intros [->|Hin]%Hins; [left|right; auto].
Qed.

Lemma pending_are_keys this outer g inner :
  g = Feed.Items_running outer inner → holds_keys this g →
  ∀ dt, dt ∈ Feed.pending this outer →
        dt ∈ JsMap.keys (Feed.itemsByStartTime this).
Proof.
  intros -> Hk dt. destruct outer as [|dts|]; simpl in *.
  - apply sorted_keys_are_keys.
  - apply Hk.
  - by intros ?%elem_of_nil.
Qed.

Lemma sortedItems_next_step this g :
  holds_keys this g →
  match Feed.sortedItems_next this g with
  | (Yield v, g') => rest_of this g = v :: rest_of this g' ∧ holds_keys this g'
  | (Done, g') => rest_of this g = [] ∧ g' = Feed.Items_done
  | (Throws _, _) => False
  end.
Proof.
  intros Hk. destruct g as [|outer [[dt i]|]|]; simpl.
  - apply sortedItems_loop_step, sorted_keys_are_keys.
  - fold (bucket_of this dt).
    destruct (bucket_of this dt !! i) as [v|] eqn:Hv.
    + split; [|by destruct outer].
      by rewrite (drop_S _ _ _ Hv).
    + rewrite drop_ge by (by apply lookup_ge_None). simpl.
      apply sortedItems_loop_step. by eapply pending_are_keys.
  - apply sortedItems_loop_step. by eapply pending_are_keys.
  - done.
Qed.

Lemma spread_sortedItems this g :
  holds_keys this g →
  spread (Feed.sortedItems_next this) (S (length (rest_of this g))) g
  = Some (Return (rest_of this g)).
Proof.
  remember (rest_of this g) as l eqn:Hl. revert g Hl.
  induction l as [|v l IH]; intros g Hl Hk.
  - simpl. pose proof (sortedItems_next_step this g Hk) as Hstep.
    destruct (Feed.sortedItems_next this g) as [[v| |e] g']; try done.
    destruct Hstep as [Hstep _]. congruence.
  - cbn [length]. rewrite spread_S.
    pose proof (sortedItems_next_step this g Hk) as Hstep.
    destruct (Feed.sortedItems_next this g) as [[v'| |e] g']; try done.
    + destruct Hstep as [Hstep Hk']. rewrite <- Hl in Hstep.
      injection Hstep as -> Hrest. by rewrite (IH g' Hrest Hk').
    + destruct Hstep as [Hstep _]. congruence.
Qed.

(** ** The keys of [itemsByStartTime] *)

Lemma removeChild_keeps_keys itemId this :
  JsMap.keys (Feed.itemsByStartTime (snd (Feed.removeChild itemId this)))
  = JsMap.keys (Feed.itemsByStartTime this).
Proof.
  destruct (removeChild_cases itemId this)
    as [[e ->]|(item & subArr & subIndex & _ & Hst & _ & ->)]; [done|].
  simpl. by rewrite (JsMap_keys_set_old _ _ _ _ Hst).
Qed.

Lemma addChild_keys item this dt :
  dt ∈ JsMap.keys (Feed.itemsByStartTime (addChild_result item this)) →
  dt = FeedItem.startTime item ∨
  dt ∈ JsMap.keys (Feed.itemsByStartTime this).
Proof.
  simpl.
  destruct (JsMap.get (Feed.itemsByStartTime this) (FeedItem.startTime item))
    as [b|] eqn:Hb.
  - rewrite (JsMap_keys_set_old _ _ _ _ Hb). by right.
  - rewrite (JsMap_keys_set_new _ _ _ Hb), elem_of_app, list_elem_of_singleton.
    tauto.
Qed.

Lemma run_keeps_keys_valid ops this :
  valid_starts ops = true → keys_valid this → keys_valid (run ops this).
Proof.
  revert this. induction ops as [|op ops IH]; intros this Hok Hv; [done|].
  simpl in Hok. apply andb_true_iff in Hok as [Hop Hrest].
  simpl. apply IH; [done|]. destruct op as [item|itemId]; simpl.
  - rewrite addChild_eq. simpl. intros dt [->|Hin]%addChild_keys.
    + by apply negb_true_iff.
    + by apply Hv.
  - intros dt. rewrite removeChild_keeps_keys. apply Hv.
Qed.

(** ** The order of the sorted keys *)

Lemma valid_date_time d : is_invalid_date d = false → ∃ z, getTime d = Some z.
Proof. unfold is_invalid_date. destruct (getTime d); [eauto|done]. Qed.

Lemma le_time_refl d : is_invalid_date d = false → le_time d d.
Proof. intros [z Hz]%valid_date_time. exists z, z. split_and!; [done..|lia]. Qed.

Lemma le_time_trans a b c : le_time a b → le_time b c → le_time a c.
Proof.
  intros (x & y & Hx & Hy & Hxy) (y' & z & Hy' & Hz & Hyz).
  exists x, z. split_and!; [done..|]. simplify_eq. lia.
Qed.

Lemma sorts_after_false a b :
  is_invalid_date a = false → is_invalid_date b = false →
  JsArray.sorts_after Feed.by_getTime a b = false → le_time a b.
Proof.
  intros [x Hx]%valid_date_time [y Hy]%valid_date_time.
  unfold JsArray.sorts_after, Feed.by_getTime. rewrite Hx, Hy.
  intros Hd%bool_decide_eq_false. exists x, y. split_and!; [done..|lia].
Qed.

Lemma sorts_after_true a b :
  is_invalid_date a = false → is_invalid_date b = false →
  JsArray.sorts_after Feed.by_getTime a b = true → le_time b a.
Proof.
  intros [x Hx]%valid_date_time [y Hy]%valid_date_time.
  unfold JsArray.sorts_after, Feed.by_getTime. rewrite Hx, Hy.
  intros Hd%bool_decide_eq_true. exists y, x. split_and!; [done..|lia].
Qed.

Lemma sort_insert_elem x l d :
  d ∈ JsArray.sort_insert Feed.by_getTime x l ↔ d = x ∨ d ∈ l.
Proof.
  induction l as [|y l IH]; simpl.
  - rewrite list_elem_of_singleton. split; [by left|].
    by intros [?|?%elem_of_nil].
  - destruct (JsArray.sorts_after Feed.by_getTime x y);
      rewrite !elem_of_cons; [rewrite IH|]; tauto.
Qed.

Lemma sort_elem l d : d ∈ JsArray.sort Feed.by_getTime l ↔ d ∈ l.
Proof.
  induction l as [|y l IH]; simpl; [done|].
  rewrite sort_insert_elem, elem_of_cons, IH. tauto.
Qed.

Lemma sort_insert_sorted x l :
  is_invalid_date x = false →
  Forall (fun d => is_invalid_date d = false) l →
  StronglySorted le_time l →
  StronglySorted le_time (JsArray.sort_insert Feed.by_getTime x l).
Proof.
  intros Hx Hl Hs. induction Hs as [|y l Hs IH Hy]; simpl.
  - apply StronglySorted_cons. split; [done|constructor].
  - apply Forall_cons in Hl as [Hyv Hl].
    destruct (JsArray.sorts_after Feed.by_getTime x y) eqn:Hc.
    + apply StronglySorted_cons. split; [|by apply IH].
      apply Forall_forall. intros d [->|Hd]%sort_insert_elem.
      * by apply sorts_after_true.
      * by apply (proj1 (Forall_forall _ _) Hy).
    + apply sorts_after_false in Hc; [|done..].
      apply StronglySorted_cons. split; [|by apply StronglySorted_cons].
      apply Forall_cons. split; [done|].
      eapply Forall_impl; [exact Hy|]. intros d Hd.
      by apply (le_time_trans _ y).
Qed.

Lemma sort_sorted l :
  Forall (fun d => is_invalid_date d = false) l →
  StronglySorted le_time (JsArray.sort Feed.by_getTime l).
Proof.
  induction l as [|x l IH]; simpl; [constructor|].
  intros [Hx Hl]%Forall_cons. apply sort_insert_sorted; [done| |by apply IH].
  rewrite Forall_forall in Hl. apply Forall_forall.
  intros d Hd. apply (proj1 (sort_elem _ _)) in Hd. by apply Hl.
Qed.

Lemma sorted_keys_sorted this :
  keys_valid this → StronglySorted le_time (Feed.sorted_keys this).
Proof.
  intros Hv. apply sort_sorted, Forall_forall. exact Hv.
Qed.

(** ** The order of the items *)

Lemma StronglySorted_all_related {A} (R : A → A → Prop) l :
  (∀ x y, x ∈ l → y ∈ l → R x y) → StronglySorted R l.
Proof.
  induction l as [|x l IH]; intros HR; [constructor|].
  apply StronglySorted_cons. split.
  - apply Forall_forall. intros y Hy. apply HR; [left|by right].
  - apply IH. intros y z Hy Hz. apply HR; by right.
Qed.

Lemma StronglySorted_lookup {A} (R : A → A → Prop) l i j x y :
  StronglySorted R l → (i < j)%nat →
  l !! i = Some x → l !! j = Some y → R x y.
Proof.
  intros Hs. revert i j. induction Hs as [|z l Hs IH Hz]; intros i j; [done|].
  destruct j as [|j]; [lia|]. destruct i as [|i]; simpl.
  - intros _ [= ->] Hy. apply (proj1 (Forall_forall _ _) Hz).
    by apply list_elem_of_lookup_2 in Hy.
  - intros Hlt. apply IH. lia.
Qed.

Lemma buckets_in_order this dts :
  (∀ dt bucket item,
     JsMap.get (Feed.itemsByStartTime this) dt = Some bucket →
     Some item ∈ bucket → dt = FeedItem.startTime item) →
  (∀ dt, dt ∈ dts → is_invalid_date dt = false) →
  StronglySorted le_time dts →
  StronglySorted starts_in_order (flat_map (bucket_of this) dts).
Proof.
  intros Hkey Hvalid Hs.
  assert (Hstart : ∀ dt item, Some item ∈ bucket_of this dt →
                              dt = FeedItem.startTime item).
  { intros dt item. unfold bucket_of.
    destruct (JsMap.get (Feed.itemsByStartTime this) dt) as [b|] eqn:Hb;
      simpl; [by apply Hkey|by intros ?%elem_of_nil]. }
  induction Hs as [|dt dts Hs IH Hdt]; simpl; [constructor|].
  apply StronglySorted_app. split_and!.
  - intros o1 o2 Ho1 Ho2 a b -> ->.
    apply list_elem_of_In, in_flat_map in Ho2 as (dt' & Hdt' & Ho2).
    apply list_elem_of_In in Hdt', Ho2.
    rewrite <- (Hstart _ _ Ho1), <- (Hstart _ _ Ho2).
    by apply (proj1 (Forall_forall _ _) Hdt).
  - apply StronglySorted_all_related. intros o1 o2 Ho1 Ho2 a b -> ->.
    rewrite <- (Hstart _ _ Ho1), <- (Hstart _ _ Ho2).
    apply le_time_refl, Hvalid. left.
  - apply IH. intros dt' Hin. apply Hvalid. by right.
Qed.

Lemma items_in_order_sorted this :
  well_keyed this → keys_valid this →
  nondecreasing_starts (items_in_order this).
Proof.
  intros (_ & _ & _ & Hkey) Hv i j o1 o2 Hlt Hi Hj.
  eapply (StronglySorted_lookup starts_in_order); [|done..].
  apply buckets_in_order; [done| |by apply sorted_keys_sorted].
  intros dt Hin. by apply Hv, sorted_keys_are_keys.
Qed.

(** ** Holes in a traversal *)

Lemma delete_at_makes_hole (bucket : list (option FeedItem.t)) i :
  (i < length bucket)%nat → None ∈ JsArray.delete_at bucket i.
Proof.
  unfold JsArray.delete_at. revert i.
  induction bucket as [|o bucket IH]; intros i; simpl; [lia|].
  destruct i as [|i]; simpl; [left|].
  intros Hlt. right. apply IH. lia.
Qed.

Lemma removeChild_makes_hole itemId item subArr subIndex this :
  JsMap.get (Feed.itemsByStartTime this) (FeedItem.startTime item)
    = Some subArr →
  JsArray.indexOf subArr item = Some subIndex →
  FeedItem.startTime item
    ∈ JsMap.keys (Feed.itemsByStartTime
                    (removeChild_result itemId item subArr subIndex this)) ∧
  None ∈ bucket_of (removeChild_result itemId item subArr subIndex this)
           (FeedItem.startTime item).
Proof.
  intros Hst Hidx. unfold bucket_of. simpl.
  rewrite (JsMap_keys_set_old _ _ _ _ Hst), JsMap_get_set_eq. simpl. split.
  - by apply JsMap_get_Some_key in Hst.
  - apply delete_at_makes_hole. apply indexOf_Some in Hidx.
    by apply lookup_lt_Some in Hidx.
Qed.

Lemma hole_in_order this dt :
  dt ∈ JsMap.keys (Feed.itemsByStartTime this) → None ∈ bucket_of this dt →
  None ∈ items_in_order this.
Proof.
  intros Hkey Hhole. unfold items_in_order.
  apply list_elem_of_In, in_flat_map. exists dt. split.
  - apply list_elem_of_In. unfold Feed.sorted_keys. by apply sort_elem.
  - by apply list_elem_of_In.
Qed.

(** A sequence with [undefined] in it is not one of items in start-time
    order. *)
Lemma undefined_not_in_startTime_order (l : list (option FeedItem.t)) :
  None ∈ l → ¬ nondecreasing_in_startTime l.
Proof.
  intros [i Hi]%list_elem_of_lookup_1 Hord.
  by destruct (Hord i i None None (le_n i) Hi Hi) as (a & _ & ? & _).
Qed.

(** ** What [FeedItem.parse] computes *)

Section ParseFacts.

Variable Date_parse : string → option Z.

Lemma getElemText_selector (elem : Dom.Node) (selector : string) :
  JsString.startsWith selector "calendarEvent:" = false →
  getElemText (Some elem) (Some selector)
  = match Dom.querySelector elem selector with
    | Some el => Return (Dom.textContent el)
    | None => Throw TypeError
    end.
Proof. intros Hs. unfold getElemText. by rewrite Hs. Qed.

Lemma getElemText_calendarEvent (elem : Dom.Node) (selector : string) :
  JsString.startsWith selector "calendarEvent:" = true →
  getElemText (Some elem) (Some selector)
  = match getCalendarEventTag elem selector with
    | Some el => Return (Dom.textContent el)
    | None => Throw TypeError
    end.
Proof. intros Hs. unfold getElemText. by rewrite Hs. Qed.

(** Closes the case of an equivalence in which a field is absent: [parse]
    has thrown a [TypeError], and the other side asks for all fields. *)
Ltac field_absent :=
  simpl; split;
  [ done
  | intros (? & ? & Hfields & _); exfalso; apply Hfields; auto 6 ].

(** The outcome of [parse], case by case in the order of its statements. *)
Lemma parse_eq elem n :
  FeedItem.parse Date_parse elem n
  = match Dom.querySelector elem "title" with
    | None => (Throw TypeError, n)
    | Some titleEl =>
    match Dom.querySelector elem "pubDate" with
    | None => (Throw TypeError, n)
    | Some pubEl =>
    match Dom.querySelector elem "description" with
    | None => (Throw TypeError, S n)
    | Some descEl =>
    match getCalendarEventTag elem "calendarEvent:EventTimes" with
    | None => (Throw TypeError, S n)
    | Some timesEl =>
    match getCalendarEventTag elem "calendarEvent:EventDates" with
    | None => (Throw TypeError, S n)
    | Some datesEl =>
        let datesText := Dom.textContent datesEl in
        let timesText := Dom.textContent timesEl in
        match time_value_of Date_parse (start_text datesText timesText) with
        | None => (Throw (Error "invalid date"), S (S n))
        | Some start =>
            (Return
               (FeedItem.mk (S (S (S n))) (Dom.textContent titleEl)
                  (mkDate n (Date_parse (Dom.textContent pubEl)))
                  (Dom.textContent descEl)
                  (mkDate (S n) (Some start))
                  (mkDate (S (S n))
                     (time_value_of Date_parse
                        (end_text datesText timesText)))),
             S (S (S (S n))))
        end
    end end end end end.
Proof.
  unfold FeedItem.parse, bind, liftO.
  rewrite !getElemText_selector, !getElemText_calendarEvent by reflexivity.
  destruct (Dom.querySelector elem "title") as [titleEl|]; [|done].
  destruct (Dom.querySelector elem "pubDate") as [pubEl|]; [|done].
  simpl.
  destruct (Dom.querySelector elem "description") as [descEl|]; [|done].
  destruct (getCalendarEventTag elem "calendarEvent:EventTimes")
    as [timesEl|]; [|done].
  destruct (getCalendarEventTag elem "calendarEvent:EventDates")
    as [datesEl|]; [|done].
  unfold parseCalendarEventDate, new_Date_of, new_Date, is_invalid_date.
  fold (start_text (Dom.textContent datesEl) (Dom.textContent timesEl)).
  fold (end_text (Dom.textContent datesEl) (Dom.textContent timesEl)).
  simpl.
  destruct (time_value_of Date_parse
              (start_text (Dom.textContent datesEl) (Dom.textContent timesEl)));
    done.
Qed.

Lemma parse_missing_field elem n :
  missing_field elem → fst (FeedItem.parse Date_parse elem n) = Throw TypeError.
Proof.
  rewrite parse_eq. unfold missing_field.
  destruct (Dom.querySelector elem "title"); [|done].
  destruct (Dom.querySelector elem "pubDate"); [|done].
  destruct (Dom.querySelector elem "description"); [|done].
  destruct (getCalendarEventTag elem "calendarEvent:EventTimes"); [|done].
  destruct (getCalendarEventTag elem "calendarEvent:EventDates"); [|done].
  by intros [?|[?|[?|[?|?]]]].
Qed.

Lemma parse_invalid_date elem n :
  fst (FeedItem.parse Date_parse elem n) = Throw (Error "invalid date") ↔
  ∃ timesEl datesEl,
    ¬ missing_field elem ∧
    getCalendarEventTag elem "calendarEvent:EventTimes" = Some timesEl ∧
    getCalendarEventTag elem "calendarEvent:EventDates" = Some datesEl ∧
    time_value_of Date_parse
      (start_text (Dom.textContent datesEl) (Dom.textContent timesEl)) = None.
Proof.
  rewrite parse_eq. unfold missing_field.
  destruct (Dom.querySelector elem "title"); [|field_absent].
  destruct (Dom.querySelector elem "pubDate"); [|field_absent].
  destruct (Dom.querySelector elem "description"); [|field_absent].
  destruct (getCalendarEventTag elem "calendarEvent:EventTimes")
    as [timesEl|]; [|field_absent].
  destruct (getCalendarEventTag elem "calendarEvent:EventDates")
    as [datesEl|]; [|field_absent].
  simpl.
  destruct (time_value_of Date_parse _) eqn:Hst; simpl.
  - split; [done|]. intros (? & ? & _ & [= <-] & [= <-] & Hn). congruence.
  - split; [|done]. intros _. exists timesEl, datesEl.
    split_and!; [|done..]. intros [?|[?|[?|[?|?]]]]; done.
Qed.

Lemma parse_start_valid elem n item n' :
  FeedItem.parse Date_parse elem n = (Return item, n') →
  is_invalid_date (FeedItem.startTime item) = false.
Proof.
  rewrite parse_eq.
  repeat (cbv zeta;
          match goal with
          | |- context [match ?x with Some _ => _ | None => _ end] =>
              destruct x; [|done]
          end).
  by intros [= <- _].
Qed.

(** Whether [parse] throws, and what, does not depend on the allocations
    made before. *)
Lemma parse_throw_any_time elem n m e :
  fst (FeedItem.parse Date_parse elem n) = Throw e →
  fst (FeedItem.parse Date_parse elem m) = Throw e.
Proof.
  rewrite !parse_eq.
  repeat (cbv zeta;
          match goal with
          | |- context [match ?x with Some _ => _ | None => _ end] =>
              destruct x; [|done]
          end).
  done.
Qed.

(** Neither does the id of the item it returns. *)
Lemma parse_same_id elem n m item n' :
  FeedItem.parse Date_parse elem n = (Return item, n') →
  ∃ item' m',
    FeedItem.parse Date_parse elem m = (Return item', m') ∧
    FeedItem.id item' = FeedItem.id item.
Proof.
  rewrite !parse_eq.
  repeat (cbv zeta;
          match goal with
          | |- context [match ?x with Some _ => _ | None => _ end] =>
              destruct x; [|done]
          end).
  intros [= <- _]. by eexists _, _.
Qed.

End ParseFacts.

(** ** [parseChild] and the loop of [update] *)

Lemma only_grown_refl this : only_grown this this.
Proof. unfold only_grown. split_and!; done. Qed.

Lemma only_grown_trans f1 f2 f3 :
  only_grown f1 f2 → only_grown f2 f3 → only_grown f1 f3.
Proof.
  intros (? & ? & ? & ? & Hid1 & Hb1) (? & ? & ? & ? & Hid2 & Hb2).
  unfold only_grown. split_and!; try congruence.
  - intros itemId item Hget. by apply Hid2, Hid1.
  - intros dt. etrans; [apply Hb1|apply Hb2].
Qed.

Lemma only_grown_addChild item this :
  JsMap.has (Feed.itemsById this) (FeedItem.id item) = false →
  only_grown this (addChild_result item this).
Proof.
  intros Hfresh%JsMap_has_false. unfold only_grown. simpl.
  split_and!; try done.
  - intros itemId item' Hget. rewrite JsMap_get_set_ne; [done|]. congruence.
  - intros dt. unfold bucket_of. simpl.
    destruct (decide (FeedItem.startTime item = dt)) as [<-|Hne].
    + rewrite JsMap_get_set_eq. simpl. by apply prefix_app_r.
    + by rewrite JsMap_get_set_ne.
Qed.

Section UpdateFacts.

Variable Date_parse : string → option Z.

Lemma parseChild_throw elem w e :
  fst (FeedItem.parse Date_parse elem (Feed.next_ref w)) = Throw e →
  fst (Feed.parseChild Date_parse elem w) = Throw e ∧
  Feed.this_feed (snd (Feed.parseChild Date_parse elem w)) = Feed.this_feed w.
Proof.
  unfold Feed.parseChild, bind, Feed.on_heap.
  destruct (FeedItem.parse Date_parse elem (Feed.next_ref w)) as [[item|e'] n'];
    simpl; [done|]. by intros [= ->].
Qed.

Lemma parseChild_return elem w item n' :
  FeedItem.parse Date_parse elem (Feed.next_ref w) = (Return item, n') →
  Feed.parseChild Date_parse elem w
  = if JsMap.has (Feed.itemsById (Feed.this_feed w)) (FeedItem.id item)
    then (Return (false, JsMap.get (Feed.itemsById (Feed.this_feed w))
                           (FeedItem.id item)),
          Feed.mkWorld n' (Feed.this_feed w))
    else (Return (true, Some item),
          Feed.mkWorld n' (addChild_result item (Feed.this_feed w))).
Proof.
  intros Hp.
  unfold Feed.parseChild, bind, Feed.on_heap, Feed.on_feed, get_state, ret.
  rewrite Hp. simpl.
  destruct (JsMap.has _ _); [done|]. by rewrite addChild_eq.
Qed.

Lemma parseChild_only_grown elem w :
  only_grown (Feed.this_feed w)
    (Feed.this_feed (snd (Feed.parseChild Date_parse elem w))).
Proof.
  destruct (FeedItem.parse Date_parse elem (Feed.next_ref w))
    as [[item|e] n'] eqn:Hp.
  - rewrite (parseChild_return _ _ _ _ Hp).
    destruct (JsMap.has _ _) eqn:Hhas; simpl.
    + apply only_grown_refl.
    + by apply only_grown_addChild.
  - destruct (parseChild_throw elem w e) as [_ ->]; [by rewrite Hp|].
    apply only_grown_refl.
Qed.

Lemma update_loop_cons childElem rest changed w :
  Feed.update_loop Date_parse (childElem :: rest) changed w
  = match Feed.parseChild Date_parse childElem w with
    | (Return (created, _), w') =>
        Feed.update_loop Date_parse rest
          (if created then true else changed) w'
    | (Throw e, w') => (Throw e, w')
    end.
Proof.
  simpl. unfold bind.
  destruct (Feed.parseChild Date_parse childElem w) as [[[created child]|e] w'];
    done.
Qed.

Lemma update_loop_only_grown childElems changed w :
  only_grown (Feed.this_feed w)
    (Feed.this_feed (snd (Feed.update_loop Date_parse childElems changed w))).
Proof.
  revert changed w.
  induction childElems as [|childElem rest IH]; intros changed w.
  - apply only_grown_refl.
  - rewrite update_loop_cons.
    pose proof (parseChild_only_grown childElem w) as Hg.
    destruct (Feed.parseChild Date_parse childElem w)
      as [[[created child]|e] w']; simpl in *; [|done].
    eapply only_grown_trans; [exact Hg|apply IH].
Qed.

(** The loop stops at the first entry that [parse] throws on; the feed is
    then what the entries before it have made of it. *)
Lemma update_loop_stops childElems changed w :
  (∃ bad, bad ∈ childElems ∧ parse_fails Date_parse bad) →
  ∃ e pre bad post changed1 w1,
    childElems = (pre ++ bad :: post)%list ∧
    Feed.update_loop Date_parse pre changed w = (Return changed1, w1) ∧
    fst (FeedItem.parse Date_parse bad (Feed.next_ref w1)) = Throw e ∧
    fst (Feed.update_loop Date_parse childElems changed w) = Throw e ∧
    Feed.this_feed (snd (Feed.update_loop Date_parse childElems changed w))
    = Feed.this_feed w1.
Proof.
  revert changed w.
  induction childElems as [|childElem rest IH]; intros changed w
    (bad & Hin & Hbad).
  { by apply elem_of_nil in Hin. }
  destruct (FeedItem.parse Date_parse childElem (Feed.next_ref w))
    as [[item|e] n'] eqn:Hp.
  - assert (Hrest : ∃ bad, bad ∈ rest ∧ parse_fails Date_parse bad).
    { apply elem_of_cons in Hin as [->|Hin]; [|eauto].
      destruct (Hbad (Feed.next_ref w)) as [e He]. rewrite Hp in He. done. }
    rewrite update_loop_cons, (parseChild_return _ _ _ _ Hp).
    destruct (JsMap.has _ _) eqn:Hhas.
    + destruct (IH changed (Feed.mkWorld n' (Feed.this_feed w)) Hrest)
        as (e & pre & bad' & post & changed1 & w1
            & -> & Hpre & He & Hthrow & Hfeed).
      exists e, (childElem :: pre), bad', post, changed1, w1.
      rewrite update_loop_cons, (parseChild_return _ _ _ _ Hp), Hhas.
      split_and!; done.
    + destruct (IH true
                  (Feed.mkWorld n' (addChild_result item (Feed.this_feed w)))
                  Hrest)
        as (e & pre & bad' & post & changed1 & w1
            & -> & Hpre & He & Hthrow & Hfeed).
      exists e, (childElem :: pre), bad', post, changed1, w1.
      rewrite update_loop_cons, (parseChild_return _ _ _ _ Hp), Hhas.
      split_and!; done.
  - destruct (parseChild_throw childElem w e) as [Ht Hf]; [by rewrite Hp|].
    exists e, [], childElem, rest, changed, w.
    rewrite update_loop_cons.
    destruct (Feed.parseChild Date_parse childElem w)
      as [[[created child]|e'] w']; simpl in *; [done|].
    injection Ht as ->. split_and!; simpl; try done. by rewrite Hp.
Qed.

(** When the loop returns, every entry has parsed and its id is filed;
    [itemsById] has the ids it had and the ids of the entries, and no
    other. *)
Lemma update_loop_filed childElems changed w changed1 w1 :
  Feed.update_loop Date_parse childElems changed w = (Return changed1, w1) →
  (∀ elem, elem ∈ childElems →
     ∃ item m,
       FeedItem.parse Date_parse elem 0%nat = (Return item, m) ∧
       JsMap.has (Feed.itemsById (Feed.this_feed w1)) (FeedItem.id item)
       = true) ∧
  (∀ itemId,
     JsMap.has (Feed.itemsById (Feed.this_feed w1)) itemId = true ↔
     JsMap.has (Feed.itemsById (Feed.this_feed w)) itemId = true ∨
     ∃ elem item m,
       elem ∈ childElems ∧
       FeedItem.parse Date_parse elem 0%nat = (Return item, m) ∧
       FeedItem.id item = itemId).
Proof.
  revert changed w.
  induction childElems as [|childElem rest IH]; intros changed w Hloop.
  { injection Hloop as _ <-. split.
    - by intros elem ?%elem_of_nil.
    - intros itemId. split; [by left|].
      by intros [?|(elem & _ & _ & ?%elem_of_nil & _)]. }
  rewrite update_loop_cons in Hloop.
  destruct (FeedItem.parse Date_parse childElem (Feed.next_ref w))
    as [[item|e] n'] eqn:Hp.
  2:{ destruct (parseChild_throw childElem w e) as [Ht _];
        [by rewrite Hp|].
      by destruct (Feed.parseChild Date_parse childElem w)
        as [[[created child]|e'] w']. }
  destruct (parse_same_id Date_parse childElem _ 0%nat _ _ Hp)
    as (item0 & m0 & Hp0 & Hid).
  rewrite (parseChild_return _ _ _ _ Hp) in Hloop.
  destruct (JsMap.has (Feed.itemsById (Feed.this_feed w)) (FeedItem.id item))
    eqn:Hhas.
  - destruct (IH _ _ Hloop) as [Hall Hiff]. simpl in Hiff. split.
    + intros elem [->|Hin]%elem_of_cons; [|by apply Hall].
      exists item0, m0. split; [done|]. apply Hiff. left. by rewrite Hid.
    + intros itemId. rewrite Hiff. split.
      * intros [?|(elem & item' & m & Hin & Hpe & Hide)]; [by left|].
        right. exists elem, item', m. split; [by right|done].
      * intros [?|(elem & item' & m & [->|Hin]%elem_of_cons & Hpe & Hide)];
          [by left| |right; by exists elem, item', m].
        left. rewrite Hp0 in Hpe. injection Hpe as <- _.
        by rewrite <- Hide, Hid.
  - destruct (IH _ _ Hloop) as [Hall Hiff]. simpl in Hiff. split.
    + intros elem [->|Hin]%elem_of_cons; [|by apply Hall].
      exists item0, m0. split; [done|]. apply Hiff. left.
      apply JsMap_has_set. left. by rewrite Hid.
    + intros itemId. rewrite Hiff, JsMap_has_set. split.
      * intros [[<-|?]|(elem & item' & m & Hin & Hpe & Hide)].
        -- right. exists childElem, item0, m0. split; [left|done].
        -- by left.
        -- right. exists elem, item', m. split; [by right|done].
      * intros [?|(elem & item' & m & [->|Hin]%elem_of_cons & Hpe & Hide)].
        -- left. by right.
        -- left. left. rewrite Hp0 in Hpe. injection Hpe as <- _.
           by rewrite <- Hide, Hid.
        -- right. by exists elem, item', m.
Qed.

(** [update] once the channel and its build date have been found. *)
Lemma update_eq doc channel buildEl w :
  Dom.querySelector doc "channel" = Some channel →
  Dom.querySelector channel "lastBuildDate" = Some buildEl →
  Feed.update Date_parse doc w
  = let buildDate :=
      mkDate (Feed.next_ref w) (Date_parse (Dom.textContent buildEl)) in
    let w0 := Feed.mkWorld (S (Feed.next_ref w)) (Feed.this_feed w) in
    let itemsToRemove := JsMap.keys (Feed.itemsById (Feed.this_feed w)) in
    if date_gt buildDate (Feed.buildDate (Feed.this_feed w))
    then (Return (false, []), w0)
    else
      match Feed.update_loop Date_parse
              (Dom.querySelectorAll channel "item") false w0 with
      | (Return changed, w1) =>
          match forEach (fun itemId => Feed.on_feed (Feed.removeChild itemId))
                  itemsToRemove w1 with
          | (Return _, w2) =>
              (Return (if (0 <? length itemsToRemove)%nat
                       then true else changed, itemsToRemove), w2)
          | (Throw e, w2) => (Throw e, w2)
          end
      | (Throw e, w1) => (Throw e, w1)
      end.
Proof.
  intros Hch Hbuild. unfold Feed.update. rewrite Hch.
  rewrite getElemText_selector by reflexivity. rewrite Hbuild.
  unfold bind at 1. unfold liftO.
  unfold bind at 1. unfold Feed.on_heap, parsePubDate, new_Date. simpl.
  unfold bind at 1. unfold get_state. simpl.
  destruct (date_gt _ _); [done|].
  unfold bind at 1.
  destruct (Feed.update_loop _ _ _ _) as [[changed|e] w1]; [|done].
  unfold bind at 1.
  destruct (forEach _ _ _) as [[[]|e] w2]; done.
Qed.

End UpdateFacts.

(** * The claims of the specification *)

(** ** Reconciliation *)

(** C1. The scenario: a feed parsed from a channel with A (09:00) and B
    (10:00) is updated from a channel of the same build date that holds B
    again and a new C (11:00). [update] returns [true] and the ids of A and
    B, and only C stays filed in [itemsById]; but [removeChild] has left a
    hole in the bucket of A and in the bucket of B, so a traversal of
    [sortedItems()] yields [undefined] twice before it yields C. *)
Theorem scenario_update_leaves_holes :
  Feed.parse Sample.Date_parse
    (Sample.rss Sample.build_0800 [Sample.entry_A; Sample.entry_B]) 0%nat
  = (Return Sample.feed_AB, 9%nat) ∧
  fst (Feed.update Sample.Date_parse
         (Sample.rss Sample.build_0800 [Sample.entry_B; Sample.entry_C])
         (Feed.mkWorld 9 Sample.feed_AB))
  = Return (true, [FeedItem.id Sample.item_A; FeedItem.id Sample.item_B]) ∧
  Feed.itemsById
    (Feed.this_feed
       (snd (Feed.update Sample.Date_parse
               (Sample.rss Sample.build_0800 [Sample.entry_B; Sample.entry_C])
               (Feed.mkWorld 9 Sample.feed_AB))))
  = [(FeedItem.id Sample.item_C, Sample.item_C)] ∧
  spread
    (Feed.sortedItems_next
       (Feed.this_feed
          (snd (Feed.update Sample.Date_parse
                  (Sample.rss Sample.build_0800
                     [Sample.entry_B; Sample.entry_C])
                  (Feed.mkWorld 9 Sample.feed_AB)))))
    4 Feed.sortedItems
  = Some (Return [None; None; Some Sample.item_C]).
Proof. vm_compute. repeat split. Qed.

(** C2. When the build date read from the channel is later than the build
    date the feed holds, [update] returns [false] and an empty set, and the
    feed is the one it was: both maps and all attributes. *)
Theorem update_skips_newer_build
    (Date_parse : string → option Z) doc channel buildEl w remote stored :
  Dom.querySelector doc "channel" = Some channel →
  Dom.querySelector channel "lastBuildDate" = Some buildEl →
  Date_parse (Dom.textContent buildEl) = Some remote →
  getTime (Feed.buildDate (Feed.this_feed w)) = Some stored →
  stored < remote →
  fst (Feed.update Date_parse doc w) = Return (false, []) ∧
  Feed.this_feed (snd (Feed.update Date_parse doc w)) = Feed.this_feed w.
Proof.
  intros Hch Hbuild Hremote Hstored Hlt.
  rewrite (update_eq Date_parse doc channel buildEl w Hch Hbuild).
  cbv zeta. unfold date_gt. simpl. rewrite Hremote, Hstored.
  by rewrite bool_decide_eq_true_2.
Qed.

Lemma update_skips_newer_build_witness :
  fst (Feed.update Sample.Date_parse
         (Sample.rss Sample.build_0830 [Sample.entry_C])
         (Feed.mkWorld 9 Sample.feed_AB)) = Return (false, []) ∧
  Feed.this_feed
    (snd (Feed.update Sample.Date_parse
            (Sample.rss Sample.build_0830 [Sample.entry_C])
            (Feed.mkWorld 9 Sample.feed_AB))) = Sample.feed_AB.
Proof.
  apply (update_skips_newer_build Sample.Date_parse
           (Sample.rss Sample.build_0830 [Sample.entry_C])
           (Dom.Element "channel"
              ([ Sample.field "title" "Meetings";
                 Sample.field "link" "https://example.org/calendar";
                 Sample.field "lastBuildDate" Sample.build_0830;
                 Sample.field "description" "Public meetings" ]
               ++ [Sample.entry_C]))
           (Sample.field "lastBuildDate" Sample.build_0830)
           (Feed.mkWorld 9 Sample.feed_AB)
           1704443400000 1704441600000);
    [reflexivity | reflexivity | reflexivity | reflexivity | lia].
Defined.

(** ** The two indices *)

Lemma indices_in_lock_step_witness :
  dedup_respected
    [ Insert Sample.item_A; Insert Sample.item_B;
      Remove (FeedItem.id Sample.item_A); Insert Sample.item_C ]
    (Feed.new "Meetings" "https://example.org/calendar"
       (mkDate 0 (Some 1704441600000)) "Public meetings") = true ∧
  index_agree
    (run
       [ Insert Sample.item_A; Insert Sample.item_B;
         Remove (FeedItem.id Sample.item_A); Insert Sample.item_C ]
       (Feed.new "Meetings" "https://example.org/calendar"
          (mkDate 0 (Some 1704441600000)) "Public meetings")).
Proof.
  split; [vm_compute; reflexivity|].
  apply (indices_in_lock_step "Meetings" "https://example.org/calendar"
           (mkDate 0 (Some 1704441600000)) "Public meetings"
           [ Insert Sample.item_A; Insert Sample.item_B;
             Remove (FeedItem.id Sample.item_A); Insert Sample.item_C ]).
  vm_compute. reflexivity.
Defined.

(** C4. After [addChild] of one item and [removeChild] of its id, the key
    of its start time is still in [itemsByStartTime]: the bucket keeps its
    length with a hole where the item was, so the test for an empty bucket
    fails and the key is not deleted. *)
Theorem removeChild_keeps_emptied_bucket :
  fst (Feed.removeChild (FeedItem.id Sample.item_A)
         (run [Insert Sample.item_A] Sample.empty_feed)) = Return tt ∧
  Feed.itemsById
    (run [Insert Sample.item_A; Remove (FeedItem.id Sample.item_A)]
       Sample.empty_feed) = [] ∧
  Feed.itemsByStartTime
    (run [Insert Sample.item_A; Remove (FeedItem.id Sample.item_A)]
       Sample.empty_feed)
  = [(FeedItem.startTime Sample.item_A, [None])] ∧
  JsMap.has
    (Feed.itemsByStartTime
       (run [Insert Sample.item_A; Remove (FeedItem.id Sample.item_A)]
          Sample.empty_feed))
    (FeedItem.startTime Sample.item_A) = true.
Proof. vm_compute. repeat split. Qed.

(** C6. [removeChild] of an id that [itemsById] does not have throws the
    error that says so, and the feed is what it was. *)
Theorem removeChild_absent_id this itemId :
  JsMap.has (Feed.itemsById this) itemId = false →
  Feed.removeChild itemId this = (Throw (Feed.not_in_feed itemId), this).
Proof. apply removeChild_absent. Qed.

Lemma removeChild_absent_id_witness :
  JsMap.has (Feed.itemsById Sample.feed_AB) "C || 1704452400000" = false ∧
  Feed.removeChild "C || 1704452400000" Sample.feed_AB
  = (Throw (Feed.not_in_feed "C || 1704452400000"), Sample.feed_AB).
Proof.
  split; [vm_compute; reflexivity|].
  apply (removeChild_absent_id Sample.feed_AB "C || 1704452400000").
  vm_compute. reflexivity.
Defined.

(** C9. Two entries that start at the same instant are parsed into two
    [Date] objects, and [itemsByStartTime] compares its keys by identity:
    each item gets a bucket of its own, and [sortedStartTimes()] yields the
    instant twice. *)
Theorem equal_instants_get_two_buckets :
  Feed.parse Sample.Date_parse
    (Sample.rss Sample.build_0800 [Sample.entry_B; Sample.entry_B2]) 0%nat
  = (Return
       (Feed.mk "Meetings" "https://example.org/calendar"
          (mkDate 0 (Some 1704441600000)) "Public meetings"
          [ (mkDate 2 (Some 1704448800000), [Some Sample.item_B_first]);
            (mkDate 6 (Some 1704448800000), [Some Sample.item_B2]) ]
          [ (FeedItem.id Sample.item_B_first, Sample.item_B_first);
            (FeedItem.id Sample.item_B2, Sample.item_B2) ]),
     9%nat) ∧
  getTime (FeedItem.startTime Sample.item_B_first)
  = getTime (FeedItem.startTime Sample.item_B2) ∧
  spread
    (Feed.sortedStartTimes_next
       (run [Insert Sample.item_B_first; Insert Sample.item_B2]
          Sample.empty_feed))
    3 Feed.sortedStartTimes
  = Some (Return [ mkDate 2 (Some 1704448800000);
                   mkDate 6 (Some 1704448800000) ]).
Proof. vm_compute. repeat split. Qed.

(** ** Entries that do not parse *)

(** C5, as the specification states it, fails: [update] on a channel whose
    first entry parses and whose second does not throws, and the feed has
    the first entry in it; it is not the feed it was. *)
Lemma update_failure_is_not_rolled_back :
  fst (Feed.update Sample.Date_parse
         (Sample.rss Sample.build_0800
            [Sample.entry_C; Sample.entry_no_date])
         Sample.empty_world) = Throw (Error "invalid date") ∧
  Feed.itemsById
    (Feed.this_feed
       (snd (Feed.update Sample.Date_parse
               (Sample.rss Sample.build_0800
                  [Sample.entry_C; Sample.entry_no_date])
               Sample.empty_world)))
  = [(FeedItem.id Sample.item_C_first, Sample.item_C_first)] ∧
  Feed.this_feed
    (snd (Feed.update Sample.Date_parse
            (Sample.rss Sample.build_0800
               [Sample.entry_C; Sample.entry_no_date])
            Sample.empty_world))
  ≠ Feed.this_feed Sample.empty_world.
Proof.
  vm_compute. split_and!; [reflexivity|reflexivity|]. intros H. discriminate H.
Qed.

(** C5, amended. When the channel passes the gate of the build date and
    [parse] throws on one of its entries, [update] throws what [parse] threw
    on the first such entry. The feed is then the one the loop has made of
    the entries before that one, all of which parsed: nothing has been taken
    out of it, and what those entries added stays. The id of every entry
    before the failing one is filed in [itemsById], and [itemsById] has the
    ids it had before the call and the ids of those entries, no other. *)
Theorem update_stops_at_first_parse_failure
    (Date_parse : string → option Z) doc channel buildEl w :
  Dom.querySelector doc "channel" = Some channel →
  Dom.querySelector channel "lastBuildDate" = Some buildEl →
  date_gt (mkDate (Feed.next_ref w) (Date_parse (Dom.textContent buildEl)))
    (Feed.buildDate (Feed.this_feed w)) = false →
  (∃ bad, bad ∈ Dom.querySelectorAll channel "item" ∧
          parse_fails Date_parse bad) →
  ∃ e pre bad post changed w1,
    Dom.querySelectorAll channel "item" = (pre ++ bad :: post)%list ∧
    Feed.update_loop Date_parse pre false
      (Feed.mkWorld (S (Feed.next_ref w)) (Feed.this_feed w))
    = (Return changed, w1) ∧
    fst (FeedItem.parse Date_parse bad (Feed.next_ref w1)) = Throw e ∧
    fst (Feed.update Date_parse doc w) = Throw e ∧
    Feed.this_feed (snd (Feed.update Date_parse doc w)) = Feed.this_feed w1 ∧
    only_grown (Feed.this_feed w) (Feed.this_feed w1) ∧
    (∀ elem, elem ∈ pre →
       ∃ item m,
         FeedItem.parse Date_parse elem 0%nat = (Return item, m) ∧
         JsMap.has
           (Feed.itemsById (Feed.this_feed (snd (Feed.update Date_parse doc w))))
           (FeedItem.id item) = true) ∧
    (∀ itemId,
       JsMap.has
         (Feed.itemsById (Feed.this_feed (snd (Feed.update Date_parse doc w))))
         itemId = true ↔
       JsMap.has (Feed.itemsById (Feed.this_feed w)) itemId = true ∨
       ∃ elem item m,
         elem ∈ pre ∧
         FeedItem.parse Date_parse elem 0%nat = (Return item, m) ∧
         FeedItem.id item = itemId).
Proof.
  intros Hch Hbuild Hgate Hbad.
  destruct (update_loop_stops Date_parse _ false
              (Feed.mkWorld (S (Feed.next_ref w)) (Feed.this_feed w)) Hbad)
    as (e & pre & bad & post & changed & w1
        & Hitems & Hpre & He & Hthrow & Hfeed).
  exists e, pre, bad, post, changed, w1.
  rewrite (update_eq Date_parse doc channel buildEl w Hch Hbuild).
  cbv zeta. rewrite Hgate.
  destruct (Feed.update_loop Date_parse (Dom.querySelectorAll channel "item")
              false _) as [[c|e'] w'] eqn:Hloop; simpl in Hthrow, Hfeed;
    [done|].
  injection Hthrow as ->.
  destruct (update_loop_filed Date_parse _ _ _ _ _ Hpre) as [Hall Hiff].
  split_and!; simpl; rewrite ?Hfeed; try done.
  pose proof (update_loop_only_grown Date_parse pre false
                (Feed.mkWorld (S (Feed.next_ref w)) (Feed.this_feed w))) as Hg.
  rewrite Hpre in Hg. exact Hg.
Qed.

Lemma update_stops_at_first_parse_failure_witness :
  ∃ e pre bad post changed w1,
    Dom.querySelectorAll
      (Dom.Element "channel"
         ([ Sample.field "title" "Meetings";
            Sample.field "link" "https://example.org/calendar";
            Sample.field "lastBuildDate" Sample.build_0800;
            Sample.field "description" "Public meetings" ]
          ++ [Sample.entry_C; Sample.entry_no_date])) "item"
    = (pre ++ bad :: post)%list ∧
    Feed.update_loop Sample.Date_parse pre false
      (Feed.mkWorld 2 Sample.empty_feed) = (Return changed, w1) ∧
    fst (FeedItem.parse Sample.Date_parse bad (Feed.next_ref w1)) = Throw e ∧
    fst (Feed.update Sample.Date_parse
           (Sample.rss Sample.build_0800
              [Sample.entry_C; Sample.entry_no_date])
           Sample.empty_world) = Throw e ∧
    Feed.this_feed
      (snd (Feed.update Sample.Date_parse
              (Sample.rss Sample.build_0800
                 [Sample.entry_C; Sample.entry_no_date])
              Sample.empty_world)) = Feed.this_feed w1 ∧
    only_grown Sample.empty_feed (Feed.this_feed w1) ∧
    (∀ elem, elem ∈ pre →
       ∃ item m,
         FeedItem.parse Sample.Date_parse elem 0%nat = (Return item, m) ∧
         JsMap.has
           (Feed.itemsById
              (Feed.this_feed
                 (snd (Feed.update Sample.Date_parse
                         (Sample.rss Sample.build_0800
                            [Sample.entry_C; Sample.entry_no_date])
                         Sample.empty_world))))
           (FeedItem.id item) = true) ∧
    (∀ itemId,
       JsMap.has
         (Feed.itemsById
            (Feed.this_feed
               (snd (Feed.update Sample.Date_parse
                       (Sample.rss Sample.build_0800
                          [Sample.entry_C; Sample.entry_no_date])
                       Sample.empty_world))))
         itemId = true ↔
       JsMap.has (Feed.itemsById Sample.empty_feed) itemId = true ∨
       ∃ elem item m,
         elem ∈ pre ∧
         FeedItem.parse Sample.Date_parse elem 0%nat = (Return item, m) ∧
         FeedItem.id item = itemId).
Proof.
  apply (update_stops_at_first_parse_failure Sample.Date_parse
           (Sample.rss Sample.build_0800
              [Sample.entry_C; Sample.entry_no_date])
           (Dom.Element "channel"
              ([ Sample.field "title" "Meetings";
                 Sample.field "link" "https://example.org/calendar";
                 Sample.field "lastBuildDate" Sample.build_0800;
                 Sample.field "description" "Public meetings" ]
               ++ [Sample.entry_C; Sample.entry_no_date]))
           (Sample.field "lastBuildDate" Sample.build_0800)
           Sample.empty_world);
    [reflexivity | reflexivity | reflexivity |].
  exists Sample.entry_no_date. split.
  - vm_compute. right. left.
  - intros n. exists (Error "invalid date"). reflexivity.
Defined.

Section ParseClaims.

Variable Date_parse : string → option Z.

Lemma parse_outcomes elem n :
  (missing_field elem ∧
   fst (FeedItem.parse Date_parse elem n) = Throw TypeError) ∨
  (¬ missing_field elem ∧ computed_start Date_parse elem = None ∧
   fst (FeedItem.parse Date_parse elem n) = Throw (Error "invalid date")) ∨
  (¬ missing_field elem ∧
   ∃ item n', FeedItem.parse Date_parse elem n = (Return item, n') ∧
              getTime (FeedItem.startTime item)
              = computed_start Date_parse elem ∧
              is_invalid_date (FeedItem.startTime item) = false ∧
              getTime (FeedItem.endTime item) = computed_end Date_parse elem).
Proof.
  rewrite parse_eq. unfold missing_field, computed_start, computed_end,
    event_texts.
  destruct (Dom.querySelector elem "title") as [titleEl|]; [|left; auto].
  destruct (Dom.querySelector elem "pubDate") as [pubEl|]; [|left; auto].
  destruct (Dom.querySelector elem "description") as [descEl|];
    [|left; auto].
  destruct (getCalendarEventTag elem "calendarEvent:EventTimes")
    as [timesEl|]; [|left; auto 6].
  destruct (getCalendarEventTag elem "calendarEvent:EventDates")
    as [datesEl|]; [|left; auto 6].
  assert (Hall : ¬ (Some titleEl = None ∨ Some pubEl = None ∨
                    Some descEl = None ∨
                    Some timesEl = None ∨ Some datesEl = None)).
  { intros [?|[?|[?|[?|?]]]]; done. }
  right. cbv zeta.
  destruct (time_value_of Date_parse _) as [start|] eqn:Hstart.
  - right. split; [done|]. eexists _, _. split; [reflexivity|]. simpl.
    unfold is_invalid_date. simpl. done.
  - left. done.
Qed.

End ParseClaims.

(** C7, as the specification states it, fails: an entry whose end is not a
    time parses, and the item it returns has an end time that is no point in
    time. *)
Lemma parse_accepts_invalid_end :
  FeedItem.parse Sample.Date_parse Sample.entry_open_end 0%nat
  = (Return Sample.item_D, 4%nat) ∧
  computed_end Sample.Date_parse Sample.entry_open_end = None ∧
  is_invalid_date (FeedItem.endTime Sample.item_D) = true.
Proof. vm_compute. repeat split. Qed.

(** C7, amended. [parse] throws the invalid-date error exactly when the
    entry has all its fields and its start text resolves to no point in
    time; the end time is not looked at. When [parse] returns, the start
    time of the item is the point in time the start text resolves to, and
    the end time is what the end text resolves to, valid or not. Whenever
    [parse] throws, [parseChild] throws the same and leaves the feed as it
    was: the entry is not inserted. *)
Theorem parse_checks_start_only
    (Date_parse : string → option Z) elem n :
  (fst (FeedItem.parse Date_parse elem n) = Throw (Error "invalid date") ↔
   ¬ missing_field elem ∧ computed_start Date_parse elem = None) ∧
  (∀ item n',
     FeedItem.parse Date_parse elem n = (Return item, n') →
     getTime (FeedItem.startTime item) = computed_start Date_parse elem ∧
     is_invalid_date (FeedItem.startTime item) = false ∧
     getTime (FeedItem.endTime item) = computed_end Date_parse elem) ∧
  (∀ w e,
     fst (FeedItem.parse Date_parse elem (Feed.next_ref w)) = Throw e →
     fst (Feed.parseChild Date_parse elem w) = Throw e ∧
     Feed.this_feed (snd (Feed.parseChild Date_parse elem w))
     = Feed.this_feed w).
Proof.
  split_and!.
  - destruct (parse_outcomes Date_parse elem n)
      as [[Hm Hp]|[(Hm & Hs & Hp)|(Hm & item & n' & Hp & Hs & Hv & _)]];
      rewrite Hp; simpl.
    + split; [done|]. by intros [? _].
    + done.
    + split; [done|]. intros [_ Hnone]. rewrite <- Hs in Hnone.
      unfold is_invalid_date in Hv. by rewrite Hnone in Hv.
  - intros item n' Hp.
    destruct (parse_outcomes Date_parse elem n)
      as [[Hm Hp']|[(Hm & Hs & Hp')|(Hm & item' & n'' & Hp' & Hrest)]];
      rewrite Hp in Hp'; simpl in Hp'; try done.
    by injection Hp' as <- <-.
  - intros w e. apply parseChild_throw.
Qed.

Lemma parse_checks_start_only_witness :
  getTime (FeedItem.startTime Sample.item_D)
  = computed_start Sample.Date_parse Sample.entry_open_end ∧
  is_invalid_date (FeedItem.startTime Sample.item_D) = false ∧
  getTime (FeedItem.endTime Sample.item_D)
  = computed_end Sample.Date_parse Sample.entry_open_end.
Proof.
  apply (proj1 (proj2 (parse_checks_start_only Sample.Date_parse
                         Sample.entry_open_end 0%nat))
           Sample.item_D 4%nat).
  vm_compute. reflexivity.
Defined.

(** C10. An entry that lacks one of the five elements [parse] reads makes
    [parse] throw the [TypeError] of reading [textContent] of [null], and
    [parse] throws a [TypeError] for no other entry. The invalid-date error
    is thrown only for an entry that has all five and whose start text
    resolves to no point in time. *)
Theorem parse_missing_field_is_TypeError
    (Date_parse : string → option Z) elem n :
  (missing_field elem ↔
   fst (FeedItem.parse Date_parse elem n) = Throw TypeError) ∧
  (fst (FeedItem.parse Date_parse elem n) = Throw (Error "invalid date") →
   ¬ missing_field elem ∧ computed_start Date_parse elem = None).
Proof.
  destruct (parse_outcomes Date_parse elem n)
    as [[Hm Hp]|[(Hm & Hs & Hp)|(Hm & item & n' & Hp & _)]];
    rewrite Hp; simpl; split; try split; try done.
Qed.

Lemma parse_missing_field_is_TypeError_witness :
  missing_field Sample.entry_no_dates_field ∧
  fst (FeedItem.parse Sample.Date_parse Sample.entry_no_dates_field 0%nat)
  = Throw TypeError.
Proof.
  assert (Hm : missing_field Sample.entry_no_dates_field).
  { do 4 right. vm_compute. reflexivity. }
  split; [exact Hm|].
  exact (proj1 (proj1 (parse_missing_field_is_TypeError Sample.Date_parse
                         Sample.entry_no_dates_field 0%nat)) Hm).
Defined.

(** ** Traversals *)

(** C8. The claim fails on the code. In a feed whose indices agree,
    [removeChild] of an id that is filed returns; the traversal of
    [sortedItems()] of the feed it leaves ends, and it yields [undefined]
    where the item was: the sequence is not one of items in non-decreasing
    start time. *)
Theorem sortedItems_yields_undefined itemId item this :
  index_agree this →
  JsMap.get (Feed.itemsById this) itemId = Some item →
  fst (Feed.removeChild itemId this) = Return tt ∧
  spread (Feed.sortedItems_next (snd (Feed.removeChild itemId this)))
    (S (length (items_in_order (snd (Feed.removeChild itemId this)))))
    Feed.sortedItems
  = Some (Return (items_in_order (snd (Feed.removeChild itemId this)))) ∧
  None ∈ items_in_order (snd (Feed.removeChild itemId this)) ∧
  ¬ nondecreasing_in_startTime
      (items_in_order (snd (Feed.removeChild itemId this))).
Proof.
  intros [Hfiled _] Hget.
  destruct (Hfiled _ _ Hget) as (bucket & Hb & Hocc).
  destruct (occurrences_indexOf _ _ Hocc) as [subIndex Hidx].
  rewrite (removeChild_found itemId item bucket subIndex _ Hget Hb Hidx).
  simpl.
  destruct (removeChild_makes_hole itemId item bucket subIndex _ Hb Hidx)
    as [Hkey Hhole].
  pose proof (hole_in_order _ _ Hkey Hhole) as Hnone.
  split_and!; [done| |done|by apply undefined_not_in_startTime_order].
  by apply (spread_sortedItems _ Feed.Items_new).
Qed.

Lemma sortedItems_yields_undefined_witness :
  items_in_order
    (snd (Feed.removeChild (FeedItem.id Sample.item_A) Sample.feed_AB))
  = [None; Some Sample.item_B] ∧
  fst (Feed.removeChild (FeedItem.id Sample.item_A) Sample.feed_AB)
  = Return tt ∧
  spread
    (Feed.sortedItems_next
       (snd (Feed.removeChild (FeedItem.id Sample.item_A) Sample.feed_AB)))
    (S (length
          (items_in_order
             (snd (Feed.removeChild (FeedItem.id Sample.item_A)
                     Sample.feed_AB)))))
    Feed.sortedItems
  = Some (Return
            (items_in_order
               (snd (Feed.removeChild (FeedItem.id Sample.item_A)
                       Sample.feed_AB)))) ∧
  None ∈ items_in_order
           (snd (Feed.removeChild (FeedItem.id Sample.item_A)
                   Sample.feed_AB)) ∧
  ¬ nondecreasing_in_startTime
      (items_in_order
         (snd (Feed.removeChild (FeedItem.id Sample.item_A) Sample.feed_AB))).
Proof.
  split; [vm_compute; reflexivity|].
  apply (sortedItems_yields_undefined (FeedItem.id Sample.item_A)
           Sample.item_A Sample.feed_AB).
  - change Sample.feed_AB
      with (run [Insert Sample.item_A; Insert Sample.item_B]
              Sample.empty_feed).
    apply run_keeps_index_agree;
      [vm_compute; reflexivity|apply well_keyed_new|apply index_agree_new].
  - vm_compute. reflexivity.
Defined.

(** * Further properties of the code *)

(** ** The id of an item *)

Lemma string_length_app (s t : string) :
  String.length (s +:+ t) = (String.length s + String.length t)%nat.
Proof. induction s as [|c s IH]; simpl; [done|]. by rewrite IH. Qed.

Lemma string_app_inv_tail (s1 s2 t : string) :
  s1 +:+ t = s2 +:+ t → s1 = s2.
Proof.
  revert s2. induction s1 as [|c s1 IH]; intros [|c' s2]; simpl.
  - done.
  - intros Heq. apply (f_equal String.length) in Heq.
    rewrite ?string_length_app in Heq. simpl in Heq.
    rewrite ?string_length_app in Heq. lia.
  - intros Heq. apply (f_equal String.length) in Heq.
    rewrite ?string_length_app in Heq. simpl in Heq.
    rewrite ?string_length_app in Heq. lia.
  - intros [= -> Heq]. f_equal. by apply IH.
Qed.

Lemma contains_char_app x (s t : string) :
  contains_char x (s +:+ t) = contains_char x s || contains_char x t.
Proof.
  induction s as [|c s IH]; simpl; [done|]. by destruct (Ascii.eqb c x).
Qed.

Lemma pretty_N_char_digit d :
  contains_char (pretty_N_char d) "0123456789" = true.
Proof.
  destruct d as [|p]; [reflexivity|].
  do 4 (try destruct p as [p|p|]); reflexivity.
Qed.

(** A character that is not a digit does not come into a number printed in
    decimal. *)
Lemma contains_char_pretty_N_go x n s :
  contains_char x "0123456789" = false →
  contains_char x (pretty_N_go n s) = contains_char x s.
Proof.
  intros Hx. revert s. induction (N.lt_wf_0 n) as [n _ IH]; intros s.
  destruct (decide (n = 0%N)) as [->|Hn]; [done|].
  rewrite pretty_N_go_step by lia.
  rewrite IH by (apply N.div_lt; lia). simpl.
  destruct (Ascii.eqb (pretty_N_char (n `mod` 10)%N) x) eqn:Hc; [|done].
  apply Ascii.eqb_eq in Hc. subst x.
  by rewrite pretty_N_char_digit in Hx.
Qed.

Lemma contains_char_pretty_Z x (z : Z) :
  contains_char x "0123456789-" = false →
  contains_char x (pretty z) = false.
Proof.
  intros Hx.
  change "0123456789-" with ("0123456789" +:+ "-") in Hx.
  rewrite contains_char_app in Hx. apply orb_false_iff in Hx as [Hd Hdash].
  assert (Hpos : ∀ p, contains_char x (pretty (Npos p)) = false).
  { intros p. unfold pretty, pretty_N. rewrite decide_False by done.
    by rewrite contains_char_pretty_N_go. }
  destruct z as [|p|p]; unfold pretty, pretty_Z.
  - change "0123456789" with ("0" +:+ "123456789") in Hd.
    rewrite contains_char_app in Hd. by apply orb_false_iff in Hd as [Hd0 _].
  - apply Hpos.
  - rewrite contains_char_app, Hdash. apply Hpos.
Qed.

Lemma contains_char_of_number x v :
  contains_char x "0123456789-" = false →
  contains_char x "NaN" = false →
  contains_char x (JsString.of_number v) = false.
Proof.
  intros Hx Hnan. destruct v as [z|]; [|done].
  by apply contains_char_pretty_Z.
Qed.

Lemma of_number_inj v1 v2 :
  JsString.of_number v1 = JsString.of_number v2 → v1 = v2.
Proof.
  destruct v1 as [z1|], v2 as [z2|]; simpl; intros Heq.
  - f_equal. by apply (inj pretty).
  - apply (f_equal (contains_char "N")) in Heq.
    by rewrite contains_char_pretty_Z in Heq.
  - apply (f_equal (contains_char "N")) in Heq.
    by rewrite contains_char_pretty_Z in Heq.
  - done.
Qed.

Lemma after_last_space_sep title n :
  contains_char " " n = false →
  after_last_space (title +:+ " || " +:+ n) = n.
Proof.
  intros Hn. induction title as [|c title IH].
  - change ("" +:+ " || " +:+ n)
      with (String " " (String "|" (String "|" (String " " n)))).
    simpl. by rewrite Hn.
  - change (String c title +:+ " || " +:+ n)
      with (String c (title +:+ " || " +:+ n)).
    cbn [after_last_space]. rewrite contains_char_app.
    change (" || " +:+ n)
      with (String " " (String "|" (String "|" (String " " n)))).
    simpl. by rewrite orb_true_r.
Qed.

Lemma after_last_space_id title v :
  after_last_space (title +:+ " || " +:+ JsString.of_number v)
  = JsString.of_number v.
Proof. by apply after_last_space_sep, contains_char_of_number. Qed.

(** X1. Two items have the same id exactly when they have the same title
    and the same time stamp: the title and the time stamp can be read back
    from the id, also when the title itself holds the separator. *)
Theorem id_identifies_title_and_start (a b : FeedItem.t) :
  FeedItem.id a = FeedItem.id b ↔
  FeedItem.title a = FeedItem.title b ∧
  FeedItem.timeStamp a = FeedItem.timeStamp b.
Proof.
  unfold FeedItem.id. split.
  - intros Heq.
    assert (Hts : FeedItem.timeStamp a = FeedItem.timeStamp b).
    { apply of_number_inj.
      rewrite <- (after_last_space_id (FeedItem.title a) (FeedItem.timeStamp a)).
      rewrite <- (after_last_space_id (FeedItem.title b) (FeedItem.timeStamp b)).
      by rewrite Heq. }
    split; [|done]. rewrite Hts in Heq.
    by apply string_app_inv_tail in Heq.
  - by intros [-> ->].
Qed.

(** ** [update]: what it keeps and what it throws *)

(** The two indices agree and are keyed as the operations key them. *)
Lemma lock_step_addChild item this :
  JsMap.has (Feed.itemsById this) (FeedItem.id item) = false →
  well_keyed this ∧ index_agree this →
  well_keyed (addChild_result item this) ∧
  index_agree (addChild_result item this).
Proof.
  intros Hfresh [Hwk Hag]. split.
  - by apply well_keyed_addChild.
  - by apply index_agree_addChild.
Qed.

Lemma lock_step_removeChild itemId this :
  well_keyed this ∧ index_agree this →
  well_keyed (snd (Feed.removeChild itemId this)) ∧
  index_agree (snd (Feed.removeChild itemId this)).
Proof.
  intros [Hwk Hag].
  destruct (removeChild_cases itemId this)
    as [[e ->]|(item & subArr & subIndex & Hid & Hst & Hidx & ->)]; [done|].
  simpl. split.
  - by apply well_keyed_removeChild.
  - by apply index_agree_removeChild.
Qed.

Lemma same_attributes_refl this : same_attributes this this.
Proof. by unfold same_attributes. Qed.

Lemma same_attributes_trans f1 f2 f3 :
  same_attributes f1 f2 → same_attributes f2 f3 → same_attributes f1 f3.
Proof.
  unfold same_attributes. intros (?&?&?&?) (?&?&?&?).
  split_and!; congruence.
Qed.

Lemma same_attributes_removeChild itemId this :
  same_attributes this (snd (Feed.removeChild itemId this)).
Proof.
  destruct (removeChild_cases itemId this)
    as [[e ->]|(item & subArr & subIndex & _ & _ & _ & ->)];
    by unfold same_attributes.
Qed.

Lemma only_grown_same_attributes f1 f2 :
  only_grown f1 f2 → same_attributes f1 f2.
Proof. intros (?&?&?&?&_). by unfold same_attributes. Qed.

(** The removals of [update], one id after the other. *)
Lemma forEach_removeChild_cons itemId itemIds w :
  forEach (fun itemId => Feed.on_feed (Feed.removeChild itemId))
    (itemId :: itemIds) w
  = match Feed.removeChild itemId (Feed.this_feed w) with
    | (Return _, this') =>
        forEach (fun itemId => Feed.on_feed (Feed.removeChild itemId))
          itemIds (Feed.mkWorld (Feed.next_ref w) this')
    | (Throw e, this') => (Throw e, Feed.mkWorld (Feed.next_ref w) this')
    end.
Proof.
  simpl. unfold bind, Feed.on_feed.
  by destruct (Feed.removeChild itemId (Feed.this_feed w)) as [[[]|e] this'].
Qed.

Lemma forEach_removeChild_keeps (P : Feed.t → Prop) itemIds w :
  (∀ itemId this, P this → P (snd (Feed.removeChild itemId this))) →
  P (Feed.this_feed w) →
  P (Feed.this_feed
       (snd (forEach (fun itemId => Feed.on_feed (Feed.removeChild itemId))
               itemIds w))).
Proof.
  intros Hstep. revert w.
  induction itemIds as [|itemId itemIds IH]; intros w HP; [done|].
  rewrite forEach_removeChild_cons.
  pose proof (Hstep itemId _ HP) as HP'.
  destruct (Feed.removeChild itemId (Feed.this_feed w)) as [[[]|e] this'];
    simpl in *; [|done].
  by apply (IH (Feed.mkWorld (Feed.next_ref w) this')).
Qed.

Section UpdateKeeps.

Variable Date_parse : string → option Z.

Lemma parseChild_cases elem w :
  (∃ e n', Feed.parseChild Date_parse elem w
           = (Throw e, Feed.mkWorld n' (Feed.this_feed w)) ∧
           fst (FeedItem.parse Date_parse elem (Feed.next_ref w)) = Throw e) ∨
  (∃ item n',
     FeedItem.parse Date_parse elem (Feed.next_ref w) = (Return item, n') ∧
     JsMap.has (Feed.itemsById (Feed.this_feed w)) (FeedItem.id item) = true ∧
     Feed.parseChild Date_parse elem w
     = (Return (false, JsMap.get (Feed.itemsById (Feed.this_feed w))
                         (FeedItem.id item)),
        Feed.mkWorld n' (Feed.this_feed w))) ∨
  (∃ item n',
     FeedItem.parse Date_parse elem (Feed.next_ref w) = (Return item, n') ∧
     JsMap.has (Feed.itemsById (Feed.this_feed w)) (FeedItem.id item) = false ∧
     Feed.parseChild Date_parse elem w
     = (Return (true, Some item),
        Feed.mkWorld n' (addChild_result item (Feed.this_feed w)))).
Proof.
  destruct (FeedItem.parse Date_parse elem (Feed.next_ref w))
    as [[item|e] n'] eqn:Hp.
  - right. pose proof (parseChild_return Date_parse _ _ _ _ Hp) as Hc.
    destruct (JsMap.has _ _) eqn:Hhas; [left|right]; eauto.
  - left. exists e, n'.
    unfold Feed.parseChild, bind, Feed.on_heap. by rewrite Hp.
Qed.

Lemma parseChild_lock_step elem w :
  well_keyed (Feed.this_feed w) ∧ index_agree (Feed.this_feed w) →
  well_keyed (Feed.this_feed (snd (Feed.parseChild Date_parse elem w))) ∧
  index_agree (Feed.this_feed (snd (Feed.parseChild Date_parse elem w))).
Proof.
  intros Hinv.
  destruct (parseChild_cases elem w)
    as [(e & n' & -> & _)|[(item & n' & _ & _ & ->)
                          |(item & n' & _ & Hfresh & ->)]]; simpl; try done.
  by apply lock_step_addChild.
Qed.

Lemma update_loop_lock_step childElems changed w :
  well_keyed (Feed.this_feed w) ∧ index_agree (Feed.this_feed w) →
  well_keyed
    (Feed.this_feed (snd (Feed.update_loop Date_parse childElems changed w))) ∧
  index_agree
    (Feed.this_feed (snd (Feed.update_loop Date_parse childElems changed w))).
Proof.
  revert changed w.
  induction childElems as [|childElem rest IH]; intros changed w Hinv; [done|].
  rewrite update_loop_cons.
  pose proof (parseChild_lock_step childElem w Hinv) as Hinv'.
  destruct (Feed.parseChild Date_parse childElem w)
    as [[[created child]|e] w']; simpl in *; [|done].
  by apply IH.
Qed.

Lemma update_no_channel doc w :
  Dom.querySelector doc "channel" = None →
  Feed.update Date_parse doc w = (Throw TypeError, w).
Proof. intros Hch. unfold Feed.update. by rewrite Hch. Qed.

Lemma update_no_lastBuildDate doc channel w :
  Dom.querySelector doc "channel" = Some channel →
  Dom.querySelector channel "lastBuildDate" = None →
  Feed.update Date_parse doc w = (Throw TypeError, w).
Proof.
  intros Hch Hbuild. unfold Feed.update. rewrite Hch.
  rewrite getElemText_selector by reflexivity. by rewrite Hbuild.
Qed.

(** Whatever [update] does to the feed, it does by the loop over the
    entries and the removals that follow it. *)
Lemma update_keeps (P : Feed.t → Prop) doc w :
  (∀ childElems changed w',
     P (Feed.this_feed w') →
     P (Feed.this_feed
          (snd (Feed.update_loop Date_parse childElems changed w')))) →
  (∀ itemId this, P this → P (snd (Feed.removeChild itemId this))) →
  P (Feed.this_feed w) →
  P (Feed.this_feed (snd (Feed.update Date_parse doc w))).
Proof.
  intros Hloop Hremove HP.
  destruct (Dom.querySelector doc "channel") as [channel|] eqn:Hch;
    [|by rewrite update_no_channel].
  destruct (Dom.querySelector channel "lastBuildDate") as [buildEl|]
    eqn:Hbuild; [|by rewrite (update_no_lastBuildDate doc channel)].
  rewrite (update_eq Date_parse doc channel buildEl w Hch Hbuild). cbv zeta.
  destruct (date_gt _ _); [done|].
  pose proof (Hloop (Dom.querySelectorAll channel "item") false
                (Feed.mkWorld (S (Feed.next_ref w)) (Feed.this_feed w)) HP)
    as HP1.
  destruct (Feed.update_loop _ _ _ _) as [[changed|e] w1]; [|done].
  pose proof (forEach_removeChild_keeps P
                (JsMap.keys (Feed.itemsById (Feed.this_feed w))) w1
                Hremove HP1) as HP2.
  by destruct (forEach _ _ _) as [[[]|e] w2].
Qed.

End UpdateKeeps.

(** X2. [update] keeps the two indices in lock step: if they agree before
    the call they agree after it, whether it returns or throws. *)
Theorem update_keeps_lock_step (Date_parse : string → option Z) doc w :
  well_keyed (Feed.this_feed w) → index_agree (Feed.this_feed w) →
  well_keyed (Feed.this_feed (snd (Feed.update Date_parse doc w))) ∧
  index_agree (Feed.this_feed (snd (Feed.update Date_parse doc w))).
Proof.
  intros Hwk Hag.
  apply (update_keeps Date_parse
           (fun this => well_keyed this ∧ index_agree this)); [| |done].
  - intros. by apply update_loop_lock_step.
  - intros. by apply lock_step_removeChild.
Qed.

(** X3. [update] never changes the title, the link, the build date or the
    description of the feed, whatever the document and whatever the
    outcome: the build date that the gate compares with is the one the feed
    was made with. *)
Theorem update_keeps_attributes (Date_parse : string → option Z) doc w :
  same_attributes (Feed.this_feed w)
    (Feed.this_feed (snd (Feed.update Date_parse doc w))).
Proof.
  apply (update_keeps Date_parse
           (fun this => same_attributes (Feed.this_feed w) this)).
  - intros childElems changed w' Hsame.
    eapply same_attributes_trans; [exact Hsame|].
    apply only_grown_same_attributes, update_loop_only_grown.
  - intros itemId this Hsame.
    eapply same_attributes_trans; [exact Hsame|].
    apply same_attributes_removeChild.
  - apply same_attributes_refl.
Qed.

(** X4. A document without a [channel] element, or whose channel has no
    [lastBuildDate], makes [update] throw a [TypeError] before it has
    touched the feed or allocated anything. *)
Theorem update_without_build_date (Date_parse : string → option Z) doc w :
  (Dom.querySelector doc "channel" = None ∨
   ∃ channel, Dom.querySelector doc "channel" = Some channel ∧
              Dom.querySelector channel "lastBuildDate" = None) →
  Feed.update Date_parse doc w = (Throw TypeError, w).
Proof.
  intros [Hch|(channel & Hch & Hbuild)].
  - by apply update_no_channel.
  - by apply (update_no_lastBuildDate Date_parse doc channel).
Qed.

(** ** [update] when every entry parses *)

Lemma JsMap_set_new {K V : Type} `{EqDecision K} (m : JsMap.t K V) k v :
  JsMap.get m k = None → JsMap.set m k v = (m ++ [(k, v)])%list.
Proof.
  induction m as [|[k0 v0] m IH]; simpl; [done|].
  destruct (decide (k = k0)); [done|]. intros Hg. by rewrite IH.
Qed.

(** In a feed whose indices agree, [removeChild] of an id that is filed
    returns, and takes the entry of the id out of [itemsById]. *)
Lemma removeChild_filed itemId item this :
  index_agree this →
  JsMap.get (Feed.itemsById this) itemId = Some item →
  ∃ this',
    Feed.removeChild itemId this = (Return tt, this') ∧
    Feed.itemsById this' = JsMap.delete (Feed.itemsById this) itemId.
Proof.
  intros [Hfiled _] Hget.
  destruct (Hfiled _ _ Hget) as (bucket & Hb & Hocc).
  destruct (occurrences_indexOf _ _ Hocc) as [subIndex Hidx].
  eexists. split; [by apply (removeChild_found itemId item bucket subIndex)|].
  done.
Qed.

Lemma removals_return old created w :
  well_keyed (Feed.this_feed w) ∧ index_agree (Feed.this_feed w) →
  Feed.itemsById (Feed.this_feed w) = (old ++ created)%list →
  ∃ w',
    forEach (fun itemId => Feed.on_feed (Feed.removeChild itemId))
      (JsMap.keys old) w = (Return tt, w') ∧
    Feed.itemsById (Feed.this_feed w') = created.
Proof.
  revert w. induction old as [|[itemId item] old IH]; intros w Hinv Hby.
  { exists w. by destruct w. }
  assert (Hget : JsMap.get (Feed.itemsById (Feed.this_feed w)) itemId
                 = Some item).
  { rewrite Hby. simpl. by rewrite decide_True. }
  destruct (removeChild_filed itemId item _ (proj2 Hinv) Hget)
    as (this' & Hrm & Hby').
  pose proof (lock_step_removeChild itemId _ Hinv) as Hinv'.
  change (JsMap.keys ((itemId, item) :: old))
    with (itemId :: JsMap.keys old).
  rewrite forEach_removeChild_cons, Hrm. rewrite Hrm in Hinv'.
  apply IH; [done|]. simpl. rewrite Hby', Hby. simpl.
  by rewrite decide_True.
Qed.

Section UpdateReturns.

Variable Date_parse : string → option Z.

Lemma parses_returns elem n :
  parses Date_parse elem →
  ∃ item n', FeedItem.parse Date_parse elem n = (Return item, n').
Proof.
  intros [Hfields Hstart].
  destruct (parse_outcomes Date_parse elem n)
    as [[Hm _]|[(_ & Hs & _)|(_ & item & n' & Hp & _)]]; [done..|eauto].
Qed.

Lemma update_loop_returns childElems changed w :
  (∀ elem, elem ∈ childElems → parses Date_parse elem) →
  ∃ changed1 w1 created,
    Feed.update_loop Date_parse childElems changed w = (Return changed1, w1) ∧
    Feed.itemsById (Feed.this_feed w1)
    = (Feed.itemsById (Feed.this_feed w) ++ created)%list ∧
    (changed1 = true ↔ changed = true ∨ created ≠ []).
Proof.
  revert changed w.
  induction childElems as [|childElem rest IH]; intros changed w Hall.
  { exists changed, w, []. rewrite app_nil_r. split_and!; [done..|].
    split; [by left|]. by intros [?|?]. }
  assert (Hrest : ∀ elem, elem ∈ rest → parses Date_parse elem).
  { intros elem Hin. apply Hall. by right. }
  destruct (parses_returns childElem (Feed.next_ref w)) as (item & n' & Hp).
  { apply Hall. left. }
  rewrite update_loop_cons, (parseChild_return Date_parse _ _ _ _ Hp).
  destruct (JsMap.has _ _) eqn:Hhas.
  - destruct (IH changed (Feed.mkWorld n' (Feed.this_feed w)) Hrest)
      as (changed1 & w1 & created & Hloop & Hby & Hch).
    by exists changed1, w1, created.
  - destruct (IH true
                (Feed.mkWorld n' (addChild_result item (Feed.this_feed w)))
                Hrest)
      as (changed1 & w1 & created & Hloop & Hby & Hch).
    exists changed1, w1, ((FeedItem.id item, item) :: created).
    split_and!; [done| |].
    + rewrite Hby. simpl.
      rewrite JsMap_set_new by (by apply JsMap_has_false).
      by rewrite <- app_assoc.
    + split; [by right|]. intros _. apply Hch. by left.
Qed.

End UpdateReturns.

(** X5. When the two indices agree, the document passes the gate of the
    build date and every entry parses, [update] returns: its removals never
    throw. It returns the ids the feed held before the call. After it
    [itemsById] has an id exactly when the feed did not hold the id before
    and an entry of the document parses into an item of that id: what this
    call created, and nothing else. Every id that was there before is gone,
    also the ids that an entry of the document confirmed. The flag is true
    exactly when the feed held an item before or an entry of the document
    has an id the feed did not hold. *)
Theorem update_replaces_items
    (Date_parse : string → option Z) doc channel buildEl w :
  well_keyed (Feed.this_feed w) → index_agree (Feed.this_feed w) →
  Dom.querySelector doc "channel" = Some channel →
  Dom.querySelector channel "lastBuildDate" = Some buildEl →
  date_gt (mkDate (Feed.next_ref w) (Date_parse (Dom.textContent buildEl)))
    (Feed.buildDate (Feed.this_feed w)) = false →
  (∀ elem, elem ∈ Dom.querySelectorAll channel "item" →
           parses Date_parse elem) →
  ∃ changed w',
    Feed.update Date_parse doc w
    = (Return (changed, JsMap.keys (Feed.itemsById (Feed.this_feed w))), w') ∧
    (∀ itemId,
       JsMap.has (Feed.itemsById (Feed.this_feed w')) itemId = true ↔
       JsMap.has (Feed.itemsById (Feed.this_feed w)) itemId = false ∧
       ∃ elem item m,
         elem ∈ Dom.querySelectorAll channel "item" ∧
         FeedItem.parse Date_parse elem 0%nat = (Return item, m) ∧
         FeedItem.id item = itemId) ∧
    (changed = true ↔
     Feed.itemsById (Feed.this_feed w) ≠ [] ∨
     ∃ elem item m,
       elem ∈ Dom.querySelectorAll channel "item" ∧
       FeedItem.parse Date_parse elem 0%nat = (Return item, m) ∧
       JsMap.has (Feed.itemsById (Feed.this_feed w)) (FeedItem.id item)
       = false) ∧
    (∀ itemId, itemId ∈ JsMap.keys (Feed.itemsById (Feed.this_feed w)) →
               JsMap.has (Feed.itemsById (Feed.this_feed w')) itemId = false).
Proof.
  intros Hwk Hag Hch Hbuild Hgate Hall.
  rewrite (update_eq Date_parse doc channel buildEl w Hch Hbuild).
  cbv zeta. rewrite Hgate.
  set (w0 := Feed.mkWorld (S (Feed.next_ref w)) (Feed.this_feed w)).
  destruct (update_loop_returns Date_parse _ false w0 Hall)
    as (changed1 & w1 & created & Hloop & Hby & Hchanged).
  pose proof (update_loop_lock_step Date_parse
                (Dom.querySelectorAll channel "item") false w0
                (conj Hwk Hag)) as Hinv1.
  destruct (update_loop_filed Date_parse _ _ _ _ _ Hloop) as [_ Hiff].
  rewrite Hloop in *. simpl in Hinv1, Hby, Hiff.
  destruct (removals_return _ created w1 Hinv1 Hby) as (w2 & Hrm & Hby2).
  rewrite Hrm.
  assert (Hdisj : ∀ itemId,
            JsMap.has created itemId = true →
            JsMap.has (Feed.itemsById (Feed.this_feed w)) itemId = false).
  { intros itemId [v Hget%JsMap_get_Some_key]%JsMap_has_true.
    apply JsMap_has_false, JsMap_get_None. intros Hin.
    destruct Hinv1 as [(Hnd & _) _]. rewrite Hby in Hnd.
    unfold JsMap.keys in Hnd. rewrite map_app in Hnd.
    apply NoDup_app in Hnd as (_ & Hd & _). by apply (Hd itemId). }
  assert (Hcreated : ∀ itemId,
            JsMap.has created itemId = true ↔
            JsMap.has (Feed.itemsById (Feed.this_feed w)) itemId = false ∧
            ∃ elem item m,
              elem ∈ Dom.querySelectorAll channel "item" ∧
              FeedItem.parse Date_parse elem 0%nat = (Return item, m) ∧
              FeedItem.id item = itemId).
  { intros itemId. split.
    - intros Hc. pose proof (Hdisj _ Hc) as Hold. split; [done|].
      destruct (proj1 (Hiff itemId)) as [Ht|?]; [|congruence|done].
      rewrite Hby. apply JsMap_has_app. by right.
    - intros [Hold Hex].
      assert (Hw1 : JsMap.has (Feed.itemsById (Feed.this_feed w1)) itemId
                    = true) by (apply Hiff; by right).
      rewrite Hby in Hw1. apply JsMap_has_app in Hw1 as [?|?];
        [congruence|done]. }
  eexists _, w2. split_and!; [reflexivity| | |].
  - intros itemId. by rewrite Hby2.
  - unfold JsMap.keys. rewrite length_map.
    destruct (Feed.itemsById (Feed.this_feed w)) as [|entry old] eqn:Hold;
      simpl; [|split; [by left|done]].
    rewrite Hchanged. split.
    + intros [?|Hne]; [done|]. right.
      destruct created as [|[itemId item] created]; [done|].
      destruct (proj1 (Hcreated itemId)) as (_ & elem & item' & m & ? & ? & <-).
      { unfold JsMap.has. simpl. by rewrite decide_True. }
      by exists elem, item', m.
    + intros [?|(elem & item & m & Hin & Hp & _)]; [done|]. right.
      intros ->. 
      assert (JsMap.has (@nil (string * FeedItem.t)) (FeedItem.id item) = true)
        as Hf; [|done].
      apply Hcreated. split; [done|]. by exists elem, item, m.
  - intros itemId Hin. rewrite Hby2.
    destruct (JsMap.has created itemId) eqn:Hc; [|done].
    apply Hdisj in Hc. apply JsMap_has_false, JsMap_get_None in Hc. done.
Qed.

(** ** [sortedStartTimes] *)

Lemma sort_insert_Permutation x l :
  JsArray.sort_insert Feed.by_getTime x l ≡ₚ x :: l.
Proof.
  induction l as [|y l IH]; simpl; [done|].
  destruct (JsArray.sorts_after Feed.by_getTime x y); [|done].
  rewrite IH. apply Permutation_swap.
Qed.

Lemma sort_Permutation l : JsArray.sort Feed.by_getTime l ≡ₚ l.
Proof.
  induction l as [|x l IH]; simpl; [done|].
  by rewrite sort_insert_Permutation, IH.
Qed.

(** A date goes in after the dates that are earlier only: among the dates
    of one time value the order of the array is kept. *)
Lemma sort_insert_stable t x l :
  is_invalid_date x = false →
  Forall (fun d => is_invalid_date d = false) l →
  filter (fun d => getTime d = Some t)
    (JsArray.sort_insert Feed.by_getTime x l)
  = filter (fun d => getTime d = Some t) (x :: l).
Proof.
  intros Hx Hl. induction Hl as [|y l Hy Hl IH]; simpl; [done|].
  destruct (JsArray.sorts_after Feed.by_getTime x y) eqn:Hc; [|done].
  rewrite filter_cons, IH, !filter_cons.
  destruct (valid_date_time _ Hx) as [tx Htx].
  destruct (valid_date_time _ Hy) as [ty Hty].
  unfold JsArray.sorts_after, Feed.by_getTime in Hc.
  rewrite Htx, Hty in Hc. apply bool_decide_eq_true in Hc.
  destruct (decide (getTime y = Some t)) as [Hyt|Hyt];
    destruct (decide (getTime x = Some t)) as [Hxt|Hxt]; try done.
  exfalso. rewrite Hyt in Hty. rewrite Hxt in Htx. simplify_eq. lia.
Qed.

Lemma sort_stable t l :
  Forall (fun d => is_invalid_date d = false) l →
  filter (fun d => getTime d = Some t) (JsArray.sort Feed.by_getTime l)
  = filter (fun d => getTime d = Some t) l.
Proof.
  induction 1 as [|x l Hx Hl IH]; simpl; [done|].
  rewrite sort_insert_stable; [|done|].
  - by rewrite !filter_cons, IH.
  - rewrite Forall_forall in Hl. apply Forall_forall.
    intros d Hd. apply (proj1 (sort_elem _ _)) in Hd. by apply Hl.
Qed.

Lemma spread_yield {G A} (next : G → GenStep A * G) fuel g v g' l :
  next g = (Yield v, g') →
  spread next fuel g' = Some (Return l) →
  spread next (S fuel) g = Some (Return (v :: l)).
Proof. intros Hn Hs. by rewrite spread_S, Hn, Hs. Qed.

Lemma spread_sortedStartTimes_yielding this dts :
  spread (Feed.sortedStartTimes_next this) (S (length dts))
    (Feed.StartTimes_yielding dts) = Some (Return dts).
Proof.
  induction dts as [|dt dts IH]; [done|].
  cbn [length]. by apply (spread_yield _ _ _ dt (Feed.StartTimes_yielding dts)).
Qed.

Lemma spread_sortedStartTimes this :
  spread (Feed.sortedStartTimes_next this)
    (S (length (JsMap.keys (Feed.itemsByStartTime this))))
    Feed.sortedStartTimes
  = Some (Return (Feed.sorted_keys this)).
Proof.
  assert (Hlen : length (JsMap.keys (Feed.itemsByStartTime this))
                 = length (Feed.sorted_keys this)).
  { unfold Feed.sorted_keys. by rewrite sort_Permutation. }
  rewrite Hlen.
  pose proof (spread_sortedStartTimes_yielding this (Feed.sorted_keys this))
    as Hs.
  rewrite spread_S in Hs. rewrite spread_S. exact Hs.
Qed.

(** X6. A traversal of [sortedStartTimes()] ends and yields every key of
    [itemsByStartTime] exactly once: the yielded dates are a rearrangement
    of the keys. When the keys are points in time they come in
    non-decreasing order of their time values, and keys of one time value
    come in the order in which they were put into the map. *)
Theorem sortedStartTimes_yields_keys (this : Feed.t) :
  spread (Feed.sortedStartTimes_next this)
    (S (length (JsMap.keys (Feed.itemsByStartTime this))))
    Feed.sortedStartTimes = Some (Return (Feed.sorted_keys this)) ∧
  Feed.sorted_keys this ≡ₚ JsMap.keys (Feed.itemsByStartTime this) ∧
  (keys_valid this →
   StronglySorted le_time (Feed.sorted_keys this) ∧
   ∀ t, filter (fun d => getTime d = Some t) (Feed.sorted_keys this)
        = filter (fun d => getTime d = Some t)
            (JsMap.keys (Feed.itemsByStartTime this))).
Proof.
  split_and!.
  - apply spread_sortedStartTimes.
  - apply sort_Permutation.
  - intros Hv. split; [by apply sorted_keys_sorted|].
    intros t. apply sort_stable, Forall_forall. exact Hv.
Qed.

(** ** Feeds made by [Feed.parse] *)

Section FeedParse.

Variable Date_parse : string → option Z.

Lemma parse_return_refs elem n item n' :
  FeedItem.parse Date_parse elem n = (Return item, n') →
  n' = S (S (S (S n))) ∧ date_ref (FeedItem.startTime item) = S n.
Proof.
  rewrite parse_eq.
  repeat (cbv zeta;
          match goal with
          | |- context [match ?x with Some _ => _ | None => _ end] =>
              destruct x; [|done]
          end).
  by intros [= <- <-].
Qed.

Lemma parse_next_ref_le elem n :
  (n ≤ snd (FeedItem.parse Date_parse elem n))%nat.
Proof.
  rewrite parse_eq.
  repeat (cbv zeta;
          match goal with
          | |- context [match ?x with Some _ => _ | None => _ end] =>
              destruct x; [|simpl; lia]
          end).
  simpl. lia.
Qed.

Lemma keys_below_le n m this :
  (n ≤ m)%nat → keys_below n this → keys_below m this.
Proof. intros Hle Hb dt Hin. specialize (Hb dt Hin). lia. Qed.

Lemma fresh_world_new title link buildDate description n :
  fresh_world (Feed.mkWorld n (Feed.new title link buildDate description)).
Proof.
  unfold fresh_world. simpl. split_and!.
  - apply well_keyed_new.
  - apply index_agree_new.
  - intros dt Hin. by apply elem_of_nil in Hin.
  - intros dt bucket Hget. done.
  - intros dt Hin. by apply elem_of_nil in Hin.
Qed.

Lemma parseChild_fresh_world elem w :
  fresh_world w → fresh_world (snd (Feed.parseChild Date_parse elem w)).
Proof.
  intros (Hwk & Hag & Hv & Hsingle & Hbelow).
  pose proof (parse_next_ref_le elem (Feed.next_ref w)) as Hle.
  destruct (parseChild_cases Date_parse elem w)
    as [(e & n' & Hc & He)|[(item & n' & Hp & _ & Hc)
                           |(item & n' & Hp & Hfresh & Hc)]];
    rewrite Hc; unfold fresh_world; simpl.
  - assert (Hn : (Feed.next_ref w ≤ n')%nat).
    { unfold Feed.parseChild, bind, Feed.on_heap in Hc.
      destruct (FeedItem.parse Date_parse elem (Feed.next_ref w))
        as [[item|e'] n''] eqn:Hp; simpl in *.
      - by destruct (JsMap.has _ _).
      - by injection Hc as _ <-. }
    split_and!; try done. by apply (keys_below_le (Feed.next_ref w)).
  - rewrite Hp in Hle. simpl in Hle.
    split_and!; try done. by apply (keys_below_le (Feed.next_ref w)).
  - destruct (parse_return_refs _ _ _ _ Hp) as [-> Href].
    assert (Hnew : JsMap.get (Feed.itemsByStartTime (Feed.this_feed w))
                     (FeedItem.startTime item) = None).
    { apply JsMap_get_None. intros Hin. specialize (Hbelow _ Hin). lia. }
    split_and!.
    + by apply well_keyed_addChild.
    + by apply index_agree_addChild.
    + intros dt [->|Hin]%addChild_keys; [|by apply Hv].
      by apply (parse_start_valid Date_parse elem (Feed.next_ref w) item _ Hp).
    + intros dt bucket. simpl.
      destruct (decide (FeedItem.startTime item = dt)) as [<-|Hne].
      * rewrite JsMap_get_set_eq, Hnew. intros [= <-]. by exists item.
      * rewrite JsMap_get_set_ne by done. apply Hsingle.
    + intros dt [->|Hin]%addChild_keys; [lia|].
      specialize (Hbelow _ Hin). lia.
Qed.

Lemma forEach_parseChild_cons item items w :
  forEach (fun item => let* _ := Feed.parseChild Date_parse item in ret tt)
    (item :: items) w
  = match Feed.parseChild Date_parse item w with
    | (Return _, w') =>
        forEach
          (fun item => let* _ := Feed.parseChild Date_parse item in ret tt)
          items w'
    | (Throw e, w') => (Throw e, w')
    end.
Proof.
  simpl. unfold bind at 1. unfold bind at 1. unfold ret.
  by destruct (Feed.parseChild Date_parse item w) as [[r|e] w'].
Qed.

Lemma forEach_parseChild_fresh_world items w :
  fresh_world w →
  fresh_world
    (snd (forEach
            (fun item => let* _ := Feed.parseChild Date_parse item in ret tt)
            items w)).
Proof.
  revert w. induction items as [|item items IH]; intros w Hw; [done|].
  rewrite forEach_parseChild_cons.
  pose proof (parseChild_fresh_world item w Hw) as Hw'.
  destruct (Feed.parseChild Date_parse item w) as [[r|e] w']; simpl in *;
    [by apply IH|done].
Qed.

(** What [Feed.parse] returns is the feed of the world that the entries
    were parsed into, starting from a new feed. *)
Lemma Feed_parse_returns doc n feed n' :
  Feed.parse Date_parse doc n = (Return feed, n') →
  ∃ title link buildDate description channel,
    Dom.querySelector doc "channel" = Some channel ∧
    feed = Feed.this_feed
             (snd (forEach
                     (fun item =>
                        let* _ := Feed.parseChild Date_parse item in ret tt)
                     (Dom.querySelectorAll channel "item")
                     (Feed.mkWorld (S n)
                        (Feed.new title link buildDate description)))).
Proof.
  unfold Feed.parse.
  destruct (Dom.querySelector doc "channel") as [channel|]; [|done].
  rewrite !getElemText_selector by reflexivity.
  unfold bind, liftO, parsePubDate, new_Date.
  destruct (Dom.querySelector channel "title") as [titleEl|]; [|done].
  destruct (Dom.querySelector channel "link") as [linkEl|]; [|done].
  destruct (Dom.querySelector channel "lastBuildDate") as [buildEl|]; [|done].
  destruct (Dom.querySelector channel "description") as [descEl|]; [|done].
  destruct (forEach _ _ _) as [[[]|e] w] eqn:Hloop; [|done].
  intros [= <- <-]. eexists _, _, _, _, channel. split; [done|].
  by rewrite Hloop.
Qed.

Lemma Feed_parse_fresh doc n feed n' :
  Feed.parse Date_parse doc n = (Return feed, n') →
  well_keyed feed ∧ index_agree feed ∧ keys_valid feed ∧ single_buckets feed.
Proof.
  intros (title & link & buildDate & description & channel & _ & ->)
    %Feed_parse_returns.
  destruct (forEach_parseChild_fresh_world
              (Dom.querySelectorAll channel "item")
              (Feed.mkWorld (S n) (Feed.new title link buildDate description)))
    as (? & ? & ? & ? & _); [apply fresh_world_new|done].
Qed.

End FeedParse.

(** X7. In the feed that [Feed.parse] returns the two indices agree, every
    key of [itemsByStartTime] is a point in time, and every bucket holds
    exactly one item: each parsed item has a [Date] object of its own, so no
    two items ever share a bucket, whatever their start times. *)
Theorem Feed_parse_makes_single_buckets
    (Date_parse : string → option Z) doc n feed n' :
  Feed.parse Date_parse doc n = (Return feed, n') →
  index_agree feed ∧ keys_valid feed ∧ single_buckets feed.
Proof.
  intros Hp. destruct (Feed_parse_fresh Date_parse doc n feed n' Hp)
    as (_ & ? & ? & ?). done.
Qed.

(** ** Traversals of a feed without holes *)

Lemma single_buckets_no_holes this : single_buckets this → no_holes this.
Proof.
  intros Hs dt bucket Hget Hin. destruct (Hs _ _ Hget) as [item ->].
  by apply list_elem_of_singleton in Hin.
Qed.

Lemma occurrences_app item l1 l2 :
  occurrences item (l1 ++ l2)
  = (occurrences item l1 + occurrences item l2)%nat.
Proof. unfold occurrences. by rewrite filter_app, length_app. Qed.

Lemma bucket_of_elem this dt item :
  well_keyed this → Some item ∈ bucket_of this dt →
  dt = FeedItem.startTime item.
Proof.
  intros (_ & _ & _ & Hkey). unfold bucket_of.
  destruct (JsMap.get (Feed.itemsByStartTime this) dt) as [b|] eqn:Hb; simpl.
  - by apply Hkey.
  - by intros ?%elem_of_nil.
Qed.

(** Over keys that are not repeated an item is counted in the bucket of
    its own start time only. *)
Lemma occurrences_buckets this item dts :
  well_keyed this → NoDup dts →
  occurrences item (flat_map (bucket_of this) dts)
  = if decide (FeedItem.startTime item ∈ dts)
    then occurrences item (bucket_of this (FeedItem.startTime item))
    else 0%nat.
Proof.
  intros Hwk Hnd. induction Hnd as [|dt dts Hnotin Hnd IH].
  { rewrite decide_False; [done|apply not_elem_of_nil]. }
  cbn [flat_map]. rewrite occurrences_app, IH.
  destruct (decide (dt = FeedItem.startTime item)) as [->|Hne].
  - destruct (decide (FeedItem.startTime item ∈ dts)) as [|_]; [done|].
    destruct (decide (FeedItem.startTime item
                      ∈ FeedItem.startTime item :: dts)) as [_|Hn]; [lia|].
    exfalso. apply Hn. left.
  - assert (Hz : occurrences item (bucket_of this dt) = 0%nat).
    { apply occurrences_zero. intros Hin.
      by apply (bucket_of_elem this dt item Hwk) in Hin. }
    rewrite Hz. simpl.
    destruct (decide (FeedItem.startTime item ∈ dts)) as [Hin|Hnin].
    + rewrite decide_True; [done|by right].
    + rewrite decide_False; [done|].
      intros [?|?]%elem_of_cons; [congruence|done].
Qed.

Lemma sorted_keys_NoDup this :
  well_keyed this → NoDup (Feed.sorted_keys this).
Proof.
  intros (_ & Hnd & _). unfold Feed.sorted_keys.
  by rewrite sort_Permutation.
Qed.

Lemma filed_once_in_order this itemId item :
  well_keyed this → index_agree this →
  JsMap.get (Feed.itemsById this) itemId = Some item →
  occurrences item (items_in_order this) = 1%nat.
Proof.
  intros Hwk [Hfiled _] Hget.
  destruct (Hfiled _ _ Hget) as (bucket & Hb & Hocc).
  unfold items_in_order.
  rewrite occurrences_buckets by (done || by apply sorted_keys_NoDup).
  rewrite decide_True.
  - unfold bucket_of. by rewrite Hb.
  - unfold Feed.sorted_keys. apply sort_elem.
    by apply JsMap_get_Some_key in Hb.
Qed.

Lemma in_order_filed this o :
  index_agree this → no_holes this → o ∈ items_in_order this →
  ∃ item, o = Some item ∧
          JsMap.get (Feed.itemsById this) (FeedItem.id item) = Some item.
Proof.
  intros [_ Hbucket] Hnh Hin.
  apply list_elem_of_In, in_flat_map in Hin as (dt & _ & Hin).
  apply list_elem_of_In in Hin. unfold bucket_of in Hin.
  destruct (JsMap.get (Feed.itemsByStartTime this) dt) as [b|] eqn:Hb;
    simpl in Hin; [|by apply elem_of_nil in Hin].
  destruct o as [item|]; [|by destruct (Hnh _ _ Hb)].
  exists item. split; [done|]. by apply (Hbucket dt b).
Qed.

(** X8. In a feed whose indices agree and whose buckets have no hole, a
    traversal of [sortedItems()] ends and yields items only, and every item
    filed in [itemsById] exactly once; when the keys are points in time the
    items come in non-decreasing order of their start times. *)
Theorem sortedItems_lists_filed_items (this : Feed.t) :
  well_keyed this → index_agree this → no_holes this →
  ∃ l,
    spread (Feed.sortedItems_next this) (S (length l)) Feed.sortedItems
    = Some (Return l) ∧
    (∀ o, o ∈ l →
          ∃ item, o = Some item ∧
                  JsMap.get (Feed.itemsById this) (FeedItem.id item)
                  = Some item) ∧
    (∀ itemId item,
       JsMap.get (Feed.itemsById this) itemId = Some item →
       occurrences item l = 1%nat) ∧
    (keys_valid this → nondecreasing_starts l).
Proof.
  intros Hwk Hag Hnh. exists (items_in_order this). split_and!.
  - by apply (spread_sortedItems this Feed.Items_new).
  - intros o. by apply in_order_filed.
  - intros itemId item. by apply filed_once_in_order.
  - by apply items_in_order_sorted.
Qed.

(** ** [nextItem] *)

Lemma nextItem_head this :
  Feed.nextItem this = Return (head (items_in_order this)).
Proof.
  unfold Feed.nextItem, Feed.sortedItems.
  pose proof (sortedItems_next_step this Feed.Items_new I) as Hstep.
  destruct (Feed.sortedItems_next this Feed.Items_new) as [[v| |e] g'].
  - destruct Hstep as [Hrest _]. simpl in Hrest. by rewrite Hrest.
  - destruct Hstep as [Hrest _]. simpl in Hrest. by rewrite Hrest.
  - done.
Qed.

(** X9. In a feed whose indices agree, whose buckets have no hole and
    whose keys are points in time, [nextItem()] returns [undefined] when no
    item is filed, and else a filed item that starts no later than any
    other filed item. *)
Theorem nextItem_is_earliest (this : Feed.t) :
  well_keyed this → index_agree this → no_holes this → keys_valid this →
  (Feed.itemsById this = [] → Feed.nextItem this = Return None) ∧
  (Feed.itemsById this ≠ [] →
   ∃ item,
     Feed.nextItem this = Return (Some (Some item)) ∧
     JsMap.get (Feed.itemsById this) (FeedItem.id item) = Some item ∧
     ∀ itemId item',
       JsMap.get (Feed.itemsById this) itemId = Some item' →
       le_time (FeedItem.startTime item) (FeedItem.startTime item')).
Proof.
  intros Hwk Hag Hnh Hv. rewrite nextItem_head. split.
  - intros Hempty.
    destruct (items_in_order this) as [|o l] eqn:Hl; [done|].
    destruct (in_order_filed this o Hag Hnh) as (item & _ & Hget).
    { rewrite Hl. left. }
    by rewrite Hempty in Hget.
  - intros Hne.
    destruct (Feed.itemsById this) as [|[itemId0 item0] rest] eqn:Hby;
      [done|].
    assert (Hget0 : JsMap.get (Feed.itemsById this) itemId0 = Some item0).
    { rewrite Hby. simpl. by rewrite decide_True. }
    pose proof (filed_once_in_order this _ _ Hwk Hag Hget0) as Hocc0.
    destruct (items_in_order this) as [|o l] eqn:Hl; [done|].
    destruct (in_order_filed this o Hag Hnh) as (item & -> & Hget).
    { rewrite Hl. left. }
    exists item. split_and!; [done|by rewrite <- Hby|].
    intros itemId item' Hget'. rewrite <- Hby in Hget'.
    pose proof (filed_once_in_order this _ _ Hwk Hag Hget') as Hocc.
    assert (Hin : Some item' ∈ items_in_order this).
    { destruct (decide (Some item' ∈ items_in_order this)) as [|Hn]; [done|].
      apply occurrences_zero in Hn. lia. }
    apply list_elem_of_lookup in Hin as [j Hj].
    pose proof (items_in_order_sorted this Hwk Hv) as Hsorted.
    destruct j as [|j].
    + rewrite Hl in Hj. injection Hj as ->.
      apply le_time_refl, Hv.
      destruct Hag as [Hfiled _].
      destruct (Hfiled _ _ Hget') as (b & Hb & _).
      by apply JsMap_get_Some_key in Hb.
    + apply (Hsorted 0%nat (S j) (Some item) (Some item'));
        [lia|by rewrite Hl|done|done|done].
Qed.

(** ** [addChild] and [removeChild] together *)

Lemma JsMap_delete_set_new {K V : Type} `{EqDecision K}
    (m : JsMap.t K V) k v :
  JsMap.get m k = None → JsMap.delete (JsMap.set m k v) k = m.
Proof.
  induction m as [|[k0 v0] m IH]; simpl.
  - intros _. by rewrite decide_True.
  - destruct (decide (k = k0)) as [->|Hne]; [done|]. intros Hg. simpl.
    rewrite decide_False by done. by rewrite IH.
Qed.

Lemma indexOf_push_fresh (bucket : list (option FeedItem.t)) item :
  Some item ∉ bucket →
  JsArray.indexOf (JsArray.push bucket item) item = Some (length bucket).
Proof.
  unfold JsArray.push. induction bucket as [|o bucket IH]; simpl.
  - intros _. by rewrite decide_True.
  - intros [Hne Hnotin]%not_elem_of_cons.
    rewrite decide_False by done. by rewrite IH.
Qed.

Lemma delete_at_push (bucket : list (option FeedItem.t)) item :
  JsArray.delete_at (JsArray.push bucket item) (length bucket)
  = (bucket ++ [None])%list.
Proof.
  unfold JsArray.delete_at, JsArray.push.
  induction bucket as [|o bucket IH]; simpl; [done|]. by rewrite IH.
Qed.

(** X10. In a feed whose indices agree, [addChild] of an item whose id is
    free followed by [removeChild] of that id returns, and [itemsById] is
    again what it was, entry for entry; but [itemsByStartTime] is not: the
    bucket of the item's start time is the old one followed by a hole, made
    new if the key was not there. *)
Theorem addChild_then_removeChild item this :
  index_agree this →
  JsMap.has (Feed.itemsById this) (FeedItem.id item) = false →
  Feed.removeChild (FeedItem.id item) (snd (Feed.addChild item this))
  = (Return tt,
     Feed.mk (Feed.title this) (Feed.link this) (Feed.buildDate this)
       (Feed.description this)
       (JsMap.set (Feed.itemsByStartTime this) (FeedItem.startTime item)
          (bucket_of this (FeedItem.startTime item) ++ [None])%list)
       (Feed.itemsById this)).
Proof.
  intros [_ Hbucket] Hfresh%JsMap_has_false.
  rewrite addChild_eq. simpl.
  assert (Hnew : Some item ∉ bucket_of this (FeedItem.startTime item)).
  { unfold bucket_of. intros Hin.
    destruct (JsMap.get (Feed.itemsByStartTime this) (FeedItem.startTime item))
      as [b|] eqn:Hb; simpl in Hin; [|by apply elem_of_nil in Hin].
    specialize (Hbucket _ _ _ Hb Hin). congruence. }
  rewrite (removeChild_found (FeedItem.id item) item
             (JsArray.push (bucket_of this (FeedItem.startTime item)) item)
             (length (bucket_of this (FeedItem.startTime item)))).
  - unfold removeChild_result, addChild_result. simpl.
    rewrite JsMap_set_set, delete_at_push.
    by rewrite JsMap_delete_set_new.
  - simpl. apply JsMap_get_set_eq.
  - simpl. apply JsMap_get_set_eq.
  - by apply indexOf_push_fresh.
Qed.

(** X11. In a feed whose indices agree and whose ids are not repeated,
    [removeChild] of a filed id returns; afterwards the id is not filed, and
    every other id is filed with the item it had. *)
Theorem removeChild_takes_out_one_id itemId item this :
  well_keyed this → index_agree this →
  JsMap.get (Feed.itemsById this) itemId = Some item →
  fst (Feed.removeChild itemId this) = Return tt ∧
  JsMap.has (Feed.itemsById (snd (Feed.removeChild itemId this))) itemId
  = false ∧
  ∀ itemId', itemId' ≠ itemId →
    JsMap.get (Feed.itemsById (snd (Feed.removeChild itemId this))) itemId'
    = JsMap.get (Feed.itemsById this) itemId'.
Proof.
  intros (Hnd & _) Hag Hget.
  destruct (removeChild_filed itemId item this Hag Hget)
    as (this' & -> & Hby).
  simpl. rewrite Hby. split_and!; [done| |].
  - apply JsMap_has_false. by apply JsMap_get_delete_eq.
  - intros itemId' Hne. by apply JsMap_get_delete_ne.
Qed.

(** ** [parseChild] on an entry seen before *)

(** X12. When [parseChild] has returned for an entry, a second
    [parseChild] of the same entry creates nothing: it returns [false] with
    the item that is filed under the id of the entry, the one the first call
    returned, and leaves the feed as the first call left it. *)
Theorem parseChild_twice
    (Date_parse : string → option Z) elem w created item w1 :
  Feed.parseChild Date_parse elem w = (Return (created, Some item), w1) →
  fst (Feed.parseChild Date_parse elem w1) = Return (false, Some item) ∧
  Feed.this_feed (snd (Feed.parseChild Date_parse elem w1))
  = Feed.this_feed w1.
Proof.
  intros Hfirst.
  assert (∃ item0 n0 ,
            FeedItem.parse Date_parse elem (Feed.next_ref w)
            = (Return item0, n0) ∧
            JsMap.get (Feed.itemsById (Feed.this_feed w1)) (FeedItem.id item0)
            = Some item) as (item0 & n0 & Hp & Hget).
  { destruct (parseChild_cases Date_parse elem w)
      as [(e & n' & Hc & _)|[(item0 & n' & Hp & Hhas & Hc)
                            |(item0 & n' & Hp & Hhas & Hc)]];
      rewrite Hc in Hfirst; [done| |].
    - injection Hfirst as _ Hget <-. by exists item0, n'.
    - injection Hfirst as _ <- <-. exists item0, n'. split; [done|].
      simpl. apply JsMap_get_set_eq. }
  destruct (parse_same_id Date_parse elem _ (Feed.next_ref w1) _ _ Hp)
    as (item1 & n1 & Hp1 & Hid).
  rewrite (parseChild_return Date_parse _ _ _ _ Hp1), Hid.
  unfold JsMap.has. by rewrite Hget.
Qed.

(** ** main.js: [sortedHtmlElems] and [updateFeed] *)

Section Rendering.

Variable Date_parse : string → option Z.
Variable Html : Type.
Variable buildHtml : FeedItem.t → Outcome Html.
Variable maxItems : option (option Z).

Local Abbreviation next :=
  (MeetingFeed.sortedHtmlElems_next buildHtml maxItems).
Local Abbreviation build_all := (MeetingFeed.build_all buildHtml).
Local Abbreviation within_limit := (MeetingFeed.within_limit maxItems).

Lemma within_limit_nil i : within_limit i [] = [].
Proof.
  unfold MeetingFeed.within_limit.
  destruct maxItems as [[m|]|]; [|done..]. by rewrite take_nil.
Qed.

Lemma within_limit_reached i slots :
  MeetingFeed.limit_reached maxItems i = true → within_limit i slots = [].
Proof.
  unfold MeetingFeed.limit_reached, MeetingFeed.within_limit.
  destruct maxItems as [[m|]|]; [|done..].
  intros Hm%bool_decide_eq_true.
  replace (Z.to_nat m - i)%nat with 0%nat by lia. done.
Qed.

Lemma within_limit_cons i v slots :
  MeetingFeed.limit_reached maxItems i = false →
  within_limit i (v :: slots) = v :: within_limit (S i) slots.
Proof.
  unfold MeetingFeed.limit_reached, MeetingFeed.within_limit.
  destruct maxItems as [[m|]|]; [|done..].
  intros Hm%bool_decide_eq_false.
  replace (Z.to_nat m - i)%nat with (S (Z.to_nat m - S i)) by lia. done.
Qed.

Lemma spread_sortedHtmlElems_from this g i :
  holds_keys this g →
  spread (next this) (S (length (rest_of this g)))
    (MeetingFeed.Html_running g i)
  = Some (build_all (within_limit i (rest_of this g))).
Proof.
  remember (rest_of this g) as l eqn:Hl. revert g i Hl.
  induction l as [|v l IH]; intros g i Hl Hk; rewrite spread_S;
    pose proof (sortedItems_next_step this g Hk) as Hstep;
    cbn [MeetingFeed.sortedHtmlElems_next];
    destruct (Feed.sortedItems_next this g) as [[v'| |e] g']; try done.
  - destruct Hstep as [Hstep _]. congruence.
  - by rewrite within_limit_nil.
  - destruct Hstep as [Hstep Hk']. rewrite <- Hl in Hstep.
    injection Hstep as <- Hrest.
    destruct (MeetingFeed.limit_reached maxItems i) eqn:Hlim.
    { by rewrite within_limit_reached. }
    rewrite within_limit_cons by done.
    destruct v as [it|]; [|done]. cbn [MeetingFeed.build_all].
    destruct (buildHtml it) as [html|e]; [|done].
    cbn [length]. rewrite (IH g' (S i) Hrest Hk').
    by destruct (build_all (within_limit (S i) l)).
  - destruct Hstep as [Hstep _]. congruence.
Qed.

Lemma spread_sortedHtmlElems this :
  spread (next this) (S (length (items_in_order this)))
    MeetingFeed.sortedHtmlElems
  = Some (build_all (within_limit 0 (items_in_order this))).
Proof. by apply (spread_sortedHtmlElems_from this Feed.Items_new 0). Qed.

Lemma build_all_hole slots :
  None ∈ slots → ∃ e, build_all slots = Throw e.
Proof.
  induction slots as [|[it|] slots IH]; simpl.
  - by intros ?%elem_of_nil.
  - intros [?|Hin]%elem_of_cons; [done|].
    destruct (buildHtml it) as [html|e]; [|eauto].
    destruct (IH Hin) as [e ->]. eauto.
  - eauto.
Qed.

Lemma build_all_hole_TypeError slots :
  (∀ it, ∃ html, buildHtml it = Return html) →
  None ∈ slots → build_all slots = Throw TypeError.
Proof.
  intros Hbuild. induction slots as [|[it|] slots IH]; simpl.
  - by intros ?%elem_of_nil.
  - intros [?|Hin]%elem_of_cons; [done|].
    destruct (Hbuild it) as [html ->]. by rewrite (IH Hin).
  - done.
Qed.

End Rendering.

(** X13. A traversal of [sortedHtmlElems()] ends, and what it yields is
    what [buildHtml] makes of the first [maxItems] values of
    [sortedItems()], in their order, all of them when [maxItems] is [null]
    or NaN and none when it is zero or less. It throws a [TypeError] when
    one of these values is a hole, and what [buildHtml] throws when it
    throws; a value beyond the limit is fetched and not built. *)
Theorem sortedHtmlElems_builds_first_items
    (Html : Type) (buildHtml : FeedItem.t → Outcome Html)
    (maxItems : option (option Z)) (this : Feed.t) :
  spread (MeetingFeed.sortedHtmlElems_next buildHtml maxItems this)
    (S (length (items_in_order this))) MeetingFeed.sortedHtmlElems
  = Some (MeetingFeed.build_all buildHtml
            (match maxItems with
             | Some (Some m) => take (Z.to_nat m) (items_in_order this)
             | _ => items_in_order this
             end)) ∧
  ∀ fuel l,
    spread (Feed.sortedItems_next this) fuel Feed.sortedItems
    = Some (Return l) → l = items_in_order this.
Proof.
  split.
  - rewrite spread_sortedHtmlElems. unfold MeetingFeed.within_limit.
    destruct maxItems as [[m|]|]; [|done..]. by rewrite Nat.sub_0_r.
  - intros fuel l Hs.
    pose proof (spread_sortedItems this Feed.Items_new I) as Hall.
    pose proof (spread_deterministic _ _ _ _ _ _ Hs Hall) as Heq.
    by injection Heq.
Qed.

(** ** Holes stay *)

Lemma delete_at_keeps_hole (bucket : list (option FeedItem.t)) i :
  None ∈ bucket → None ∈ JsArray.delete_at bucket i.
Proof.
  unfold JsArray.delete_at. revert i.
  induction bucket as [|o bucket IH]; intros i; [done|].
  destruct i as [|i]; simpl.
  - intros _. left.
  - intros [<-|Hin]%elem_of_cons; [left|right; by apply IH].
Qed.

(** A key whose bucket has a hole. *)
Lemma removeChild_keeps_hole itemId this dt :
  dt ∈ JsMap.keys (Feed.itemsByStartTime this) ∧ None ∈ bucket_of this dt →
  dt ∈ JsMap.keys (Feed.itemsByStartTime (snd (Feed.removeChild itemId this)))
  ∧ None ∈ bucket_of (snd (Feed.removeChild itemId this)) dt.
Proof.
  intros [Hkey Hhole]. rewrite removeChild_keeps_keys. split; [done|].
  destruct (removeChild_cases itemId this)
    as [[e ->]|(item & subArr & subIndex & _ & Hst & _ & ->)]; [done|].
  unfold bucket_of in *. simpl.
  destruct (decide (FeedItem.startTime item = dt)) as [<-|Hne].
  - rewrite JsMap_get_set_eq. simpl. rewrite Hst in Hhole.
    by apply delete_at_keeps_hole.
  - by rewrite JsMap_get_set_ne.
Qed.

(** The removals of [update], when the feed held an item: they return, and
    leave a hole. *)
Lemma removals_leave_hole old created w :
  well_keyed (Feed.this_feed w) ∧ index_agree (Feed.this_feed w) →
  Feed.itemsById (Feed.this_feed w) = (old ++ created)%list →
  old ≠ [] →
  ∃ w',
    forEach (fun itemId => Feed.on_feed (Feed.removeChild itemId))
      (JsMap.keys old) w = (Return tt, w') ∧
    None ∈ items_in_order (Feed.this_feed w').
Proof.
  intros Hinv Hby Hold.
  destruct (removals_return old created w Hinv Hby) as (w' & Hrm & _).
  exists w'. split; [done|].
  destruct old as [|[itemId item] old]; [done|].
  change (JsMap.keys ((itemId, item) :: old))
    with (itemId :: JsMap.keys old) in Hrm.
  rewrite forEach_removeChild_cons in Hrm.
  assert (Hget : JsMap.get (Feed.itemsById (Feed.this_feed w)) itemId
                 = Some item).
  { rewrite Hby. simpl. by rewrite decide_True. }
  destruct Hinv as [_ [Hfiled _]].
  destruct (Hfiled _ _ Hget) as (bucket & Hb & Hocc).
  destruct (occurrences_indexOf _ _ Hocc) as [subIndex Hidx].
  rewrite (removeChild_found itemId item bucket subIndex _ Hget Hb Hidx)
    in Hrm.
  pose proof (removeChild_makes_hole itemId item bucket subIndex _ Hb Hidx)
    as Hhole.
  pose proof (forEach_removeChild_keeps
                (fun this =>
                   FeedItem.startTime item
                     ∈ JsMap.keys (Feed.itemsByStartTime this) ∧
                   None ∈ bucket_of this (FeedItem.startTime item))
                (JsMap.keys old)
                (Feed.mkWorld (Feed.next_ref w)
                   (removeChild_result itemId item bucket subIndex
                      (Feed.this_feed w)))
                (fun itemId' this' =>
                   removeChild_keeps_hole itemId' this'
                     (FeedItem.startTime item))
                Hhole) as Hfinal.
  rewrite Hrm in Hfinal. simpl in Hfinal.
  destruct Hfinal as [Hkey Hnone]. by apply (hole_in_order _ _ Hkey).
Qed.

(** ** [updateFeed] *)

(** X14. When the fetch had no content, [fetchAndUpdate] returns [false],
    and [updateFeed] throws a [TypeError] where it takes the pair apart; the
    feed and the list are what they were. *)
Theorem updateFeed_no_content
    (Date_parse : string → option Z) (Html : Type)
    (buildHtml : FeedItem.t → Outcome Html) (maxItems : option (option Z))
    fuel (page : MeetingFeed.Page Html) :
  MeetingFeed.fetchAndUpdate Date_parse None (MeetingFeed.world page)
  = (Return MeetingFeed.NoContent, MeetingFeed.world page) ∧
  MeetingFeed.updateFeed Date_parse buildHtml maxItems fuel None page
  = Some (Throw TypeError, page).
Proof. by destruct page. Qed.

(** X15. When the feed holds an item, its indices agree, the document
    passes the gate of the build date and every entry parses, [updateFeed]
    without a limit of items empties the list and then throws: the update
    has left a hole for every item the feed held, and the traversal that is
    to fill the list again reads it. The list is left empty; what is thrown
    is a [TypeError] when [buildHtml] itself never throws. *)
Theorem updateFeed_blanks_list
    (Date_parse : string → option Z) (Html : Type)
    (buildHtml : FeedItem.t → Outcome Html) (maxItems : option (option Z))
    doc channel buildEl (page : MeetingFeed.Page Html) :
  well_keyed (Feed.this_feed (MeetingFeed.world page)) →
  index_agree (Feed.this_feed (MeetingFeed.world page)) →
  Feed.itemsById (Feed.this_feed (MeetingFeed.world page)) ≠ [] →
  Dom.querySelector doc "channel" = Some channel →
  Dom.querySelector channel "lastBuildDate" = Some buildEl →
  date_gt (mkDate (Feed.next_ref (MeetingFeed.world page))
             (Date_parse (Dom.textContent buildEl)))
    (Feed.buildDate (Feed.this_feed (MeetingFeed.world page))) = false →
  (∀ elem, elem ∈ Dom.querySelectorAll channel "item" →
           parses Date_parse elem) →
  maxItems = None ∨ maxItems = Some None →
  ∃ e w' fuel0,
    (∀ fuel, (fuel0 ≤ fuel)%nat →
       MeetingFeed.updateFeed Date_parse buildHtml maxItems fuel (Some doc)
         page = Some (Throw e, MeetingFeed.mkPage w' [])) ∧
    snd (Feed.update Date_parse doc (MeetingFeed.world page)) = w' ∧
    ((∀ it, ∃ html, buildHtml it = Return html) → e = TypeError).
Proof.
  destruct page as [w list]. simpl.
  intros Hwk Hag Hne Hch Hbuild Hgate Hall Hmax.
  unfold MeetingFeed.updateFeed, MeetingFeed.fetchAndUpdate, bind. simpl.
  rewrite (update_eq Date_parse doc channel buildEl w Hch Hbuild).
  cbv zeta. rewrite Hgate.
  set (w0 := Feed.mkWorld (S (Feed.next_ref w)) (Feed.this_feed w)).
  destruct (update_loop_returns Date_parse _ false w0 Hall)
    as (changed1 & w1 & created & Hloop & Hby & _).
  pose proof (update_loop_lock_step Date_parse
                (Dom.querySelectorAll channel "item") false w0
                (conj Hwk Hag)) as Hinv1.
  rewrite Hloop in *. simpl in Hinv1, Hby.
  destruct (removals_leave_hole _ created w1 Hinv1 Hby Hne)
    as (w2 & Hrm & Hhole).
  rewrite Hrm.
  assert (Hlen : (0 <? length (JsMap.keys
                                 (Feed.itemsById (Feed.this_feed w))))%nat
                 = true).
  { destruct (Feed.itemsById (Feed.this_feed w)); [done|reflexivity]. }
  rewrite Hlen. simpl.
  pose proof (spread_sortedHtmlElems Html buildHtml maxItems
                (Feed.this_feed w2)) as Hspread.
  assert (Hall_slots : MeetingFeed.within_limit maxItems 0
                         (items_in_order (Feed.this_feed w2))
                       = items_in_order (Feed.this_feed w2)).
  { unfold MeetingFeed.within_limit. by destruct Hmax as [->| ->]. }
  rewrite Hall_slots in Hspread.
  destruct (build_all_hole Html buildHtml _ Hhole) as [e He].
  exists e, w2, (S (length (items_in_order (Feed.this_feed w2)))).
  split_and!; [|done|].
  - intros fuel Hfuel.
    rewrite (spread_more _ _ fuel _ _ Hspread Hfuel). by rewrite He.
  - intros Hbuilds.
    rewrite (build_all_hole_TypeError Html buildHtml _ Hbuilds Hhole) in He.
    by injection He.
Qed.

(** ** The texts that [parse] hands to [Date] *)

Lemma string_of_snoc (l : list ascii) c (s : string) :
  string_of_list_ascii (l ++ [c]) +:+ s
  = string_of_list_ascii l +:+ String c s.
Proof.
  induction l as [|a l IH]; [done|].
  change (string_of_list_ascii ((a :: l) ++ [c]) +:+ s)
    with (String a (string_of_list_ascii (l ++ [c]) +:+ s)).
  by rewrite IH.
Qed.

Lemma string_of_rev_cons c acc (s : string) :
  string_of_list_ascii (rev (c :: acc)) +:+ s
  = string_of_list_ascii (rev acc) +:+ String c s.
Proof. apply string_of_snoc. Qed.

Lemma string_app_cons c (s t : string) :
  String c s +:+ t = String c (s +:+ t).
Proof. reflexivity. Qed.

Lemma string_app_nil_r (s : string) : s +:+ "" = s.
Proof.
  induction s as [|c s IH]; [done|]. by rewrite string_app_cons, IH.
Qed.

Lemma string_app_assoc (s1 s2 s3 : string) :
  s1 +:+ s2 +:+ s3 = (s1 +:+ s2) +:+ s3.
Proof.
  induction s1 as [|c s1 IH]; [done|]. by rewrite !string_app_cons, IH.
Qed.

Lemma index_None_tail sep c s :
  String.index 0 sep (String c s) = None →
  String.prefix sep (String c s) = false ∧ String.index 0 sep s = None.
Proof.
  intros Hidx.
  change (String.index 0 sep (String c s))
    with (if String.prefix sep (String c s) then Some 0%nat
          else match String.index 0 sep s with
               | Some n => Some (S n)
               | None => None
               end) in Hidx.
  destruct (String.prefix sep (String c s)); [done|].
  by destruct (String.index 0 sep s).
Qed.

(** A string without the separator is one piece. *)
Lemma split_go_no_sep sep acc s :
  String.index 0 sep s = None →
  JsString.split_go sep 0 acc s = [string_of_list_ascii (rev acc) +:+ s].
Proof.
  revert acc. induction s as [|c s IH]; intros acc Hidx.
  - simpl. by rewrite string_app_nil_r.
  - apply index_None_tail in Hidx as [Hpre Hidx].
    cbn [JsString.split_go]. rewrite Hpre, IH by done.
    by rewrite string_of_rev_cons.
Qed.

Lemma split_no_sep s sep :
  JsString.indexOf s sep = None → JsString.split s sep = [s].
Proof. intros Hidx. unfold JsString.split. by rewrite split_go_no_sep. Qed.

Lemma prefix_app_long p s t :
  (String.length p ≤ String.length s)%nat →
  String.prefix p (s +:+ t) = String.prefix p s.
Proof.
  revert s. induction p as [|a p IH]; intros [|b s] Hlen.
  - by destruct t.
  - by change (true = true).
  - simpl in Hlen. lia.
  - rewrite string_app_cons.
    change (String.prefix (String a p) (String b (s +:+ t)))
      with (if ascii_dec a b then String.prefix p (s +:+ t) else false).
    change (String.prefix (String a p) (String b s))
      with (if ascii_dec a b then String.prefix p s else false).
    destruct (ascii_dec a b); [|done]. apply IH. simpl in Hlen. lia.
Qed.

Lemma prefix_app_self p s : String.prefix p (p +:+ s) = true.
Proof.
  induction p as [|a p IH].
  - by destruct s.
  - rewrite string_app_cons.
    change (String.prefix (String a p) (String a (p +:+ s)))
      with (if ascii_dec a a then String.prefix p (p +:+ s) else false).
    by destruct (ascii_dec a a).
Qed.

(** A string whose first separator [" - "] comes after [a] splits into [a]
    and the pieces of what follows the separator. *)
Lemma split_go_first acc a b :
  String.index 0 " - " (a +:+ " -") = None →
  JsString.split_go " - " 0 acc (a +:+ " - " +:+ b)
  = (string_of_list_ascii (rev acc) +:+ a) :: JsString.split_go " - " 0 [] b.
Proof.
  revert acc. induction a as [|c a IH]; intros acc Hidx.
  - change ("" +:+ " - " +:+ b) with (String " " (String "-" (String " " b))).
    rewrite string_app_nil_r.
    cbn [JsString.split_go String.length Nat.sub].
    change (String " " (String "-" (String " " b))) with (" - " +:+ b) at 1.
    rewrite prefix_app_self. done.
  - change (String c a +:+ " -") with (String c (a +:+ " -")) in Hidx.
    apply index_None_tail in Hidx as [Hpre Hidx].
    change (String c a +:+ " - " +:+ b) with (String c (a +:+ " - " +:+ b)).
    cbn [JsString.split_go].
    assert (Hpre' : String.prefix " - " (String c (a +:+ " - " +:+ b))
                    = false).
    { rewrite <- string_app_cons.
      change (" - " +:+ b) with (" -" +:+ String " " b).
      rewrite string_app_assoc, prefix_app_long; [done|].
      rewrite string_length_app. simpl. lia. }
    rewrite Hpre', IH by done. by rewrite string_of_rev_cons.
Qed.

Lemma split_first a b :
  JsString.indexOf (a +:+ " -") " - " = None →
  JsString.split (a +:+ " - " +:+ b) " - " = a :: JsString.split b " - ".
Proof. intros Hidx. unfold JsString.split. by rewrite split_go_first. Qed.

Lemma index_app_found sep a b :
  String.prefix sep b = true →
  ∃ i, String.index 0 sep (a +:+ b) = Some i.
Proof.
  intros Hpre. induction a as [|c a [i IH]].
  - destruct b as [|c b]; simpl in *.
    + destruct sep; [eauto|done].
    + rewrite Hpre. eauto.
  - change (String c a +:+ b) with (String c (a +:+ b)).
    cbn [String.index]. destruct (String.prefix sep (String c (a +:+ b)));
      [eauto|]. rewrite IH. eauto.
Qed.

(** X16. How [parse] puts the start and the end text together. With a date
    text that is one date [d] (after trimming) and a times text [t1 - t2],
    the start is parsed from [d t1] and the end from [d t2]. With one time
    [t] only, the start is parsed from [d t] and the end from the date
    alone. With a date text [d1 - d2], the start takes [d1] and the end
    [d2]. *)
Theorem parse_combines_dates_and_times datesText d t1 t2 t d1 d2 :
  (JsString.trim datesText = d →
   JsString.indexOf d " - " = None →
   JsString.indexOf (t1 +:+ " -") " - " = None →
   JsString.indexOf t2 " - " = None →
   start_text datesText (t1 +:+ " - " +:+ t2) = Some (d +:+ " " +:+ t1) ∧
   end_text datesText (t1 +:+ " - " +:+ t2) = Some (d +:+ " " +:+ t2)) ∧
  (JsString.trim datesText = d →
   JsString.indexOf d " - " = None →
   JsString.indexOf t " - " = None →
   start_text datesText t = Some (d +:+ " " +:+ t) ∧
   end_text datesText t = Some d) ∧
  (JsString.trim datesText = d1 +:+ " - " +:+ d2 →
   JsString.indexOf (d1 +:+ " -") " - " = None →
   JsString.indexOf d2 " - " = None →
   JsString.indexOf (t1 +:+ " -") " - " = None →
   JsString.indexOf t2 " - " = None →
   start_text datesText (t1 +:+ " - " +:+ t2) = Some (d1 +:+ " " +:+ t1) ∧
   end_text datesText (t1 +:+ " - " +:+ t2) = Some (d2 +:+ " " +:+ t2)).
Proof.
  unfold start_text, end_text, FeedItem.eventDates_of. split_and!.
  - intros -> Hd Ht1 Ht2. rewrite Hd.
    rewrite (split_first t1 t2 Ht1), (split_no_sep t2 _ Ht2). done.
  - intros -> Hd Ht. rewrite Hd, (split_no_sep t _ Ht). done.
  - intros -> Hd1 Hd2 Ht1 Ht2.
    destruct (index_app_found " - " d1 (" - " +:+ d2)
                (prefix_app_self " - " d2)) as [i Hi].
    unfold JsString.indexOf at 1 2. rewrite Hi.
    rewrite (split_first d1 d2 Hd1), (split_no_sep d2 _ Hd2).
    rewrite (split_first t1 t2 Ht1), (split_no_sep t2 _ Ht2). done.
Qed.

(** ** [Feed.parse]: what it needs to return *)

Section FeedParseReturns.

Variable Date_parse : string → option Z.

Lemma returns_parses elem n item n' :
  FeedItem.parse Date_parse elem n = (Return item, n') →
  parses Date_parse elem.
Proof.
  intros Hp.
  destruct (parse_outcomes Date_parse elem n)
    as [[_ Ht]|[(_ & _ & Ht)|(Hm & item' & n'' & Hp' & Hs & Hv & _)]];
    try (rewrite Hp in Ht; done).
  split; [done|]. rewrite <- Hs. unfold is_invalid_date in Hv.
  by destruct (getTime (FeedItem.startTime item')).
Qed.

Lemma forEach_parseChild_only_grown items w :
  only_grown (Feed.this_feed w)
    (Feed.this_feed
       (snd (forEach
               (fun item =>
                  let* _ := Feed.parseChild Date_parse item in ret tt)
               items w))).
Proof.
  revert w. induction items as [|item items IH]; intros w.
  - apply only_grown_refl.
  - rewrite forEach_parseChild_cons.
    pose proof (parseChild_only_grown Date_parse item w) as Hg.
    destruct (Feed.parseChild Date_parse item w) as [[r|e] w']; simpl in *;
      [|done].
    eapply only_grown_trans; [exact Hg|apply IH].
Qed.

(** When the loop of [Feed.parse] returns, every entry has parsed and the
    id of every entry is filed. *)
Lemma forEach_parseChild_returns items w w' :
  forEach (fun item => let* _ := Feed.parseChild Date_parse item in ret tt)
    items w = (Return tt, w') →
  ∀ elem, elem ∈ items →
    parses Date_parse elem ∧
    ∃ item n, FeedItem.parse Date_parse elem 0%nat = (Return item, n) ∧
              JsMap.has (Feed.itemsById (Feed.this_feed w')) (FeedItem.id item)
              = true.
Proof.
  revert w. induction items as [|entry items IH]; intros w Hloop elem Hin.
  { by apply elem_of_nil in Hin. }
  rewrite forEach_parseChild_cons in Hloop.
  destruct (Feed.parseChild Date_parse entry w) as [[r|e] w1] eqn:Hc;
    [|done].
  apply elem_of_cons in Hin as [->|Hin]; [|by apply (IH w1)].
  assert (∃ item n1,
            FeedItem.parse Date_parse entry (Feed.next_ref w) = (Return item, n1)
            ∧ JsMap.has (Feed.itemsById (Feed.this_feed w1)) (FeedItem.id item)
              = true) as (item & n1 & Hp & Hhas).
  { destruct (parseChild_cases Date_parse entry w)
      as [(e & n' & Hc' & _)|[(item & n' & Hp & Hhas & Hc')
                             |(item & n' & Hp & Hhas & Hc')]];
      rewrite Hc' in Hc; [done| |].
    - injection Hc as _ <-. by exists item, n'.
    - injection Hc as _ <-. exists item, n'. split; [done|].
      simpl. unfold JsMap.has. by rewrite JsMap_get_set_eq. }
  split; [by apply (returns_parses entry _ _ _ Hp)|].
  destruct (parse_same_id Date_parse entry _ 0%nat _ _ Hp)
    as (item0 & n0 & Hp0 & Hid).
  exists item0, n0. split; [done|]. rewrite Hid.
  apply JsMap_has_true in Hhas as [filed Hget].
  pose proof (forEach_parseChild_only_grown items w1) as Hg.
  rewrite Hloop in Hg. destruct Hg as (_ & _ & _ & _ & Hkeep & _).
  apply JsMap_has_true. exists filed. by apply Hkeep.
Qed.

Lemma Feed_parse_loop doc n feed n' :
  Feed.parse Date_parse doc n = (Return feed, n') →
  ∃ title link buildDate description channel w',
    Dom.querySelector doc "channel" = Some channel ∧
    forEach (fun item => let* _ := Feed.parseChild Date_parse item in ret tt)
      (Dom.querySelectorAll channel "item")
      (Feed.mkWorld (S n) (Feed.new title link buildDate description))
    = (Return tt, w') ∧
    feed = Feed.this_feed w'.
Proof.
  unfold Feed.parse.
  destruct (Dom.querySelector doc "channel") as [channel|]; [|done].
  rewrite !getElemText_selector by reflexivity.
  unfold bind, liftO, parsePubDate, new_Date.
  destruct (Dom.querySelector channel "title") as [titleEl|]; [|done].
  destruct (Dom.querySelector channel "link") as [linkEl|]; [|done].
  destruct (Dom.querySelector channel "lastBuildDate") as [buildEl|]; [|done].
  destruct (Dom.querySelector channel "description") as [descEl|]; [|done].
  destruct (forEach _ _ _) as [[[]|e] w] eqn:Hloop; [|done].
  intros [= <- <-]. eexists _, _, _, _, channel, w. split; [done|].
  split; [exact Hloop|done].
Qed.

End FeedParseReturns.

(** X17. [Feed.parse] returns a feed only when the document has a channel
    and every entry of the channel parses: one entry that lacks a field or
    whose start is no date makes the whole parse throw. In the feed it
    returns the id of every entry is filed. *)
Theorem Feed_parse_needs_every_entry
    (Date_parse : string → option Z) doc n feed n' :
  Feed.parse Date_parse doc n = (Return feed, n') →
  ∃ channel,
    Dom.querySelector doc "channel" = Some channel ∧
    ∀ elem, elem ∈ Dom.querySelectorAll channel "item" →
      parses Date_parse elem ∧
      ∃ item m, FeedItem.parse Date_parse elem 0%nat = (Return item, m) ∧
                JsMap.has (Feed.itemsById feed) (FeedItem.id item) = true.
Proof.
  intros (title & link & buildDate & description & channel & w'
          & Hch & Hloop & ->)%Feed_parse_loop.
  exists channel. split; [done|]. intros elem Hin.
  by apply (forEach_parseChild_returns Date_parse _ _ _ Hloop).
Qed.

(** X18. [Feed.parse] throws a [TypeError] on a document without a
    [channel] element, and on one whose channel lacks its [title], [link],
    [lastBuildDate] or [description]. *)
Theorem Feed_parse_missing_element (Date_parse : string → option Z) doc n :
  (Dom.querySelector doc "channel" = None ∨
   ∃ channel,
     Dom.querySelector doc "channel" = Some channel ∧
     (Dom.querySelector channel "title" = None ∨
      Dom.querySelector channel "link" = None ∨
      Dom.querySelector channel "lastBuildDate" = None ∨
      Dom.querySelector channel "description" = None)) →
  fst (Feed.parse Date_parse doc n) = Throw TypeError.
Proof.
  unfold Feed.parse.
  intros [Hch|(channel & Hch & Hmiss)]; rewrite Hch; [done|].
  rewrite !getElemText_selector by reflexivity.
  unfold bind, liftO, parsePubDate, new_Date.
  destruct (Dom.querySelector channel "title"); [|done].
  destruct (Dom.querySelector channel "link"); [|done].
  destruct (Dom.querySelector channel "lastBuildDate"); [|done].
  destruct (Dom.querySelector channel "description"); [|done].
  by destruct Hmiss as [?|[?|[?|?]]].
Qed.

(** ** The samples *)

Lemma sample_parse_AB :
  Feed.parse Sample.Date_parse
    (Sample.rss Sample.build_0800 [Sample.entry_A; Sample.entry_B]) 0%nat
  = (Return Sample.feed_AB, 9%nat).
Proof. vm_compute. reflexivity. Qed.

Lemma sample_feed_AB :
  well_keyed Sample.feed_AB ∧ index_agree Sample.feed_AB ∧
  keys_valid Sample.feed_AB ∧ single_buckets Sample.feed_AB.
Proof. exact (Feed_parse_fresh _ _ _ _ _ sample_parse_AB). Qed.

Lemma sample_entries_parse elem :
  elem ∈ [Sample.entry_A; Sample.entry_B; Sample.entry_C] →
  parses Sample.Date_parse elem.
Proof.
  intros Hin.
  repeat (apply elem_of_cons in Hin as [->|Hin]);
    [| | |by apply elem_of_nil in Hin];
    eapply (returns_parses Sample.Date_parse _ 0%nat);
    vm_compute; reflexivity.
Qed.

(** ** The further properties at the samples *)

Lemma sample_doc_BC_entries elem :
  elem ∈ Dom.querySelectorAll
           (SamplePage.channel Sample.build_0800
              [Sample.entry_B; Sample.entry_C]) "item" →
  parses Sample.Date_parse elem.
Proof.
  change (Dom.querySelectorAll _ "item")
    with [Sample.entry_B; Sample.entry_C].
  intros Hin. apply sample_entries_parse. by right.
Qed.

Lemma update_keeps_lock_step_witness :
  well_keyed
    (Feed.this_feed
       (snd (Feed.update Sample.Date_parse SamplePage.doc_BC
               SamplePage.world_AB))) ∧
  index_agree
    (Feed.this_feed
       (snd (Feed.update Sample.Date_parse SamplePage.doc_BC
               SamplePage.world_AB))).
Proof.
  apply (update_keeps_lock_step Sample.Date_parse SamplePage.doc_BC
           SamplePage.world_AB).
  - exact (proj1 sample_feed_AB).
  - exact (proj1 (proj2 sample_feed_AB)).
Defined.

Lemma update_without_build_date_witness :
  Feed.update Sample.Date_parse SamplePage.rss_without_build_date
    SamplePage.world_AB
  = (Throw TypeError, SamplePage.world_AB).
Proof.
  apply (update_without_build_date Sample.Date_parse
           SamplePage.rss_without_build_date SamplePage.world_AB).
  right. exists (Dom.Element "channel" [Sample.field "title" "Meetings"]).
  split; reflexivity.
Defined.

Lemma update_replaces_items_witness :
  ∃ changed w',
    Feed.update Sample.Date_parse SamplePage.doc_BC SamplePage.world_AB
    = (Return (changed, JsMap.keys (Feed.itemsById Sample.feed_AB)), w') ∧
    (∀ itemId,
       JsMap.has (Feed.itemsById (Feed.this_feed w')) itemId = true ↔
       JsMap.has (Feed.itemsById Sample.feed_AB) itemId = false ∧
       ∃ elem item m,
         elem ∈ Dom.querySelectorAll
                  (SamplePage.channel Sample.build_0800
                     [Sample.entry_B; Sample.entry_C]) "item" ∧
         FeedItem.parse Sample.Date_parse elem 0%nat = (Return item, m) ∧
         FeedItem.id item = itemId) ∧
    (changed = true ↔
     Feed.itemsById Sample.feed_AB ≠ [] ∨
     ∃ elem item m,
       elem ∈ Dom.querySelectorAll
                (SamplePage.channel Sample.build_0800
                   [Sample.entry_B; Sample.entry_C]) "item" ∧
       FeedItem.parse Sample.Date_parse elem 0%nat = (Return item, m) ∧
       JsMap.has (Feed.itemsById Sample.feed_AB) (FeedItem.id item) = false) ∧
    (∀ itemId, itemId ∈ JsMap.keys (Feed.itemsById Sample.feed_AB) →
               JsMap.has (Feed.itemsById (Feed.this_feed w')) itemId = false).
Proof.
  apply (update_replaces_items Sample.Date_parse SamplePage.doc_BC
           (SamplePage.channel Sample.build_0800
              [Sample.entry_B; Sample.entry_C])
           (Sample.field "lastBuildDate" Sample.build_0800)
           SamplePage.world_AB).
  - exact (proj1 sample_feed_AB).
  - exact (proj1 (proj2 sample_feed_AB)).
  - reflexivity.
  - reflexivity.
  - reflexivity.
  - exact sample_doc_BC_entries.
Defined.

Lemma sortedStartTimes_yields_keys_witness :
  keys_valid Sample.feed_AB ∧
  StronglySorted le_time (Feed.sorted_keys Sample.feed_AB) ∧
  ∀ t, filter (fun d => getTime d = Some t) (Feed.sorted_keys Sample.feed_AB)
       = filter (fun d => getTime d = Some t)
           (JsMap.keys (Feed.itemsByStartTime Sample.feed_AB)).
Proof.
  split; [exact (proj1 (proj2 (proj2 sample_feed_AB)))|].
  apply (proj2 (proj2 (sortedStartTimes_yields_keys Sample.feed_AB))).
  exact (proj1 (proj2 (proj2 sample_feed_AB))).
Defined.

Lemma Feed_parse_makes_single_buckets_witness :
  index_agree Sample.feed_AB ∧ keys_valid Sample.feed_AB ∧
  single_buckets Sample.feed_AB.
Proof.
  apply (Feed_parse_makes_single_buckets Sample.Date_parse
           (Sample.rss Sample.build_0800 [Sample.entry_A; Sample.entry_B])
           0%nat Sample.feed_AB 9%nat).
  vm_compute. reflexivity.
Defined.

Lemma sortedItems_lists_filed_items_witness :
  ∃ l,
    spread (Feed.sortedItems_next Sample.feed_AB) (S (length l))
      Feed.sortedItems = Some (Return l) ∧
    (∀ o, o ∈ l →
          ∃ item, o = Some item ∧
                  JsMap.get (Feed.itemsById Sample.feed_AB) (FeedItem.id item)
                  = Some item) ∧
    (∀ itemId item,
       JsMap.get (Feed.itemsById Sample.feed_AB) itemId = Some item →
       occurrences item l = 1%nat) ∧
    (keys_valid Sample.feed_AB → nondecreasing_starts l).
Proof.
  apply (sortedItems_lists_filed_items Sample.feed_AB).
  - exact (proj1 sample_feed_AB).
  - exact (proj1 (proj2 sample_feed_AB)).
  - apply single_buckets_no_holes. exact (proj2 (proj2 (proj2 sample_feed_AB))).
Defined.

Lemma nextItem_is_earliest_witness :
  ∃ item,
    Feed.nextItem Sample.feed_AB = Return (Some (Some item)) ∧
    JsMap.get (Feed.itemsById Sample.feed_AB) (FeedItem.id item) = Some item ∧
    ∀ itemId item',
      JsMap.get (Feed.itemsById Sample.feed_AB) itemId = Some item' →
      le_time (FeedItem.startTime item) (FeedItem.startTime item').
Proof.
  apply (proj2 (nextItem_is_earliest Sample.feed_AB
                  (proj1 sample_feed_AB)
                  (proj1 (proj2 sample_feed_AB))
                  (single_buckets_no_holes _
                     (proj2 (proj2 (proj2 sample_feed_AB))))
                  (proj1 (proj2 (proj2 sample_feed_AB))))).
  discriminate.
Defined.

Lemma addChild_then_removeChild_witness :
  Feed.removeChild (FeedItem.id Sample.item_C)
    (snd (Feed.addChild Sample.item_C Sample.feed_AB))
  = (Return tt,
     Feed.mk "Meetings" "https://example.org/calendar"
       (mkDate 0 (Some 1704441600000)) "Public meetings"
       (JsMap.set (Feed.itemsByStartTime Sample.feed_AB)
          (FeedItem.startTime Sample.item_C) [None])
       (Feed.itemsById Sample.feed_AB)).
Proof.
  apply (addChild_then_removeChild Sample.item_C Sample.feed_AB).
  - exact (proj1 (proj2 sample_feed_AB)).
  - vm_compute. reflexivity.
Defined.

Lemma removeChild_takes_out_one_id_witness :
  fst (Feed.removeChild (FeedItem.id Sample.item_A) Sample.feed_AB)
  = Return tt ∧
  JsMap.has
    (Feed.itemsById
       (snd (Feed.removeChild (FeedItem.id Sample.item_A) Sample.feed_AB)))
    (FeedItem.id Sample.item_A) = false ∧
  ∀ itemId', itemId' ≠ FeedItem.id Sample.item_A →
    JsMap.get
      (Feed.itemsById
         (snd (Feed.removeChild (FeedItem.id Sample.item_A) Sample.feed_AB)))
      itemId'
    = JsMap.get (Feed.itemsById Sample.feed_AB) itemId'.
Proof.
  apply (removeChild_takes_out_one_id (FeedItem.id Sample.item_A)
           Sample.item_A Sample.feed_AB).
  - exact (proj1 sample_feed_AB).
  - exact (proj1 (proj2 sample_feed_AB)).
  - vm_compute. reflexivity.
Defined.

Lemma parseChild_twice_witness :
  fst (Feed.parseChild Sample.Date_parse Sample.entry_C
         (snd (Feed.parseChild Sample.Date_parse Sample.entry_C
                 SamplePage.world_AB)))
  = Return (false, Some SamplePage.item_C_next) ∧
  Feed.this_feed
    (snd (Feed.parseChild Sample.Date_parse Sample.entry_C
            (snd (Feed.parseChild Sample.Date_parse Sample.entry_C
                    SamplePage.world_AB))))
  = Feed.this_feed
      (snd (Feed.parseChild Sample.Date_parse Sample.entry_C
              SamplePage.world_AB)).
Proof.
  apply (parseChild_twice Sample.Date_parse Sample.entry_C
           SamplePage.world_AB true SamplePage.item_C_next
           (snd (Feed.parseChild Sample.Date_parse Sample.entry_C
                   SamplePage.world_AB))).
  vm_compute. reflexivity.
Defined.

Lemma sortedHtmlElems_builds_first_items_witness :
  spread (Feed.sortedItems_next Sample.feed_AB) 3 Feed.sortedItems
  = Some (Return [Some Sample.item_A; Some Sample.item_B]) ∧
  [Some Sample.item_A; Some Sample.item_B] = items_in_order Sample.feed_AB.
Proof.
  assert (Hs : spread (Feed.sortedItems_next Sample.feed_AB) 3
                 Feed.sortedItems
               = Some (Return [Some Sample.item_A; Some Sample.item_B])).
  { vm_compute. reflexivity. }
  split; [exact Hs|].
  exact (proj2 (sortedHtmlElems_builds_first_items SamplePage.Html
                  SamplePage.buildHtml (Some (Some 1)) Sample.feed_AB)
           3%nat [Some Sample.item_A; Some Sample.item_B] Hs).
Defined.

Lemma updateFeed_blanks_list_witness :
  ∃ e w' fuel0,
    (∀ fuel, (fuel0 ≤ fuel)%nat →
       MeetingFeed.updateFeed Sample.Date_parse SamplePage.buildHtml None
         fuel (Some SamplePage.doc_BC) SamplePage.page_AB
       = Some (Throw e, MeetingFeed.mkPage w' [])) ∧
    snd (Feed.update Sample.Date_parse SamplePage.doc_BC SamplePage.world_AB)
    = w' ∧
    ((∀ it, ∃ html, SamplePage.buildHtml it = Return html) → e = TypeError).
Proof.
  apply (updateFeed_blanks_list Sample.Date_parse SamplePage.Html
           SamplePage.buildHtml None SamplePage.doc_BC
           (SamplePage.channel Sample.build_0800
              [Sample.entry_B; Sample.entry_C])
           (Sample.field "lastBuildDate" Sample.build_0800)
           SamplePage.page_AB).
  - exact (proj1 sample_feed_AB).
  - exact (proj1 (proj2 sample_feed_AB)).
  - discriminate.
  - reflexivity.
  - reflexivity.
  - reflexivity.
  - exact sample_doc_BC_entries.
  - left. reflexivity.
Defined.

Lemma parse_combines_dates_and_times_witness :
  start_text " Jan 5 2024 " "10:00 AM - 11:00 AM"
  = Some "Jan 5 2024 10:00 AM" ∧
  end_text " Jan 5 2024 " "10:00 AM - 11:00 AM"
  = Some "Jan 5 2024 11:00 AM".
Proof.
  apply (proj1 (parse_combines_dates_and_times " Jan 5 2024 " "Jan 5 2024"
                  "10:00 AM" "11:00 AM" "" "" "")); reflexivity.
Defined.

Lemma Feed_parse_needs_every_entry_witness :
  ∃ channel,
    Dom.querySelector
      (Sample.rss Sample.build_0800 [Sample.entry_A; Sample.entry_B])
      "channel" = Some channel ∧
    ∀ elem, elem ∈ Dom.querySelectorAll channel "item" →
      parses Sample.Date_parse elem ∧
      ∃ item m,
        FeedItem.parse Sample.Date_parse elem 0%nat = (Return item, m) ∧
        JsMap.has (Feed.itemsById Sample.feed_AB) (FeedItem.id item) = true.
Proof.
  apply (Feed_parse_needs_every_entry Sample.Date_parse
           (Sample.rss Sample.build_0800 [Sample.entry_A; Sample.entry_B])
           0%nat Sample.feed_AB 9%nat).
  vm_compute. reflexivity.
Defined.

Lemma Feed_parse_missing_element_witness :
  fst (Feed.parse Sample.Date_parse SamplePage.rss_without_build_date 0%nat)
  = Throw TypeError.
Proof.
  apply (Feed_parse_missing_element Sample.Date_parse
           SamplePage.rss_without_build_date 0%nat).
  right. exists (Dom.Element "channel" [Sample.field "title" "Meetings"]).
  split; [reflexivity|]. right. left. reflexivity.
Defined.
